(** * CypherBeam: debounced translation dispatch and bounded particle pool

    A shallow embedding of [src/gallery/cypher-beam/app.js].  The page is a
    single-threaded event loop: every handler and every timer callback runs
    to completion, so the program is modelled as a state record, one
    function per source function, and a [step] function that dispatches an
    event to its handler.  Time is logical (milliseconds). *)

From Stdlib Require Import ZArith String Ascii List Lia Bool.
From stdpp Require Import gmap strings list fin_maps.
Import ListNotations.

Set Warnings "-register-all".

Local Open Scope string_scope.
Local Open Scope list_scope.

(** ** Strings

    One [ascii] stands for one UTF-16 code unit in the range U+0000..U+00FF;
    text outside that range is outside the model. *)

Module JsString.

Definition code (c : ascii) : nat := nat_of_ascii c.

(** [String.prototype.toLowerCase] on the modelled range: A-Z and the
    Latin-1 capitals U+00C0..U+00DE (U+00D7 is the multiplication sign). *)
Definition lower_char (c : ascii) : ascii :=
  let n := code c in
  if (((65 <=? n) && (n <=? 90))
      || ((192 <=? n) && (n <=? 222) && negb (n =? 215)))%nat
  then ascii_of_nat (n + 32) else c.

Fixpoint toLowerCase (s : string) : string :=
  match s with
  | EmptyString => EmptyString
  | String c r => String (lower_char c) (toLowerCase r)
  end.

(** The class [\s] on the modelled range: TAB, LF, VT, FF, CR, SP, NBSP. *)
Definition is_space (c : ascii) : bool :=
  let n := code c in
  (((9 <=? n) && (n <=? 13)) || (n =? 32) || (n =? 160))%nat.

(** The character class of the first [replace]: full stop, comma,
    exclamation and question mark, semicolon, colon, both quotes and the
    two parentheses. *)
Definition is_punct (c : ascii) : bool :=
  existsb (Nat.eqb (code c)) [46; 44; 33; 63; 59; 58; 39; 34; 40; 41].

(** [s.replace(/[...]/g, empty)]: every code unit of the class is dropped. *)
Fixpoint strip_punct (s : string) : string :=
  match s with
  | EmptyString => EmptyString
  | String c r => if is_punct c then strip_punct r else String c (strip_punct r)
  end.

(** [s.split(/\s+/)]: the pieces between maximal runs of white space, an
    empty piece in front of a leading run and after a trailing one.
    [cur] is the piece being read, [in_run] tells that the previous code
    unit was white space. *)
Fixpoint split_go (s cur : string) (in_run : bool) : list string :=
  match s with
  | EmptyString => [cur]
  | String c r =>
      if is_space c
      then (if in_run then split_go r EmptyString true
            else cur :: split_go r EmptyString true)
      else split_go r (cur ++ String c EmptyString) false
  end.

Definition split_ws (s : string) : list string := split_go s EmptyString false.

(** [s.includes(sub)] *)
Fixpoint includes (s sub : string) : bool :=
  if String.prefix sub s then true
  else match s with
       | EmptyString => false
       | String _ r => includes r sub
       end.

(** [s.slice(-n)]: the last [n] code units, the whole string when it is
    shorter. *)
Definition slice_last (n : nat) (s : string) : string :=
  String.substring (String.length s - n) n s.

Definition eqb (a b : string) : bool := bool_decide (a = b).

End JsString.

(** ** Values

    What a property read or a parsed JSON body can yield.  [VBuiltin] is a
    member inherited from [Object.prototype]; numbers are the integral
    ones. *)

Inductive Value : Type :=
| VUndefined
| VNull
| VBool (b : bool)
| VNum (n : Z)
| VStr (s : string)
| VArr (l : list Value)
| VObj (fields : list (string * Value))
| VBuiltin (name : string).

(** JavaScript truthiness. *)
Definition truthy (v : Value) : bool :=
  match v with
  | VUndefined | VNull => false
  | VBool b => b
  | VNum n => negb (n =? 0)%Z
  | VStr s => negb (JsString.eqb s "")
  | VArr _ | VObj _ | VBuiltin _ => true
  end.

Fixpoint assoc {A : Type} (k : string) (l : list (string * A)) : option A :=
  match l with
  | [] => None
  | (k', v) :: r => if JsString.eqb k k' then Some v else assoc k r
  end.

(** ** Configuration *)

Definition TRANSLATE_DEBOUNCE_MS : Z := 800.
Definition MAX_EMOJIS : Z := 40.
Definition EMOJI_FADE_AFTER : Z := 30000.

Definition ALL_LANGS : list string := ["de"; "en"; "fr"; "es"].

(** [LANG_CONFIG[lang].speech]; [None] for a language that is not
    configured, where the read throws. *)
Definition LANG_CONFIG_speech (lang : string) : option string :=
  assoc lang [("de", "de-DE"); ("en", "en-US"); ("fr", "fr-FR"); ("es", "es-ES")].

(** The dictionaries are loaded by another script of the page
    ([window.EMOJI_DICT], [window.POSITIVE_WORDS], [window.NEGATIVE_WORDS]);
    [Math.random] is the platform's.  They are inputs of the model.
    [EMOJI_DICT] lists the own properties in [Object.keys] order. *)
Record Env : Type := {
  EMOJI_DICT : list (string * string);
  POSITIVE_WORDS : gset string;
  NEGATIVE_WORDS : gset string;
  (** the animation delay computed from [Math.random()] at the n-th call *)
  animation_delay : nat -> string;
  (** the message of the exception [recognition.start()] throws *)
  start_error_message : string
}.

(** The names every plain object inherits from [Object.prototype]. *)
Definition OBJECT_PROTOTYPE : list string :=
  ["constructor"; "__defineGetter__"; "__defineSetter__"; "hasOwnProperty";
   "__lookupGetter__"; "__lookupSetter__"; "isPrototypeOf";
   "propertyIsEnumerable"; "toString"; "valueOf"; "__proto__";
   "toLocaleString"].

(** [window.EMOJI_DICT[key]]: an own property, else an inherited member. *)
Definition dict_get (env : Env) (key : string) : Value :=
  match assoc key (EMOJI_DICT env) with
  | Some v => VStr v
  | None => if existsb (JsString.eqb key) OBJECT_PROTOTYPE
            then VBuiltin key else VUndefined
  end.

(** ** The page state *)

(** A particle span.  [textContent] keeps the value that was assigned; the
    string conversion done by the DOM is not modelled.  Elements are named
    by the order of their creation, the spans and the text elements of the
    translation cards each in a numbering of their own. *)
Record Element : Type := {
  classList : list string;
  textContent : Value;
  animationDelay : string
}.

Definition cl_contains (c : string) (cl : list string) : bool :=
  existsb (JsString.eqb c) cl.
Definition cl_remove (c : string) (cl : list string) : list string :=
  filter (fun x => x ≠ c) cl.
Definition cl_add (c : string) (cl : list string) : list string :=
  if cl_contains c cl then cl else cl ++ [c].

Inductive Callback : Type :=
| CbToastHide                 (* showToast: hide after 4000 *)
| CbRestart                   (* handleLangChange: startListening after 200 *)
| CbTranslate (text : string) (* scheduleTranslation: the debounced dispatch *)
| CbFloat (span : nat)        (* addEmojiParticle: after 600 *)
| CbFade (span : nat)         (* addEmojiParticle: after EMOJI_FADE_AFTER *)
| CbTextFade (span : nat)     (* addTextParticle: after 10000 *)
| CbRemove (span : nat).      (* the nested removal, after 1000 *)

Record Timer : Type := { tid : nat; due : Z; cb : Callback }.

(** One call of [translateAll], between its requests and their settling. *)
Record Batch : Type := {
  bid : nat;
  b_text : string;          (* the argument of translateAll *)
  b_trimmed : string;       (* the text sent *)
  b_from : string;
  b_targets : list string
}.

Record Chrome : Type := {
  micBtn_active : bool;
  micBtn_text : string;
  statusText : string;
  status_live : bool;
  toast_text : string;
  toast_visible : bool;
  originalText : string * string;   (* the final and the interim part shown *)
  recognition_lang : string;
  recognition_started : bool
}.

Record State : Type := {
  now : Z;
  (* the script's variables *)
  isListening : bool;
  sourceLang : string;
  finalTranscript : string;
  lastTranslatedText : string;
  translateTimer : option nat;
  emojiCount : Z;
  positiveScore : Z;
  negativeScore : Z;
  translationCards : gmap string nat;
  (* the document *)
  langSelect : string;
  emojiZone : list nat;               (* children, in document order *)
  emojiZone_classList : list string;
  elements : gmap nat Element;        (* the particle spans created so far *)
  next_element : nat;
  translationZone : list nat;
  cards : gmap nat Value;             (* the text of each card element created *)
  next_card : nat;
  chrome : Chrome;
  (* the platform *)
  timers : list Timer;
  next_timer : nat;
  random_calls : nat;
  (* the translation service *)
  inflight : list Batch;
  dispatched : list Batch             (* every batch sent so far, oldest first *)
}.

(** Field updates. *)

Definition set_micBtn_active (v : bool) (c : Chrome) : Chrome :=
  {| micBtn_active := v; micBtn_text := micBtn_text c;
     statusText := statusText c; status_live := status_live c;
     toast_text := toast_text c; toast_visible := toast_visible c;
     originalText := originalText c; recognition_lang := recognition_lang c;
     recognition_started := recognition_started c |}.
Definition set_micBtn_text (v : string) (c : Chrome) : Chrome :=
  {| micBtn_active := micBtn_active c; micBtn_text := v;
     statusText := statusText c; status_live := status_live c;
     toast_text := toast_text c; toast_visible := toast_visible c;
     originalText := originalText c; recognition_lang := recognition_lang c;
     recognition_started := recognition_started c |}.
Definition set_statusText (v : string) (c : Chrome) : Chrome :=
  {| micBtn_active := micBtn_active c; micBtn_text := micBtn_text c;
     statusText := v; status_live := status_live c;
     toast_text := toast_text c; toast_visible := toast_visible c;
     originalText := originalText c; recognition_lang := recognition_lang c;
     recognition_started := recognition_started c |}.
Definition set_status_live (v : bool) (c : Chrome) : Chrome :=
  {| micBtn_active := micBtn_active c; micBtn_text := micBtn_text c;
     statusText := statusText c; status_live := v;
     toast_text := toast_text c; toast_visible := toast_visible c;
     originalText := originalText c; recognition_lang := recognition_lang c;
     recognition_started := recognition_started c |}.
Definition set_toast_text (v : string) (c : Chrome) : Chrome :=
  {| micBtn_active := micBtn_active c; micBtn_text := micBtn_text c;
     statusText := statusText c; status_live := status_live c;
     toast_text := v; toast_visible := toast_visible c;
     originalText := originalText c; recognition_lang := recognition_lang c;
     recognition_started := recognition_started c |}.
Definition set_toast_visible (v : bool) (c : Chrome) : Chrome :=
  {| micBtn_active := micBtn_active c; micBtn_text := micBtn_text c;
     statusText := statusText c; status_live := status_live c;
     toast_text := toast_text c; toast_visible := v;
     originalText := originalText c; recognition_lang := recognition_lang c;
     recognition_started := recognition_started c |}.
Definition set_originalText (v : string * string) (c : Chrome) : Chrome :=
  {| micBtn_active := micBtn_active c; micBtn_text := micBtn_text c;
     statusText := statusText c; status_live := status_live c;
     toast_text := toast_text c; toast_visible := toast_visible c;
     originalText := v; recognition_lang := recognition_lang c;
     recognition_started := recognition_started c |}.
Definition set_recognition_lang (v : string) (c : Chrome) : Chrome :=
  {| micBtn_active := micBtn_active c; micBtn_text := micBtn_text c;
     statusText := statusText c; status_live := status_live c;
     toast_text := toast_text c; toast_visible := toast_visible c;
     originalText := originalText c; recognition_lang := v;
     recognition_started := recognition_started c |}.
Definition set_recognition_started (v : bool) (c : Chrome) : Chrome :=
  {| micBtn_active := micBtn_active c; micBtn_text := micBtn_text c;
     statusText := statusText c; status_live := status_live c;
     toast_text := toast_text c; toast_visible := toast_visible c;
     originalText := originalText c; recognition_lang := recognition_lang c;
     recognition_started := v |}.

Definition set_now (v : Z) (s : State) : State :=
  {| now := v; isListening := isListening s; sourceLang := sourceLang s;
     finalTranscript := finalTranscript s;
     lastTranslatedText := lastTranslatedText s;
     translateTimer := translateTimer s; emojiCount := emojiCount s;
     positiveScore := positiveScore s; negativeScore := negativeScore s;
     translationCards := translationCards s; langSelect := langSelect s;
     emojiZone := emojiZone s; emojiZone_classList := emojiZone_classList s;
     elements := elements s; next_element := next_element s;
     translationZone := translationZone s; cards := cards s;
     next_card := next_card s; chrome := chrome s; timers := timers s;
     next_timer := next_timer s; random_calls := random_calls s;
     inflight := inflight s; dispatched := dispatched s |}.
Definition set_isListening (v : bool) (s : State) : State :=
  {| now := now s; isListening := v; sourceLang := sourceLang s;
     finalTranscript := finalTranscript s;
     lastTranslatedText := lastTranslatedText s;
     translateTimer := translateTimer s; emojiCount := emojiCount s;
     positiveScore := positiveScore s; negativeScore := negativeScore s;
     translationCards := translationCards s; langSelect := langSelect s;
     emojiZone := emojiZone s; emojiZone_classList := emojiZone_classList s;
     elements := elements s; next_element := next_element s;
     translationZone := translationZone s; cards := cards s;
     next_card := next_card s; chrome := chrome s; timers := timers s;
     next_timer := next_timer s; random_calls := random_calls s;
     inflight := inflight s; dispatched := dispatched s |}.
Definition set_sourceLang (v : string) (s : State) : State :=
  {| now := now s; isListening := isListening s; sourceLang := v;
     finalTranscript := finalTranscript s;
     lastTranslatedText := lastTranslatedText s;
     translateTimer := translateTimer s; emojiCount := emojiCount s;
     positiveScore := positiveScore s; negativeScore := negativeScore s;
     translationCards := translationCards s; langSelect := langSelect s;
     emojiZone := emojiZone s; emojiZone_classList := emojiZone_classList s;
     elements := elements s; next_element := next_element s;
     translationZone := translationZone s; cards := cards s;
     next_card := next_card s; chrome := chrome s; timers := timers s;
     next_timer := next_timer s; random_calls := random_calls s;
     inflight := inflight s; dispatched := dispatched s |}.
Definition set_finalTranscript (v : string) (s : State) : State :=
  {| now := now s; isListening := isListening s; sourceLang := sourceLang s;
     finalTranscript := v; lastTranslatedText := lastTranslatedText s;
     translateTimer := translateTimer s; emojiCount := emojiCount s;
     positiveScore := positiveScore s; negativeScore := negativeScore s;
     translationCards := translationCards s; langSelect := langSelect s;
     emojiZone := emojiZone s; emojiZone_classList := emojiZone_classList s;
     elements := elements s; next_element := next_element s;
     translationZone := translationZone s; cards := cards s;
     next_card := next_card s; chrome := chrome s; timers := timers s;
     next_timer := next_timer s; random_calls := random_calls s;
     inflight := inflight s; dispatched := dispatched s |}.
Definition set_lastTranslatedText (v : string) (s : State) : State :=
  {| now := now s; isListening := isListening s; sourceLang := sourceLang s;
     finalTranscript := finalTranscript s; lastTranslatedText := v;
     translateTimer := translateTimer s; emojiCount := emojiCount s;
     positiveScore := positiveScore s; negativeScore := negativeScore s;
     translationCards := translationCards s; langSelect := langSelect s;
     emojiZone := emojiZone s; emojiZone_classList := emojiZone_classList s;
     elements := elements s; next_element := next_element s;
     translationZone := translationZone s; cards := cards s;
     next_card := next_card s; chrome := chrome s; timers := timers s;
     next_timer := next_timer s; random_calls := random_calls s;
     inflight := inflight s; dispatched := dispatched s |}.
Definition set_translateTimer (v : option nat) (s : State) : State :=
  {| now := now s; isListening := isListening s; sourceLang := sourceLang s;
     finalTranscript := finalTranscript s;
     lastTranslatedText := lastTranslatedText s; translateTimer := v;
     emojiCount := emojiCount s; positiveScore := positiveScore s;
     negativeScore := negativeScore s;
     translationCards := translationCards s; langSelect := langSelect s;
     emojiZone := emojiZone s; emojiZone_classList := emojiZone_classList s;
     elements := elements s; next_element := next_element s;
     translationZone := translationZone s; cards := cards s;
     next_card := next_card s; chrome := chrome s; timers := timers s;
     next_timer := next_timer s; random_calls := random_calls s;
     inflight := inflight s; dispatched := dispatched s |}.
Definition set_emojiCount (v : Z) (s : State) : State :=
  {| now := now s; isListening := isListening s; sourceLang := sourceLang s;
     finalTranscript := finalTranscript s;
     lastTranslatedText := lastTranslatedText s;
     translateTimer := translateTimer s; emojiCount := v;
     positiveScore := positiveScore s; negativeScore := negativeScore s;
     translationCards := translationCards s; langSelect := langSelect s;
     emojiZone := emojiZone s; emojiZone_classList := emojiZone_classList s;
     elements := elements s; next_element := next_element s;
     translationZone := translationZone s; cards := cards s;
     next_card := next_card s; chrome := chrome s; timers := timers s;
     next_timer := next_timer s; random_calls := random_calls s;
     inflight := inflight s; dispatched := dispatched s |}.
Definition set_positiveScore (v : Z) (s : State) : State :=
  {| now := now s; isListening := isListening s; sourceLang := sourceLang s;
     finalTranscript := finalTranscript s;
     lastTranslatedText := lastTranslatedText s;
     translateTimer := translateTimer s; emojiCount := emojiCount s;
     positiveScore := v; negativeScore := negativeScore s;
     translationCards := translationCards s; langSelect := langSelect s;
     emojiZone := emojiZone s; emojiZone_classList := emojiZone_classList s;
     elements := elements s; next_element := next_element s;
     translationZone := translationZone s; cards := cards s;
     next_card := next_card s; chrome := chrome s; timers := timers s;
     next_timer := next_timer s; random_calls := random_calls s;
     inflight := inflight s; dispatched := dispatched s |}.
Definition set_negativeScore (v : Z) (s : State) : State :=
  {| now := now s; isListening := isListening s; sourceLang := sourceLang s;
     finalTranscript := finalTranscript s;
     lastTranslatedText := lastTranslatedText s;
     translateTimer := translateTimer s; emojiCount := emojiCount s;
     positiveScore := positiveScore s; negativeScore := v;
     translationCards := translationCards s; langSelect := langSelect s;
     emojiZone := emojiZone s; emojiZone_classList := emojiZone_classList s;
     elements := elements s; next_element := next_element s;
     translationZone := translationZone s; cards := cards s;
     next_card := next_card s; chrome := chrome s; timers := timers s;
     next_timer := next_timer s; random_calls := random_calls s;
     inflight := inflight s; dispatched := dispatched s |}.
Definition set_translationCards (v : gmap string nat) (s : State) : State :=
  {| now := now s; isListening := isListening s; sourceLang := sourceLang s;
     finalTranscript := finalTranscript s;
     lastTranslatedText := lastTranslatedText s;
     translateTimer := translateTimer s; emojiCount := emojiCount s;
     positiveScore := positiveScore s; negativeScore := negativeScore s;
     translationCards := v; langSelect := langSelect s;
     emojiZone := emojiZone s; emojiZone_classList := emojiZone_classList s;
     elements := elements s; next_element := next_element s;
     translationZone := translationZone s; cards := cards s;
     next_card := next_card s; chrome := chrome s; timers := timers s;
     next_timer := next_timer s; random_calls := random_calls s;
     inflight := inflight s; dispatched := dispatched s |}.
Definition set_langSelect (v : string) (s : State) : State :=
  {| now := now s; isListening := isListening s; sourceLang := sourceLang s;
     finalTranscript := finalTranscript s;
     lastTranslatedText := lastTranslatedText s;
     translateTimer := translateTimer s; emojiCount := emojiCount s;
     positiveScore := positiveScore s; negativeScore := negativeScore s;
     translationCards := translationCards s; langSelect := v;
     emojiZone := emojiZone s; emojiZone_classList := emojiZone_classList s;
     elements := elements s; next_element := next_element s;
     translationZone := translationZone s; cards := cards s;
     next_card := next_card s; chrome := chrome s; timers := timers s;
     next_timer := next_timer s; random_calls := random_calls s;
     inflight := inflight s; dispatched := dispatched s |}.
Definition set_emojiZone (v : list nat) (s : State) : State :=
  {| now := now s; isListening := isListening s; sourceLang := sourceLang s;
     finalTranscript := finalTranscript s;
     lastTranslatedText := lastTranslatedText s;
     translateTimer := translateTimer s; emojiCount := emojiCount s;
     positiveScore := positiveScore s; negativeScore := negativeScore s;
     translationCards := translationCards s; langSelect := langSelect s;
     emojiZone := v; emojiZone_classList := emojiZone_classList s;
     elements := elements s; next_element := next_element s;
     translationZone := translationZone s; cards := cards s;
     next_card := next_card s; chrome := chrome s; timers := timers s;
     next_timer := next_timer s; random_calls := random_calls s;
     inflight := inflight s; dispatched := dispatched s |}.
Definition set_emojiZone_classList (v : list string) (s : State) : State :=
  {| now := now s; isListening := isListening s; sourceLang := sourceLang s;
     finalTranscript := finalTranscript s;
     lastTranslatedText := lastTranslatedText s;
     translateTimer := translateTimer s; emojiCount := emojiCount s;
     positiveScore := positiveScore s; negativeScore := negativeScore s;
     translationCards := translationCards s; langSelect := langSelect s;
     emojiZone := emojiZone s; emojiZone_classList := v;
     elements := elements s; next_element := next_element s;
     translationZone := translationZone s; cards := cards s;
     next_card := next_card s; chrome := chrome s; timers := timers s;
     next_timer := next_timer s; random_calls := random_calls s;
     inflight := inflight s; dispatched := dispatched s |}.
Definition set_elements (v : gmap nat Element) (s : State) : State :=
  {| now := now s; isListening := isListening s; sourceLang := sourceLang s;
     finalTranscript := finalTranscript s;
     lastTranslatedText := lastTranslatedText s;
     translateTimer := translateTimer s; emojiCount := emojiCount s;
     positiveScore := positiveScore s; negativeScore := negativeScore s;
     translationCards := translationCards s; langSelect := langSelect s;
     emojiZone := emojiZone s; emojiZone_classList := emojiZone_classList s;
     elements := v; next_element := next_element s;
     translationZone := translationZone s; cards := cards s;
     next_card := next_card s; chrome := chrome s; timers := timers s;
     next_timer := next_timer s; random_calls := random_calls s;
     inflight := inflight s; dispatched := dispatched s |}.
Definition set_next_element (v : nat) (s : State) : State :=
  {| now := now s; isListening := isListening s; sourceLang := sourceLang s;
     finalTranscript := finalTranscript s;
     lastTranslatedText := lastTranslatedText s;
     translateTimer := translateTimer s; emojiCount := emojiCount s;
     positiveScore := positiveScore s; negativeScore := negativeScore s;
     translationCards := translationCards s; langSelect := langSelect s;
     emojiZone := emojiZone s; emojiZone_classList := emojiZone_classList s;
     elements := elements s; next_element := v;
     translationZone := translationZone s; cards := cards s;
     next_card := next_card s; chrome := chrome s; timers := timers s;
     next_timer := next_timer s; random_calls := random_calls s;
     inflight := inflight s; dispatched := dispatched s |}.
Definition set_translationZone (v : list nat) (s : State) : State :=
  {| now := now s; isListening := isListening s; sourceLang := sourceLang s;
     finalTranscript := finalTranscript s;
     lastTranslatedText := lastTranslatedText s;
     translateTimer := translateTimer s; emojiCount := emojiCount s;
     positiveScore := positiveScore s; negativeScore := negativeScore s;
     translationCards := translationCards s; langSelect := langSelect s;
     emojiZone := emojiZone s; emojiZone_classList := emojiZone_classList s;
     elements := elements s; next_element := next_element s;
     translationZone := v; cards := cards s; next_card := next_card s;
     chrome := chrome s; timers := timers s; next_timer := next_timer s;
     random_calls := random_calls s; inflight := inflight s;
     dispatched := dispatched s |}.
Definition set_cards (v : gmap nat Value) (s : State) : State :=
  {| now := now s; isListening := isListening s; sourceLang := sourceLang s;
     finalTranscript := finalTranscript s;
     lastTranslatedText := lastTranslatedText s;
     translateTimer := translateTimer s; emojiCount := emojiCount s;
     positiveScore := positiveScore s; negativeScore := negativeScore s;
     translationCards := translationCards s; langSelect := langSelect s;
     emojiZone := emojiZone s; emojiZone_classList := emojiZone_classList s;
     elements := elements s; next_element := next_element s;
     translationZone := translationZone s; cards := v;
     next_card := next_card s; chrome := chrome s; timers := timers s;
     next_timer := next_timer s; random_calls := random_calls s;
     inflight := inflight s; dispatched := dispatched s |}.
Definition set_next_card (v : nat) (s : State) : State :=
  {| now := now s; isListening := isListening s; sourceLang := sourceLang s;
     finalTranscript := finalTranscript s;
     lastTranslatedText := lastTranslatedText s;
     translateTimer := translateTimer s; emojiCount := emojiCount s;
     positiveScore := positiveScore s; negativeScore := negativeScore s;
     translationCards := translationCards s; langSelect := langSelect s;
     emojiZone := emojiZone s; emojiZone_classList := emojiZone_classList s;
     elements := elements s; next_element := next_element s;
     translationZone := translationZone s; cards := cards s; next_card := v;
     chrome := chrome s; timers := timers s; next_timer := next_timer s;
     random_calls := random_calls s; inflight := inflight s;
     dispatched := dispatched s |}.
Definition set_chrome (v : Chrome) (s : State) : State :=
  {| now := now s; isListening := isListening s; sourceLang := sourceLang s;
     finalTranscript := finalTranscript s;
     lastTranslatedText := lastTranslatedText s;
     translateTimer := translateTimer s; emojiCount := emojiCount s;
     positiveScore := positiveScore s; negativeScore := negativeScore s;
     translationCards := translationCards s; langSelect := langSelect s;
     emojiZone := emojiZone s; emojiZone_classList := emojiZone_classList s;
     elements := elements s; next_element := next_element s;
     translationZone := translationZone s; cards := cards s;
     next_card := next_card s; chrome := v; timers := timers s;
     next_timer := next_timer s; random_calls := random_calls s;
     inflight := inflight s; dispatched := dispatched s |}.
Definition set_timers (v : list Timer) (s : State) : State :=
  {| now := now s; isListening := isListening s; sourceLang := sourceLang s;
     finalTranscript := finalTranscript s;
     lastTranslatedText := lastTranslatedText s;
     translateTimer := translateTimer s; emojiCount := emojiCount s;
     positiveScore := positiveScore s; negativeScore := negativeScore s;
     translationCards := translationCards s; langSelect := langSelect s;
     emojiZone := emojiZone s; emojiZone_classList := emojiZone_classList s;
     elements := elements s; next_element := next_element s;
     translationZone := translationZone s; cards := cards s;
     next_card := next_card s; chrome := chrome s; timers := v;
     next_timer := next_timer s; random_calls := random_calls s;
     inflight := inflight s; dispatched := dispatched s |}.
Definition set_next_timer (v : nat) (s : State) : State :=
  {| now := now s; isListening := isListening s; sourceLang := sourceLang s;
     finalTranscript := finalTranscript s;
     lastTranslatedText := lastTranslatedText s;
     translateTimer := translateTimer s; emojiCount := emojiCount s;
     positiveScore := positiveScore s; negativeScore := negativeScore s;
     translationCards := translationCards s; langSelect := langSelect s;
     emojiZone := emojiZone s; emojiZone_classList := emojiZone_classList s;
     elements := elements s; next_element := next_element s;
     translationZone := translationZone s; cards := cards s;
     next_card := next_card s; chrome := chrome s; timers := timers s;
     next_timer := v; random_calls := random_calls s; inflight := inflight s;
     dispatched := dispatched s |}.
Definition set_random_calls (v : nat) (s : State) : State :=
  {| now := now s; isListening := isListening s; sourceLang := sourceLang s;
     finalTranscript := finalTranscript s;
     lastTranslatedText := lastTranslatedText s;
     translateTimer := translateTimer s; emojiCount := emojiCount s;
     positiveScore := positiveScore s; negativeScore := negativeScore s;
     translationCards := translationCards s; langSelect := langSelect s;
     emojiZone := emojiZone s; emojiZone_classList := emojiZone_classList s;
     elements := elements s; next_element := next_element s;
     translationZone := translationZone s; cards := cards s;
     next_card := next_card s; chrome := chrome s; timers := timers s;
     next_timer := next_timer s; random_calls := v; inflight := inflight s;
     dispatched := dispatched s |}.
Definition set_inflight (v : list Batch) (s : State) : State :=
  {| now := now s; isListening := isListening s; sourceLang := sourceLang s;
     finalTranscript := finalTranscript s;
     lastTranslatedText := lastTranslatedText s;
     translateTimer := translateTimer s; emojiCount := emojiCount s;
     positiveScore := positiveScore s; negativeScore := negativeScore s;
     translationCards := translationCards s; langSelect := langSelect s;
     emojiZone := emojiZone s; emojiZone_classList := emojiZone_classList s;
     elements := elements s; next_element := next_element s;
     translationZone := translationZone s; cards := cards s;
     next_card := next_card s; chrome := chrome s; timers := timers s;
     next_timer := next_timer s; random_calls := random_calls s;
     inflight := v; dispatched := dispatched s |}.
Definition set_dispatched (v : list Batch) (s : State) : State :=
  {| now := now s; isListening := isListening s; sourceLang := sourceLang s;
     finalTranscript := finalTranscript s;
     lastTranslatedText := lastTranslatedText s;
     translateTimer := translateTimer s; emojiCount := emojiCount s;
     positiveScore := positiveScore s; negativeScore := negativeScore s;
     translationCards := translationCards s; langSelect := langSelect s;
     emojiZone := emojiZone s; emojiZone_classList := emojiZone_classList s;
     elements := elements s; next_element := next_element s;
     translationZone := translationZone s; cards := cards s;
     next_card := next_card s; chrome := chrome s; timers := timers s;
     next_timer := next_timer s; random_calls := random_calls s;
     inflight := inflight s; dispatched := v |}.

(** ** The platform: timers and elements *)

(** [setTimeout(callback, delay)]: the handle and the new state. *)
Definition setTimeout (c : Callback) (delay : Z) (s : State) : nat * State :=
  let id := next_timer s in
  (id, set_next_timer (S id)
         (set_timers (timers s ++ [{| tid := id; due := now s + delay; cb := c |}]) s)).

(** [clearTimeout(handle)]; nothing happens for [null] and for a handle
    whose timer has fired. *)
Definition clearTimeout (h : option nat) (s : State) : State :=
  match h with
  | None => s
  | Some id => set_timers (filter (fun t => tid t ≠ id) (timers s)) s
  end.

Definition blank : Element :=
  {| classList := []; textContent := VStr ""; animationDelay := "" |}.

(** [document.createElement(...)] *)
Definition createElement (s : State) : nat * State :=
  let id := next_element s in
  (id, set_next_element (S id) (set_elements (<[id := blank]> (elements s)) s)).

Definition update_element (id : nat) (f : Element -> Element) (s : State) : State :=
  set_elements (alter f id (elements s)) s.

Definition with_classList (f : list string -> list string) (e : Element) : Element :=
  {| classList := f (classList e); textContent := textContent e;
     animationDelay := animationDelay e |}.
Definition with_textContent (v : Value) (e : Element) : Element :=
  {| classList := classList e; textContent := v;
     animationDelay := animationDelay e |}.
Definition with_animationDelay (d : string) (e : Element) : Element :=
  {| classList := classList e; textContent := textContent e;
     animationDelay := d |}.

Definition has_class (c : string) (id : nat) (s : State) : bool :=
  match elements s !! id with
  | Some e => cl_contains c (classList e)
  | None => false
  end.

(** [span.parentNode], as a condition: particle spans are appended to the
    emoji zone and nowhere else. *)
Definition parentNode (span : nat) (s : State) : bool :=
  bool_decide (span ∈ emojiZone s).

(** [emojiZone.appendChild(span)] *)
Definition appendChild (span : nat) (s : State) : State :=
  set_emojiZone (emojiZone s ++ [span]) s.

(** [span.remove()] *)
Definition remove (span : nat) (s : State) : State :=
  set_emojiZone (filter (fun x => x ≠ span) (emojiZone s)) s.

(** [emojiZone.querySelector(".emoji-particle")]: the first child with the
    class (the children hold text only). *)
Definition querySelector (cls : string) (s : State) : option nat :=
  find (fun id => has_class cls id s) (emojiZone s).

Definition on_chrome (f : Chrome -> Chrome) (s : State) : State :=
  set_chrome (f (chrome s)) s.

(** ** Display *)

Definition displayOriginal (final interim : string) (s : State) : State :=
  on_chrome (set_originalText (final, interim)) s.

Definition setStatus (text : string) (live : bool) (s : State) : State :=
  on_chrome (fun c => set_status_live live (set_statusText text c)) s.

Definition showToast (msg : string) (s : State) : State :=
  let s := on_chrome (fun c => set_toast_visible true (set_toast_text msg c)) s in
  snd (setTimeout CbToastHide 4000 s).

(** ** Translation *)

Definition targetLangs (s : State) : list string :=
  filter (fun l => l ≠ sourceLang s) ALL_LANGS.

(** One card: its text element is created, appended to the zone and
    recorded under its language.  [document.getElementById] finds the
    element just created, the zone having been emptied. *)
Definition add_card (s : State) (lang : string) : State :=
  let el := next_card s in
  let s := set_next_card (S el) (set_cards (<[el := VStr ""]> (cards s)) s) in
  let s := set_translationZone (translationZone s ++ [el]) s in
  set_translationCards (<[lang := el]> (translationCards s)) s.

Definition updateTranslationCards (s : State) : State :=
  let s := set_translationZone [] s in
  fold_left add_card (targetLangs s) s.

Definition scheduleTranslation (text : string) (s : State) : State :=
  let s := clearTimeout (translateTimer s) s in
  let '(h, s) := setTimeout (CbTranslate text) TRANSLATE_DEBOUNCE_MS s in
  set_translateTimer (Some h) s.

(** [translateAll], up to its [await]: one request per target language. *)
Definition translateAll (text : string) (s : State) : State :=
  let trimmed :=
    if (200 <? String.length text)%nat then JsString.slice_last 200 text else text in
  let b := {| bid := length (dispatched s); b_text := text; b_trimmed := trimmed;
              b_from := sourceLang s; b_targets := targetLangs s |} in
  set_dispatched (dispatched s ++ [b]) (set_inflight (inflight s ++ [b]) s).

(** The debounce callback of [scheduleTranslation]. *)
Definition translate_due (text : string) (s : State) : State :=
  if negb (JsString.eqb text "") && negb (JsString.eqb text (lastTranslatedText s))
  then translateAll text (set_lastTranslatedText text s)
  else s.

(** What [fetch] and [resp.json()] can give. *)
Inductive FetchOutcome : Type :=
| FetchRejected                     (* the request itself fails *)
| HttpError (status : Z)            (* resp.ok is false *)
| BodyInvalid                       (* resp.json() rejects *)
| Body (data : Value).

Inductive Completion (A : Type) : Type :=
| Normal (a : A)
| Throw (what : string).
Arguments Normal {A} a.
Arguments Throw {A} what.

Definition bind {A B} (c : Completion A) (k : A -> Completion B) : Completion B :=
  match c with Normal a => k a | Throw w => Throw w end.

Notation "'let!' x ':=' c 'in' k" := (bind c (fun x => k))
  (at level 10, x name, c at level 100, k at level 200).

(** A property read [v.key] for a key no prototype defines. *)
Definition get (v : Value) (key : string) : Completion Value :=
  match v with
  | VUndefined | VNull => Throw "TypeError"
  | VObj fields => Normal (match assoc key fields with Some x => x | None => VUndefined end)
  | _ => Normal VUndefined
  end.

(** [v === n] for a number [n] *)
Definition is_num (n : Z) (v : Value) : bool :=
  match v with VNum m => (m =? n)%Z | _ => false end.

(** The [try] block of [translateText], from the outcome of the request. *)
Definition translateText_try (o : FetchOutcome) : Completion Value :=
  match o with
  | FetchRejected => Throw "fetch"
  | HttpError _ => Throw "HTTP"
  | BodyInvalid => Throw "SyntaxError"
  | Body data =>
      let! st := get data "responseStatus" in
      if is_num 200 st then
        let! rd := get data "responseData" in
        if truthy rd then
          let! tt := get rd "translatedText" in
          if truthy tt then Normal tt else Normal VNull
        else Normal VNull
      else Normal VNull
  end.

(** How a promise settles. *)
Inductive Settled : Type :=
| Fulfilled (v : Value)
| Rejected (reason : string).

(** [translateText]: the [catch] turns every exception into [null]. *)
Definition translateText (o : FetchOutcome) : Settled :=
  match translateText_try o with
  | Normal v => Fulfilled v
  | Throw _ => Fulfilled VNull
  end.

(** One round of the [forEach] of [translateAll]. *)
Definition show_result (s : State) (lr : string * Settled) : State :=
  match translationCards s !! fst lr with
  | Some el =>
      match snd lr with
      | Fulfilled v => if truthy v then set_cards (<[el := v]> (cards s)) s else s
      | Rejected _ => s
      end
  | None => s
  end.

(** [translateAll] after [await Promise.allSettled(promises)]. *)
Definition translateAll_resume (b : Batch) (results : list Settled) (s : State) : State :=
  fold_left show_result (zip (b_targets b) results) s.

(** ** Emoji mapper *)

Definition removeOldestEmoji (s : State) : State :=
  match querySelector "emoji-particle" s with
  | Some first => set_emojiCount (emojiCount s - 1) (remove first s)
  | None => s
  end.

Definition addEmojiParticle (env : Env) (emoji : Value) (s : State) : State :=
  let s := if (MAX_EMOJIS <=? emojiCount s)%Z then removeOldestEmoji s else s in
  let '(span, s) := createElement s in
  let s := update_element span (with_classList (fun _ => ["emoji-particle"])) s in
  let s := update_element span (with_textContent emoji) s in
  let s := update_element span
             (with_animationDelay (animation_delay env (random_calls s))) s in
  let s := set_random_calls (S (random_calls s)) s in
  let s := appendChild span s in
  let s := set_emojiCount (emojiCount s + 1) s in
  let s := snd (setTimeout (CbFloat span) 600 s) in
  snd (setTimeout (CbFade span) EMOJI_FADE_AFTER s).

Definition addTextParticle (word : string) (s : State) : State :=
  if (MAX_EMOJIS <=? emojiCount s)%Z then s
  else
    let '(span, s) := createElement s in
    let s := update_element span
               (with_classList (fun _ => ["emoji-particle"; "text-particle"])) s in
    let s := update_element span (with_textContent (VStr word)) s in
    let s := appendChild span s in
    let s := set_emojiCount (emojiCount s + 1) s in
    snd (setTimeout (CbTextFade span) 10000 s).

(** The timer callbacks of the two functions above. *)
Definition float_due (span : nat) (s : State) : State :=
  if parentNode span s
  then update_element span (with_classList (cl_add "floating")) s
  else s.

Definition fade_due (span : nat) (s : State) : State :=
  if parentNode span s then
    let s := update_element span (with_classList (cl_remove "floating")) s in
    let s := update_element span (with_classList (cl_add "fading")) s in
    snd (setTimeout (CbRemove span) 1000 s)
  else s.

Definition text_fade_due (span : nat) (s : State) : State :=
  if parentNode span s then
    let s := update_element span (with_classList (cl_add "fading")) s in
    snd (setTimeout (CbRemove span) 1000 s)
  else s.

Definition remove_due (span : nat) (s : State) : State :=
  if parentNode span s
  then set_emojiCount (emojiCount s - 1) (remove span s)
  else s.

Definition clearEmojis (s : State) : State :=
  let s := set_emojiZone [] s in
  let s := set_emojiCount 0 s in
  let s := set_positiveScore 0 s in
  let s := set_negativeScore 0 s in
  set_emojiZone_classList
    (cl_remove "mood-negative" (cl_remove "mood-positive" (emojiZone_classList s))) s.

Definition updateMood (s : State) : State :=
  let diff := (positiveScore s - negativeScore s)%Z in
  let s := set_emojiZone_classList
             (cl_remove "mood-negative"
                (cl_remove "mood-positive" (emojiZone_classList s))) s in
  if (2 <? diff)%Z
  then set_emojiZone_classList (cl_add "mood-positive" (emojiZone_classList s)) s
  else if (diff <? -2)%Z
  then set_emojiZone_classList (cl_add "mood-negative" (emojiZone_classList s)) s
  else s.

(** [text.toLowerCase().replace(...).split(/\s+/).filter(w => w.length > 1)] *)
Definition words_of (text : string) : list string :=
  filter (fun w => 1 < String.length w)
    (JsString.split_ws (JsString.strip_punct (JsString.toLowerCase text))).

(** The keys of the dictionary that hold a space, in [Object.keys] order. *)
Definition combos (env : Env) : list string :=
  filter (fun k => JsString.includes k " " = true) (map fst (EMOJI_DICT env)).

Definition scan_combo (env : Env) (lowerText : string) (s : State) (combo : string) : State :=
  if JsString.includes lowerText combo
  then addEmojiParticle env (dict_get env combo) s
  else s.

Definition scan_word (env : Env) (s : State) (word : string) : State :=
  let s := if bool_decide (word ∈ POSITIVE_WORDS env)
           then set_positiveScore (positiveScore s + 1) s else s in
  let s := if bool_decide (word ∈ NEGATIVE_WORDS env)
           then set_negativeScore (negativeScore s + 1) s else s in
  let emoji := dict_get env word in
  if truthy emoji then addEmojiParticle env emoji s
  else if (3 <? String.length word)%nat then addTextParticle word s
  else s.

Definition processWordsForEmoji (env : Env) (text : string) (s : State) : State :=
  let words := words_of text in
  let lowerText := JsString.toLowerCase text in
  let s := fold_left (scan_combo env lowerText) (combos env) s in
  let s := fold_left (scan_word env) words s in
  updateMood s.

(** ** Speech recognition

    The recogniser is the platform's.  The model keeps whether it is
    started: [start()] throws on a started recogniser, and the end event
    marks it stopped. *)

Definition recognition_start (s : State) : Completion State :=
  if recognition_started (chrome s) then Throw "InvalidStateError"
  else Normal (on_chrome (set_recognition_started true) s).

Definition startListening (env : Env) (s : State) : State :=
  let s := set_sourceLang (langSelect s) s in
  match LANG_CONFIG_speech (sourceLang s) with
  | None => s   (* the read of [.speech] throws: the handler ends here *)
  | Some speech =>
      let s := on_chrome (set_recognition_lang speech) s in
      match recognition_start s with
      | Normal s =>
          let s := set_isListening true s in
          let s := on_chrome (fun c => set_micBtn_text "⏹" (set_micBtn_active true c)) s in
          let s := setStatus "LIVE" true s in
          updateTranslationCards s
      | Throw _ => showToast ("Mikrofon-Fehler: " ++ start_error_message env)%string s
      end
  end.

Definition stopListening (s : State) : State :=
  let s := set_isListening false s in
  let s := on_chrome (fun c => set_micBtn_text "🎤" (set_micBtn_active false c)) s in
  setStatus "Gestoppt" false s.

Definition toggleMic (env : Env) (s : State) : State :=
  if isListening s then stopListening s else startListening env s.

(** [event.results[i][0].transcript] and [event.results[i].isFinal] *)
Definition SpeechResult : Type := (string * bool)%type.

Definition concat_where (final : bool) (rs : list SpeechResult) : string :=
  fold_left (fun acc r => if Bool.eqb (snd r) final then (acc ++ fst r)%string else acc) rs "".

Definition handleResult (env : Env) (resultIndex : nat) (results : list SpeechResult)
    (s : State) : State :=
  let rs := drop resultIndex results in
  let interimTranscript := concat_where false rs in
  let newFinalText := concat_where true rs in
  let s :=
    if negb (JsString.eqb newFinalText "") then
      let s := set_finalTranscript (finalTranscript s ++ newFinalText)%string s in
      let s := processWordsForEmoji env newFinalText s in
      scheduleTranslation (finalTranscript s) s
    else s in
  displayOriginal (finalTranscript s) interimTranscript s.

Definition handleError (error : string) (s : State) : State :=
  if JsString.eqb error "not-allowed" then
    stopListening
      (showToast "Mikrofon-Zugriff verweigert. Bitte Berechtigung erteilen." s)
  else if JsString.eqb error "no-speech" then s
  else showToast ("Fehler: " ++ error)%string s.

Definition handleEnd (s : State) : State :=
  if isListening s then
    match recognition_start s with
    | Normal s => s
    | Throw _ => s
    end
  else s.

Definition handleLangChange (s : State) : State :=
  let wasListening := isListening s in
  let s := set_sourceLang (langSelect s) s in
  let s := updateTranslationCards s in
  let s := set_finalTranscript "" s in
  let s := set_lastTranslatedText "" s in
  let s := displayOriginal "" "" s in
  let s := clearEmojis s in
  if wasListening then snd (setTimeout CbRestart 200 s) else s.

(** [Object.values(translationCards).forEach(el => el.textContent = empty)] *)
Definition clear_cards (s : State) : State :=
  map_fold (fun _ el s => set_cards (<[el := VStr ""]> (cards s)) s)
    s (translationCards s).

Record KeyEvent : Type := {
  code : string;
  ctrlKey : bool;
  metaKey : bool;
  target_is_body : bool
}.

Definition keydown (env : Env) (e : KeyEvent) (s : State) : State :=
  let s := if JsString.eqb (code e) "Space" && target_is_body e
           then toggleMic env s else s in
  let s := if JsString.eqb (code e) "Escape" && isListening s
           then stopListening s else s in
  if JsString.eqb (code e) "KeyC" && negb (ctrlKey e) && negb (metaKey e)
     && target_is_body e
  then
    let s := set_finalTranscript "" s in
    let s := set_lastTranslatedText "" s in
    let s := displayOriginal "" "" s in
    let s := clearEmojis s in
    clear_cards s
  else s.

(** ** The event loop *)

Definition run_callback (env : Env) (c : Callback) (s : State) : State :=
  match c with
  | CbToastHide => on_chrome (set_toast_visible false) s
  | CbRestart => startListening env s
  | CbTranslate text => translate_due text s
  | CbFloat span => float_due span s
  | CbFade span => fade_due span s
  | CbTextFade span => text_fade_due span s
  | CbRemove span => remove_due span s
  end.

(** Timers fire in the order of their due times, and in the order of their
    creation when these are equal. *)
Definition earlier (a b : Timer) : bool :=
  ((due a <? due b) || ((due a =? due b) && (tid a <? tid b)%nat))%Z.

Fixpoint first_timer (ts : list Timer) : option Timer :=
  match ts with
  | [] => None
  | t :: r =>
      match first_timer r with
      | Some m => if earlier m t then Some m else Some t
      | None => Some t
      end
  end.

Definition next_due (limit : Z) (s : State) : option Timer :=
  first_timer (filter (fun t => (due t <= limit)%Z) (timers s)).

Definition fire (env : Env) (t : Timer) (s : State) : State :=
  let s := set_timers (filter (fun x => tid x ≠ tid t) (timers s)) s in
  let s := set_now (Z.max (now s) (due t)) s in
  run_callback env (cb t) s.

(** A bound on how many callbacks a pending timer stands for: itself and
    the one timer its callback may set. *)
Definition weight (c : Callback) : nat :=
  match c with
  | CbRestart | CbFade _ | CbTextFade _ => 2
  | _ => 1
  end.

Definition total_weight (ts : list Timer) : nat :=
  fold_right (fun t n => weight (cb t) + n) 0 ts.

Fixpoint run_timers (env : Env) (fuel : nat) (limit : Z) (s : State) : State :=
  match fuel with
  | O => s
  | S fuel =>
      match next_due limit s with
      | Some t => run_timers env fuel limit (fire env t s)
      | None => s
      end
  end.

(** [dt] milliseconds pass: every timer due by then fires. *)
Definition advance (env : Env) (dt : N) (s : State) : State :=
  let limit := (now s + Z.of_N dt)%Z in
  set_now limit (run_timers env (total_weight (timers s)) limit s).

Inductive Event : Type :=
| EvAdvance (dt : N)
| EvClickMic
| EvSelectLang (value : string)
| EvKeyDown (e : KeyEvent)
| EvResult (resultIndex : nat) (results : list SpeechResult)
| EvError (error : string)
| EvEnd
| EvSettled (batch : nat) (outcomes : list FetchOutcome).

(** The requests of a batch have all settled: [translateAll] resumes.  The
    event names a batch in flight and gives one outcome per request. *)
Definition settle (batch : nat) (outcomes : list FetchOutcome) (s : State) : State :=
  match find (fun b => bool_decide (bid b = batch)) (inflight s) with
  | Some b =>
      if bool_decide (length outcomes = length (b_targets b)) then
        let s := set_inflight (filter (fun x => bid x ≠ batch) (inflight s)) s in
        translateAll_resume b (translateText <$> outcomes) s
      else s
  | None => s
  end.

Definition step (env : Env) (s : State) (ev : Event) : State :=
  match ev with
  | EvAdvance dt => advance env dt s
  | EvClickMic => toggleMic env s
  | EvSelectLang value => handleLangChange (set_langSelect value s)
  | EvKeyDown e => keydown env e s
  | EvResult i rs => handleResult env i rs s
  | EvError error => handleError error s
  | EvEnd => handleEnd (on_chrome (set_recognition_started false) s)
  | EvSettled b os => settle b os s
  end.

Definition run (env : Env) (evs : list Event) (s : State) : State :=
  fold_left (step env) evs s.

(** The page after [init] on a browser with speech recognition: the select
    shows [lang], the emoji zone is empty. *)
Definition init (lang : string) : State :=
  let s :=
    {| now := 0; isListening := false; sourceLang := "de";
       finalTranscript := ""; lastTranslatedText := ""; translateTimer := None;
       emojiCount := 0; positiveScore := 0; negativeScore := 0;
       translationCards := ∅; langSelect := lang; emojiZone := [];
       emojiZone_classList := []; elements := ∅; next_element := 0;
       translationZone := []; cards := ∅; next_card := 0;
       chrome := {| micBtn_active := false; micBtn_text := "";
                    statusText := ""; status_live := false; toast_text := "";
                    toast_visible := false; originalText := ("", "");
                    recognition_lang := ""; recognition_started := false |};
       timers := []; next_timer := 1; random_calls := 0;
       inflight := []; dispatched := [] |} in
  setStatus "Bereit" false (updateTranslationCards s).

(** * Verification *)

(** ** Frames

    Most functions leave most of the state alone.  A view is the part of
    the state an invariant reads; a function that keeps the view keeps the
    invariant. *)

Definition pool_view (s : State) :=
  (emojiZone s, emojiCount s, elements s, next_element s).

Definition slots_view (s : State) := (translationCards s, next_card s, inflight s).

Definition timers_view (s : State) := (timers s, next_timer s, translateTimer s).

Definition log_view (s : State) :=
  (finalTranscript s, lastTranslatedText s, dispatched s, now s).

Arguments pool_view : simpl never.
Arguments slots_view : simpl never.
Arguments timers_view : simpl never.
Arguments log_view : simpl never.

Create Rewrite HintDb pool.
Create Rewrite HintDb slots.
Create Rewrite HintDb timers.
Create Rewrite HintDb log.

(** ** The particle pool *)

(** The counter is the number of children of the zone and at most the cap;
    the children are distinct spans, created earlier, of class
    [emoji-particle]. *)
Record PoolInv (s : State) : Prop := {
  inv_count : emojiCount s = Z.of_nat (length (emojiZone s));
  inv_cap : (emojiCount s <= MAX_EMOJIS)%Z;
  inv_nodup : NoDup (emojiZone s);
  inv_alloc : forall id, id ∈ emojiZone s -> id < next_element s;
  inv_class : forall id, id ∈ emojiZone s -> has_class "emoji-particle" id s = true
}.

(** What one step may do to the pool: keep the invariant, create elements,
    and attach none but the ones it creates. *)
Definition pool_step (s s' : State) : Prop :=
  (PoolInv s -> PoolInv s')
  /\ next_element s <= next_element s'
  /\ forall id, id ∈ emojiZone s' -> id ∈ emojiZone s \/ next_element s <= id.

(** The state in which [addEmojiParticle] creates its span. *)
Definition evict (s : State) : State :=
  if (MAX_EMOJIS <=? emojiCount s)%Z then removeOldestEmoji s else s.

(** A span that was created and is not, or no longer, in the zone: it was
    evicted, cleared, or removed when its time was up. *)
Definition removed (span : nat) (s : State) : Prop :=
  span < next_element s /\ parentNode span s = false.

(** The timer callbacks that hold on to the span of a particle. *)
Definition particle_callbacks (span : nat) : list Callback :=
  [CbFloat span; CbFade span; CbTextFade span; CbRemove span].

(** Spawning in [s] gave [s']: the first child went, a new one came last. *)
Definition evicts_oldest_and_adds (s s' : State) : Prop :=
  exists oldest rest new,
    emojiZone s = oldest :: rest /\ emojiZone s' = rest ++ [new] /\ new ∉ emojiZone s.

(** ** The scanner *)

(** The zone shows no mood. *)
Definition neutral (s : State) : Prop :=
  cl_contains "mood-positive" (emojiZone_classList s) = false
  /\ cl_contains "mood-negative" (emojiZone_classList s) = false.

(** ** The translation cards *)

(** The text shown in the card of a language. *)
Definition slot (lang : string) (s : State) : option Value :=
  el ← translationCards s !! lang; cards s !! el.

(** Every card element is a created one, no two languages share one, and
    the targets of a batch in flight are distinct. *)
Record SlotsInv (s : State) : Prop := {
  slots_alloc : forall l el, translationCards s !! l = Some el -> el < next_card s;
  slots_inj : forall l1 l2 el,
    translationCards s !! l1 = Some el -> translationCards s !! l2 = Some el -> l1 = l2;
  slots_targets : forall b, b ∈ inflight s -> NoDup (b_targets b)
}.

Definition slots_step (s s' : State) : Prop := SlotsInv s -> SlotsInv s'.

(** What the service answered, read as the code reads it: a body with
    status 200 whose [responseData] holds a truthy [translatedText]. *)
Definition translated (o : FetchOutcome) : option Value :=
  match o with
  | Body (VObj fields) =>
      match assoc "responseStatus" fields, assoc "responseData" fields with
      | Some (VNum status), Some (VObj data) =>
          match assoc "translatedText" data with
          | Some v => if (status =? 200)%Z && truthy v then Some v else None
          | None => None
          end
      | _, _ => None
      end
  | _ => None
  end.

(** What a card shows after its result has been handled. *)
Definition shown (r : Settled) (old : option Value) : option Value :=
  match r with
  | Fulfilled v => if truthy v then Some v else old
  | Rejected _ => old
  end.

(** The batch of number [n] is in flight. *)
Definition in_flight (n : nat) (s : State) : option Batch :=
  find (fun b => bool_decide (bid b = n)) (inflight s).

(** ** The debounce timer *)

Definition is_translate (c : Callback) : bool :=
  match c with CbTranslate _ => true | _ => false end.

(** Pending timers have distinct handles, all handed out already, and a
    pending debounce timer is the one [translateTimer] names. *)
Record TimerInv (s : State) : Prop := {
  timers_nodup : NoDup (tid <$> timers s);
  timers_alloc : forall t, t ∈ timers s -> tid t < next_timer s;
  timers_handle : forall t, t ∈ timers s -> is_translate (cb t) = true ->
                  translateTimer s = Some (tid t)
}.

(** From [s] to [s'] timers were set, none of them the debounce timer, and
    none was cleared. *)
Definition adds_timers (s s' : State) : Prop :=
  translateTimer s' = translateTimer s
  /\ exists new,
       timers s' = timers s ++ new
       /\ tid <$> new = seq (next_timer s) (length new)
       /\ next_timer s' = next_timer s + length new
       /\ Forall (fun t => is_translate (cb t) = false) new.

(** A finalized-text update: the index and the results of a result event
    whose final text is not empty. *)
Definition Update : Type := (nat * list SpeechResult)%type.

Definition final_text (u : Update) : string :=
  concat_where true (drop (fst u) (snd u)).

Definition ev_update (u : Update) : Event := EvResult (fst u) (snd u).

(** A burst: a first update and further ones, each after a gap. *)
Definition burst (first : Update) (rest : list (N * Update)) : list Event :=
  ev_update first
  :: flat_map (fun gu => [EvAdvance (fst gu); ev_update (snd gu)]) rest.

(** Every update carries final text and comes before the debounce delay
    since the one before is over. *)
Definition within_window (first : Update) (rest : list (N * Update)) : Prop :=
  final_text first <> ""
  /\ Forall (fun gu => (Z.of_N (fst gu) < TRANSLATE_DEBOUNCE_MS)%Z
                       /\ final_text (snd gu) <> "") rest.

(** The debounce timer for [text] is pending, due at [d], and it is the
    only debounce timer pending. *)
Definition pending (text : string) (d : Z) (s : State) : Prop :=
  exists t, t ∈ timers s /\ cb t = CbTranslate text /\ due t = d
            /\ forall t', t' ∈ timers s -> is_translate (cb t') = true -> t' = t.

(** No debounce timer is pending. *)
Definition idle (s : State) : Prop :=
  forall t, t ∈ timers s -> is_translate (cb t) = false.

(** What the dispatcher has read and sent. *)
Definition journal (s : State) :=
  (finalTranscript s, lastTranslatedText s, dispatched s).

(** From [s] to [s'] the debounce callback for [text] has run, once, and
    nothing else has touched the journal. *)
Definition fired (text : string) (s s' : State) : Prop :=
  finalTranscript s' = finalTranscript s
  /\ if bool_decide (text <> "" /\ text <> lastTranslatedText s)
     then lastTranslatedText s' = text
          /\ exists b, dispatched s' = dispatched s ++ [b] /\ b_text b = text
     else lastTranslatedText s' = lastTranslatedText s
          /\ dispatched s' = dispatched s.

(** The transcript after the updates [us], from the one [s] holds. *)
Definition grown (s : State) (us : list Update) : string :=
  fold_left (fun acc u => (acc ++ final_text u)%string) us (finalTranscript s).

(** ** Sample inputs *)

Definition demo_env : Env :=
  {| EMOJI_DICT := [("liebe", "<3"); ("ja", "+"); ("geld regen", "$")];
     POSITIVE_WORDS := {["liebe"; "gut"; "ja"]};
     NEGATIVE_WORDS := {["hass"; "nie"]};
     animation_delay := fun _ => "0.10s";
     start_error_message := "recognition has already started" |}.

Definition key (c : string) : KeyEvent :=
  {| code := c; ctrlKey := false; metaKey := false; target_is_body := true |}.

Definition said (text : string) : Event := EvResult 0 [(text, true)].

(** Forty words of the dictionary in one final result: the pool is full. *)
Definition forty_words : string := String.concat " " (repeat "ja" 40).

Definition full_pool : State := run demo_env [said forty_words] (init "de").

(** A well-formed answer of the translation service. *)
Definition answer (text : string) : FetchOutcome :=
  Body (VObj [("responseStatus", VNum 200);
              ("responseData", VObj [("translatedText", VStr text)])]).

(** Sample bursts. *)
Definition one_word : Update := (0, [("hallo", true)]).
Definition more_words : Update := (1, [("hallo", true); (" welt", true); (" wie", false)]).

(** ** Further properties: definitions *)

(** The debounce timers that are pending. *)
Definition debounce_timers (s : State) : list Timer :=
  filter (fun t => is_translate (cb t) = true) (timers s).

(** The code units of a string. *)
Definition units (s : string) : list ascii := list_ascii_of_string s.

(** A code unit a token can hold: no white space, none of the stripped
    punctuation marks, and not changed by [toLowerCase]. *)
Definition token_unit (c : ascii) : Prop :=
  JsString.is_space c = false /\ JsString.is_punct c = false
  /\ JsString.lower_char c = c.

(** ** What the page shows *)

(** The mood class of the zone is the one the scores call for, and no
    score is negative. *)
Definition MoodInv (s : State) : Prop :=
  cl_contains "mood-positive" (emojiZone_classList s)
  = (2 <? positiveScore s - negativeScore s)%Z
  /\ cl_contains "mood-negative" (emojiZone_classList s)
     = (positiveScore s - negativeScore s <? -2)%Z
  /\ (0 <= positiveScore s)%Z /\ (0 <= negativeScore s)%Z.

(** The microphone button and the status line tell whether the page
    listens, and while it listens the recogniser is started. *)
Definition UiInv (s : State) : Prop :=
  micBtn_active (chrome s) = isListening s
  /\ status_live (chrome s) = isListening s
  /\ (isListening s = true -> recognition_started (chrome s) = true).

(** The final text on display is the transcript. *)
Definition ShownInv (s : State) : Prop :=
  fst (originalText (chrome s)) = finalTranscript s.

(** A batch as [translateAll] sends it. *)
Definition well_sent (b : Batch) : Prop :=
  b_text b <> ""
  /\ String.length (b_trimmed b) = Nat.min (String.length (b_text b)) 200
  /\ (exists front, b_text b = (front ++ b_trimmed b)%string)
  /\ forall l, l ∈ b_targets b <-> l ∈ ALL_LANGS /\ l <> b_from b.

Definition SentInv (s : State) : Prop := Forall well_sent (dispatched s).

Definition PageInv (s : State) : Prop :=
  MoodInv s /\ UiInv s /\ ShownInv s /\ SentInv s.

Definition page_view (s : State) :=
  (positiveScore s, negativeScore s, emojiZone_classList s, isListening s,
   micBtn_active (chrome s), status_live (chrome s), finalTranscript s,
   originalText (chrome s), dispatched s, recognition_started (chrome s)).

Arguments page_view : simpl never.

Create Rewrite HintDb page.

(** What a scan leaves alone of what the page shows. *)
Definition calm_view (s : State) :=
  (isListening s, chrome s, finalTranscript s, dispatched s).

Arguments calm_view : simpl never.

(** ** The translation cards *)

(** The translation zone lists one card for each of [langs], in this
    order; each card is recorded under its language and shows no text. *)
Definition blank_cards (langs : list string) (s : State) : Prop :=
  Forall2 (fun l el => translationCards s !! l = Some el
                       /\ cards s !! el = Some (VStr ""))
    langs (translationZone s).

(** ** The order of the particles *)

(** Every number is less than the ones after it. *)
Fixpoint ascending (l : list nat) : Prop :=
  match l with
  | [] => True
  | x :: r => Forall (lt x) r /\ ascending r
  end.

(** The children of the zone are in the order of their creation, and all
    were created already. *)
Definition Ordered (s : State) : Prop :=
  ascending (emojiZone s) /\ Forall (fun id => id < next_element s) (emojiZone s).

Definition order_step (s s' : State) : Prop := Ordered s -> Ordered s'.

(** ** The life of a particle *)

(** The span a timer callback fades, or removes. *)
Definition fades (c : Callback) : option nat :=
  match c with CbFade span | CbTextFade span => Some span | _ => None end.

Definition removes (c : Callback) : option nat :=
  match c with CbRemove span => Some span | _ => None end.

(** The timer [t] is part of the way out of [span], and in time for it
    to be out [EMOJI_FADE_AFTER + 1000] ms after [T]. *)
Definition takes_out (T : Z) (span : nat) (t : Timer) : Prop :=
  (fades (cb t) = Some span /\ (due t <= T + EMOJI_FADE_AFTER)%Z)
  \/ (removes (cb t) = Some span /\ (due t <= T + EMOJI_FADE_AFTER + 1000)%Z).

(** Every child of the zone among [P] has such a timer pending. *)
Definition Covered (P : nat -> Prop) (T : Z) (s : State) : Prop :=
  forall span, span ∈ emojiZone s -> P span ->
  exists t, t ∈ timers s /\ takes_out T span t.

(** No pending timer is overdue; between two events none is due. *)
Definition Timely (strict : bool) (s : State) : Prop :=
  forall t, t ∈ timers s ->
  if strict then (now s < due t)%Z else (now s <= due t)%Z.

(** The handle in [translateTimer] was given out, and to a debounce
    timer. *)
Definition Handle (s : State) : Prop :=
  forall h, translateTimer s = Some h ->
  h < next_timer s
  /\ forall t, t ∈ timers s -> tid t = h -> is_translate (cb t) = true.

Definition Tidy (strict : bool) (P : nat -> Prop) (T : Z) (s : State) : Prop :=
  Timely strict s /\ Handle s /\ Covered P T s.

(** A particle created now is covered: the time is [T] at most, or no
    span to come is among [P]. *)
Definition Side (P : nat -> Prop) (T : Z) (s : State) : Prop :=
  (now s <= T)%Z \/ forall id, next_element s <= id -> ~ P id.

(** From [s] to [s'] no time passed and no timer was cleared; the timers
    set are due later, and every new child of the zone among [P] is
    covered. *)
Definition keeps (P : nat -> Prop) (T : Z) (s s' : State) : Prop :=
  now s' = now s
  /\ next_element s <= next_element s'
  /\ (forall t, t ∈ timers s -> t ∈ timers s')
  /\ (forall t, t ∈ timers s' -> t ∈ timers s \/ (now s < due t)%Z)
  /\ (forall span, span ∈ emojiZone s' -> P span ->
        span ∈ emojiZone s \/ exists t, t ∈ timers s' /\ takes_out T span t).

(** The time that passes in a list of events. *)
Definition elapsed (evs : list Event) : Z :=
  fold_right (fun ev n => match ev with EvAdvance dt => (Z.of_N dt + n)%Z | _ => n end)
    0%Z evs.

(** ** What a scan finds *)

(** The phrases of the dictionary the text holds, the tokens with an entry
    in the dictionary, and the other tokens of more than three code units;
    each as often as it comes. *)
Definition phrase_hits (env : Env) (text : string) : list string :=
  filter (fun c => JsString.includes (JsString.toLowerCase text) c = true) (combos env).

Definition word_hits (env : Env) (text : string) : list string :=
  filter (fun w => truthy (dict_get env w) = true) (words_of text).

Definition plain_words (env : Env) (text : string) : list string :=
  filter (fun w => truthy (dict_get env w) = false /\ 3 < String.length w)
    (words_of text).

(** ** Frame lemmas *)

Lemma fold_left_view {A V : Type} (view : State -> V) (f : State -> A -> State) l :
  (forall s a, view (f s a) = view s) -> forall s, view (fold_left f l s) = view s.
Proof.
  intros Hf. induction l as [|a l IH]; intros s; simpl; [done|].
  by rewrite IH, Hf.
Qed.

Ltac unfold_ops :=
  unfold showToast, setStatus, displayOriginal, stopListening, scheduleTranslation,
    translateAll, translate_due, show_result, add_card, on_chrome, setTimeout,
    clearTimeout, recognition_start, handleEnd, handleError, toggleMic,
    startListening, updateMood in *.

(** Rewrite with the frame lemmas, looking through field updates. *)
Ltac peel view :=
  repeat first
    [ progress autorewrite with pool slots timers log
    | match goal with
      | |- context [view (?f ?s)] => progress change (view (f s)) with (view s)
      end ].

(** A function built from field updates and functions with frame lemmas. *)
Ltac frame :=
  intros; repeat progress unfold_ops; repeat case_match; simplify_eq/=;
  autorewrite with pool slots timers log; try reflexivity.

(** *** What keeps the particle pool *)

Lemma showToast_pool msg s : pool_view (showToast msg s) = pool_view s.
Proof. frame. Qed.
Lemma showToast_slots msg s : slots_view (showToast msg s) = slots_view s.
Proof. frame. Qed.
#[local] Hint Rewrite showToast_pool : pool.
#[local] Hint Rewrite showToast_slots : slots.
Lemma setStatus_pool t l s : pool_view (setStatus t l s) = pool_view s.
Proof. frame. Qed.
Lemma displayOriginal_pool f i s : pool_view (displayOriginal f i s) = pool_view s.
Proof. frame. Qed.
Lemma updateTranslationCards_pool s :
  pool_view (updateTranslationCards s) = pool_view s.
Proof. unfold updateTranslationCards. rewrite fold_left_view; [done|]. frame. Qed.
Lemma scheduleTranslation_pool t s : pool_view (scheduleTranslation t s) = pool_view s.
Proof. frame. Qed.
Lemma translate_due_pool t s : pool_view (translate_due t s) = pool_view s.
Proof. frame. Qed.
Lemma stopListening_pool s : pool_view (stopListening s) = pool_view s.
Proof. frame. Qed.
#[local] Hint Rewrite setStatus_pool displayOriginal_pool
  updateTranslationCards_pool scheduleTranslation_pool translate_due_pool
  stopListening_pool : pool.
Lemma startListening_pool env s : pool_view (startListening env s) = pool_view s.
Proof. frame. Qed.
#[local] Hint Rewrite startListening_pool : pool.
Lemma toggleMic_pool env s : pool_view (toggleMic env s) = pool_view s.
Proof. unfold toggleMic. case_match; by autorewrite with pool. Qed.
Lemma handleError_pool e s : pool_view (handleError e s) = pool_view s.
Proof. unfold handleError. repeat case_match; by autorewrite with pool. Qed.
Lemma handleEnd_pool s : pool_view (handleEnd s) = pool_view s.
Proof. frame. Qed.
Lemma translateAll_resume_pool b rs s :
  pool_view (translateAll_resume b rs s) = pool_view s.
Proof. unfold translateAll_resume. rewrite fold_left_view; [done|]. frame. Qed.
Lemma settle_pool b os s : pool_view (settle b os s) = pool_view s.
Proof.
  unfold settle. repeat case_match; try done.
  by rewrite translateAll_resume_pool.
Qed.
Lemma clear_cards_pool s : pool_view (clear_cards s) = pool_view s.
Proof.
  unfold clear_cards. generalize (translationCards s). intros m.
  induction m as [|l el m Hl Hfold IH] using map_first_key_ind.
  - by rewrite map_fold_empty.
  - rewrite map_fold_insert_first_key by done. by rewrite <- IH.
Qed.
#[local] Hint Rewrite toggleMic_pool handleError_pool handleEnd_pool
  translateAll_resume_pool settle_pool clear_cards_pool : pool.

(** ** The particle pool *)

Lemma pool_step_refl s : pool_step s s.
Proof. split; [done|]. split; [done|]. intros; by left. Qed.

Lemma pool_step_trans s1 s2 s3 : pool_step s1 s2 -> pool_step s2 s3 -> pool_step s1 s3.
Proof.
  intros (I1 & N1 & Z1) (I2 & N2 & Z2). split; [auto|]. split; [lia|].
  intros id Hid. destruct (Z2 id Hid) as [H|H]; [|right; lia].
  destruct (Z1 id H); [by left | right; lia].
Qed.

Lemma pool_step_view s s' : pool_view s' = pool_view s -> pool_step s s'.
Proof.
  unfold pool_view. intros [= Hz Hc He Hn]. split; [|split].
  - intros [? ? ? ? Hcl]. constructor; rewrite ?Hz, ?Hc, ?Hn; try done.
    intros id Hid. specialize (Hcl id Hid). unfold has_class in *. by rewrite He.
  - lia.
  - intros id. rewrite Hz. by left.
Qed.

Lemma pool_step_fold {A} (f : State -> A -> State) l :
  (forall s a, pool_step s (f s a)) -> forall s, pool_step s (fold_left f l s).
Proof.
  intros Hf. induction l as [|a l IH]; intros s; simpl; [apply pool_step_refl|].
  eapply pool_step_trans; [apply Hf | apply IH].
Qed.

Lemma cl_contains_true c cl : cl_contains c cl = true <-> c ∈ cl.
Proof.
  unfold cl_contains. rewrite existsb_exists. split.
  - intros (x & Hx & Heq). apply bool_decide_eq_true in Heq. subst.
    by apply list_elem_of_In.
  - intros H. exists c. split; [by apply list_elem_of_In | by apply bool_decide_eq_true].
Qed.

Lemma cl_add_keeps c d cl : cl_contains c cl = true -> cl_contains c (cl_add d cl) = true.
Proof.
  rewrite !cl_contains_true. unfold cl_add. case_match; [done|]. set_solver.
Qed.

Lemma cl_remove_keeps c d cl :
  c <> d -> cl_contains c cl = true -> cl_contains c (cl_remove d cl) = true.
Proof.
  rewrite !cl_contains_true. unfold cl_remove. intros Hne Hc.
  apply list_elem_of_filter. done.
Qed.

Lemma has_class_update c id id' f s :
  (forall e, cl_contains c (classList e) = true -> cl_contains c (classList (f e)) = true) ->
  has_class c id s = true -> has_class c id (update_element id' f s) = true.
Proof.
  intros Hf. unfold has_class, update_element. simpl.
  destruct (decide (id' = id)) as [->|Hne].
  - rewrite lookup_alter_eq. destruct (elements s !! id); simpl; [apply Hf | done].
  - by rewrite lookup_alter_ne.
Qed.

(** Under the invariant the selector finds the first child. *)
Lemma querySelector_head s :
  PoolInv s -> querySelector "emoji-particle" s = head (emojiZone s).
Proof.
  intros I. unfold querySelector. destruct (emojiZone s) as [|x r] eqn:E; [done|].
  simpl. rewrite (inv_class s I x); [done|]. rewrite E. by left.
Qed.

Lemma filter_all {A} (P : A -> Prop) `{forall x, Decision (P x)} (l : list A) :
  Forall P l -> filter P l = l.
Proof.
  induction 1 as [|x l Hx _ IH]; [done|]. by rewrite filter_cons_True, IH.
Qed.

Lemma filter_ne_absent (x : nat) (l : list nat) : x ∉ l -> filter (fun y => y <> x) l = l.
Proof. intros Hx. apply filter_all, Forall_forall. intros y Hy ->. done. Qed.

Lemma filter_ne_head (x : nat) (r : list nat) : NoDup (x :: r) -> filter (fun y => y <> x) (x :: r) = r.
Proof.
  intros [Hx _]%NoDup_cons. rewrite filter_cons_False by (intros ?; done).
  by apply filter_ne_absent.
Qed.

Lemma removeOldestEmoji_cons s x r :
  PoolInv s -> emojiZone s = x :: r ->
  removeOldestEmoji s = set_emojiCount (emojiCount s - 1) (set_emojiZone r s).
Proof.
  intros I E. unfold removeOldestEmoji. rewrite querySelector_head, E by done. simpl.
  unfold remove. rewrite E, filter_ne_head; [done|]. rewrite <- E. apply I.
Qed.

Lemma PoolInv_spawn s s' :
  PoolInv s -> (emojiCount s < MAX_EMOJIS)%Z ->
  emojiZone s' = emojiZone s ++ [next_element s] ->
  emojiCount s' = (emojiCount s + 1)%Z ->
  next_element s' = S (next_element s) ->
  (forall id, id <> next_element s -> elements s' !! id = elements s !! id) ->
  has_class "emoji-particle" (next_element s) s' = true ->
  PoolInv s'.
Proof.
  intros [Hc Hcap Hnd Hal Hcl] Hlt Hz Hn Hne Hold Hnew.
  assert (Hfresh : next_element s ∉ emojiZone s) by (intros H%Hal; lia).
  constructor.
  - rewrite Hz, Hn, Hc, length_app. simpl. lia.
  - lia.
  - rewrite Hz. apply NoDup_app. split; [done|]. split; [|apply NoDup_singleton].
    intros x Hx ->%list_elem_of_singleton. done.
  - intros id. rewrite Hz, Hne, elem_of_app, list_elem_of_singleton.
    intros [H%Hal| ->]; lia.
  - intros id. rewrite Hz, elem_of_app, list_elem_of_singleton. intros [H| ->]; [|done].
    specialize (Hcl id H). unfold has_class in *. rewrite Hold; [done|].
    intros ->. done.
Qed.

Lemma PoolInv_evict s :
  PoolInv s -> (MAX_EMOJIS <= emojiCount s)%Z ->
  exists x r, emojiZone s = x :: r
    /\ removeOldestEmoji s = set_emojiCount (emojiCount s - 1) (set_emojiZone r s)
    /\ PoolInv (removeOldestEmoji s).
Proof.
  intros I Hge. destruct (emojiZone s) as [|x r] eqn:E.
  - pose proof (inv_count s I) as Hc. rewrite E in Hc. simpl in Hc.
    unfold MAX_EMOJIS in Hge. lia.
  - exists x, r. split; [done|]. pose proof (removeOldestEmoji_cons s x r I E) as ->.
    split; [done|]. destruct I as [Hc Hcap Hnd Hal Hcl]. rewrite E in *.
    apply NoDup_cons in Hnd as [Hx Hnd].
    constructor; simpl.
    + rewrite Hc. simpl length. lia.
    + lia.
    + done.
    + intros id Hid. apply Hal. by right.
    + intros id Hid. apply (Hcl id). by right.
Qed.

Lemma removeOldestEmoji_next s : next_element (removeOldestEmoji s) = next_element s.
Proof. unfold removeOldestEmoji. by case_match. Qed.

Lemma removeOldestEmoji_sub s id :
  id ∈ emojiZone (removeOldestEmoji s) -> id ∈ emojiZone s.
Proof.
  unfold removeOldestEmoji. case_match; [|done]. simpl.
  by intros [_ ?]%list_elem_of_filter.
Qed.

Lemma evict_pool_step s : pool_step s (evict s).
Proof.
  unfold evict. case_match eqn:E; [|apply pool_step_refl].
  apply Z.leb_le in E. split; [|split].
  - intros I. by destruct (PoolInv_evict s I E) as (? & ? & _ & _ & ?).
  - by rewrite removeOldestEmoji_next.
  - intros id H. left. by apply removeOldestEmoji_sub.
Qed.

Lemma evict_room s : PoolInv s -> (emojiCount (evict s) < MAX_EMOJIS)%Z.
Proof.
  intros I. unfold evict. case_match eqn:E.
  - apply Z.leb_le in E. destruct (PoolInv_evict s I E) as (x & r & _ & -> & _).
    simpl. pose proof (inv_cap s I). lia.
  - by apply Z.leb_gt in E.
Qed.

Lemma evict_next s : next_element (evict s) = next_element s.
Proof. unfold evict. case_match; [apply removeOldestEmoji_next | done]. Qed.

Lemma addEmojiParticle_zone env v s :
  emojiZone (addEmojiParticle env v s) = emojiZone (evict s) ++ [next_element s].
Proof. rewrite <- (evict_next s). reflexivity. Qed.

Lemma addEmojiParticle_count env v s :
  emojiCount (addEmojiParticle env v s) = (emojiCount (evict s) + 1)%Z.
Proof. reflexivity. Qed.

Lemma addEmojiParticle_next env v s :
  next_element (addEmojiParticle env v s) = S (next_element s).
Proof. rewrite <- (evict_next s). reflexivity. Qed.

Lemma addEmojiParticle_pool_step env v s : pool_step s (addEmojiParticle env v s).
Proof.
  destruct (evict_pool_step s) as (Ie & _ & Ze). split; [|split].
  - intros I. apply (PoolInv_spawn (evict s)).
    + by apply Ie.
    + by apply evict_room.
    + rewrite evict_next. apply addEmojiParticle_zone.
    + apply addEmojiParticle_count.
    + rewrite evict_next. apply addEmojiParticle_next.
    + intros id Hid. unfold addEmojiParticle. fold (evict s). simpl.
      by rewrite !lookup_alter_ne, lookup_insert_ne.
    + unfold has_class, addEmojiParticle. fold (evict s). simpl.
      by rewrite !lookup_alter_eq, lookup_insert_eq.
  - rewrite addEmojiParticle_next. lia.
  - intros id. rewrite addEmojiParticle_zone.
    rewrite elem_of_app, list_elem_of_singleton. intros [?| ->]; [by apply Ze | by right].
Qed.

Lemma addTextParticle_pool_step w s : pool_step s (addTextParticle w s).
Proof.
  unfold addTextParticle. case_match eqn:E; [apply pool_step_refl|].
  apply Z.leb_gt in E. split; [|split].
  - intros I. eapply PoolInv_spawn; try done.
    + intros id Hid. simpl. by rewrite !lookup_alter_ne, lookup_insert_ne.
    + unfold has_class. simpl. by rewrite !lookup_alter_eq, lookup_insert_eq.
  - simpl. lia.
  - intros id. simpl.
    rewrite elem_of_app, list_elem_of_singleton. intros [?| ->]; [by left | by right].
Qed.

Lemma PoolInv_classes s id f :
  (forall e, cl_contains "emoji-particle" (classList e) = true ->
             cl_contains "emoji-particle" (classList (f e)) = true) ->
  PoolInv s -> PoolInv (update_element id f s).
Proof.
  intros Hf [Hc Hcap Hnd Hal Hcl]. constructor; try done.
  intros x Hx. apply has_class_update; [done|]. by apply Hcl.
Qed.

Lemma update_element_pool_step s id f :
  (forall e, cl_contains "emoji-particle" (classList e) = true ->
             cl_contains "emoji-particle" (classList (f e)) = true) ->
  pool_step s (update_element id f s).
Proof.
  intros Hf. split; [by apply PoolInv_classes|]. split; [done|]. intros; by left.
Qed.

Lemma setTimeout_pool c d s : pool_view (snd (setTimeout c d s)) = pool_view s.
Proof. reflexivity. Qed.

Lemma float_due_pool_step span s : pool_step s (float_due span s).
Proof.
  unfold float_due. case_match; [|apply pool_step_refl].
  apply update_element_pool_step. intros e. apply cl_add_keeps.
Qed.

Lemma fade_due_pool_step span s : pool_step s (fade_due span s).
Proof.
  unfold fade_due. case_match; [|apply pool_step_refl].
  eapply pool_step_trans; [|apply pool_step_view, setTimeout_pool].
  eapply pool_step_trans; apply update_element_pool_step; intros e.
  - by apply cl_remove_keeps.
  - apply cl_add_keeps.
Qed.

Lemma text_fade_due_pool_step span s : pool_step s (text_fade_due span s).
Proof.
  unfold text_fade_due. case_match; [|apply pool_step_refl].
  eapply pool_step_trans; [|apply pool_step_view, setTimeout_pool].
  apply update_element_pool_step. intros e. apply cl_add_keeps.
Qed.

Lemma length_filter_ne (x : nat) (l : list nat) :
  NoDup l -> x ∈ l -> S (length (filter (fun y => y <> x) l)) = length l.
Proof.
  induction 1 as [|y l Hy Hnd IH]; [by intros ?%elem_of_nil|].
  intros [->|Hx]%elem_of_cons.
  - by rewrite filter_ne_head by (by constructor).
  - rewrite filter_cons_True by (intros ->; done). simpl. by rewrite IH.
Qed.

Lemma remove_due_pool_step span s : pool_step s (remove_due span s).
Proof.
  unfold remove_due, parentNode. case_bool_decide as Hin; [|apply pool_step_refl].
  split; [|split]; simpl; [|done|].
  - intros [Hc Hcap Hnd Hal Hcl]. constructor; simpl.
    + pose proof (length_filter_ne span _ Hnd Hin). lia.
    + lia.
    + by apply NoDup_filter.
    + intros id [_ ?]%list_elem_of_filter. by apply Hal.
    + intros id [_ ?]%list_elem_of_filter. by apply (Hcl id).
  - intros id [_ ?]%list_elem_of_filter. by left.
Qed.

Lemma clearEmojis_pool_step s : pool_step s (clearEmojis s).
Proof.
  split; [|split]; simpl; [|done|].
  - intros _. constructor; simpl; try done.
    + apply NoDup_nil_2.
    + intros id ?%elem_of_nil. done.
    + intros id ?%elem_of_nil. done.
  - intros id ?%elem_of_nil. done.
Qed.

Lemma updateMood_pool s : pool_view (updateMood s) = pool_view s.
Proof. frame. Qed.

Lemma scan_word_pool_step env s w : pool_step s (scan_word env s w).
Proof.
  unfold scan_word.
  set (s1 := if bool_decide (w ∈ POSITIVE_WORDS env) then _ else s).
  set (s2 := if bool_decide (w ∈ NEGATIVE_WORDS env) then _ else s1).
  assert (pool_view s2 = pool_view s) as Hv.
  { subst s2 s1. by repeat case_match. }
  clearbody s2. clear s1.
  eapply pool_step_trans; [apply pool_step_view, Hv|].
  repeat case_match.
  - apply addEmojiParticle_pool_step.
  - apply addTextParticle_pool_step.
  - apply pool_step_refl.
Qed.

Lemma scan_combo_pool_step env lt s c : pool_step s (scan_combo env lt s c).
Proof.
  unfold scan_combo. case_match; [apply addEmojiParticle_pool_step | apply pool_step_refl].
Qed.

Lemma processWordsForEmoji_pool_step env text s :
  pool_step s (processWordsForEmoji env text s).
Proof.
  unfold processWordsForEmoji.
  eapply pool_step_trans; [|apply pool_step_view, updateMood_pool].
  eapply pool_step_trans;
    [|apply pool_step_fold; intros; apply scan_word_pool_step].
  apply pool_step_fold; intros; apply scan_combo_pool_step.
Qed.

Lemma handleResult_pool_step env i rs s : pool_step s (handleResult env i rs s).
Proof.
  unfold handleResult.
  eapply pool_step_trans; [|apply pool_step_view, displayOriginal_pool].
  case_match; [|apply pool_step_refl].
  eapply pool_step_trans; [|apply pool_step_view, scheduleTranslation_pool].
  eapply pool_step_trans; [|apply processWordsForEmoji_pool_step].
  apply pool_step_view; by peel pool_view.
Qed.

Lemma handleLangChange_pool_step s : pool_step s (handleLangChange s).
Proof.
  unfold handleLangChange.
  set (s1 := clearEmojis _).
  assert (pool_step s s1) as H.
  { subst s1. eapply pool_step_trans; [|apply clearEmojis_pool_step].
    apply pool_step_view. by peel pool_view. }
  clearbody s1. case_match; [|done].
  eapply pool_step_trans; [apply H|]. apply pool_step_view, setTimeout_pool.
Qed.

Lemma keydown_pool_step env e s : pool_step s (keydown env e s).
Proof.
  unfold keydown.
  set (s1 := if _ && _ then toggleMic env s else s).
  set (s2 := if _ && isListening s1 then _ else s1).
  assert (pool_view s2 = pool_view s) as Hv.
  { subst s2 s1. repeat case_match; by peel pool_view. }
  clearbody s2. clear s1.
  eapply pool_step_trans; [apply pool_step_view, Hv|].
  case_match; [|apply pool_step_refl].
  eapply pool_step_trans; [|apply pool_step_view, clear_cards_pool].
  eapply pool_step_trans; [|apply clearEmojis_pool_step].
  apply pool_step_view; by peel pool_view.
Qed.

Lemma run_callback_pool_step env c s : pool_step s (run_callback env c s).
Proof.
  destruct c; simpl.
  - apply pool_step_view; by peel pool_view.
  - apply pool_step_view, startListening_pool.
  - apply pool_step_view, translate_due_pool.
  - apply float_due_pool_step.
  - apply fade_due_pool_step.
  - apply text_fade_due_pool_step.
  - apply remove_due_pool_step.
Qed.

Lemma fire_pool_step env t s : pool_step s (fire env t s).
Proof.
  unfold fire. eapply pool_step_trans; [|apply run_callback_pool_step].
  apply pool_step_view; by peel pool_view.
Qed.

Lemma run_timers_pool_step env fuel limit s : pool_step s (run_timers env fuel limit s).
Proof.
  revert s. induction fuel as [|fuel IH]; intros s; simpl; [apply pool_step_refl|].
  case_match; [|apply pool_step_refl].
  eapply pool_step_trans; [apply fire_pool_step | apply IH].
Qed.

Lemma advance_pool_step env dt s : pool_step s (advance env dt s).
Proof.
  unfold advance. eapply pool_step_trans; [apply run_timers_pool_step|].
  apply pool_step_view; by peel pool_view.
Qed.

Lemma step_pool_step env s ev : pool_step s (step env s ev).
Proof.
  destruct ev; simpl.
  - apply advance_pool_step.
  - apply pool_step_view, toggleMic_pool.
  - eapply pool_step_trans; [|apply handleLangChange_pool_step]. apply pool_step_view; by peel pool_view.
  - apply keydown_pool_step.
  - apply handleResult_pool_step.
  - apply pool_step_view, handleError_pool.
  - apply pool_step_view. by rewrite handleEnd_pool.
  - apply pool_step_view, settle_pool.
Qed.

Lemma run_pool_step env evs s : pool_step s (run env evs s).
Proof. apply pool_step_fold. intros. apply step_pool_step. Qed.

Lemma PoolInv_init lang : PoolInv (init lang).
Proof.
  unfold init.
  match goal with |- PoolInv (setStatus _ _ (updateTranslationCards ?x)) => set (s0 := x) end.
  assert (PoolInv s0) as I0.
  { constructor; simpl; try done.
    - apply NoDup_nil_2.
    - intros id ?%elem_of_nil. done.
    - intros id ?%elem_of_nil. done. }
  clearbody s0. revert I0. apply pool_step_view. by peel pool_view.
Qed.

Lemma PoolInv_run env lang evs : PoolInv (run env evs (init lang)).
Proof. apply run_pool_step, PoolInv_init. Qed.

(** ** Properties of the particle pool *)

(** C2.  Whatever the page has been through -- results spawning emoji and
    text particles, timers firing, evictions, clears -- the particle counter
    and the number of particles in the zone are at most 40. *)
Theorem particle_count_never_exceeds_cap env lang evs :
  (emojiCount (run env evs (init lang)) <= 40)%Z
  /\ length (emojiZone (run env evs (init lang))) <= 40.
Proof.
  destruct (PoolInv_run env lang evs) as [Hc Hcap _ _ _].
  unfold MAX_EMOJIS in Hcap. split; lia.
Qed.

(** C9.  In every state the page can reach, [emojiCount] is the number of
    particle elements in the emoji zone. *)
Theorem counter_matches_zone env lang evs :
  emojiCount (run env evs (init lang))
  = Z.of_nat (length (emojiZone (run env evs (init lang)))).
Proof. apply PoolInv_run. Qed.

Lemma addTextParticle_at_cap w s :
  (MAX_EMOJIS <= emojiCount s)%Z -> addTextParticle w s = s.
Proof. intros H%Z.leb_le. unfold addTextParticle. by rewrite H. Qed.

Lemma addEmojiParticle_at_cap env v s :
  PoolInv s -> (MAX_EMOJIS <= emojiCount s)%Z ->
  evicts_oldest_and_adds s (addEmojiParticle env v s).
Proof.
  intros I Hge. destruct (PoolInv_evict s I Hge) as (x & r & Hz & Hev & _).
  exists x, r, (next_element s). split; [done|]. split.
  - rewrite addEmojiParticle_zone. unfold evict.
    apply Z.leb_le in Hge. by rewrite Hge, Hev.
  - intros H%(inv_alloc s I). lia.
Qed.




Lemma removed_stays env evs span s :
  removed span s -> removed span (run env evs s).
Proof.
  intros [Hlt Hout]. destruct (run_pool_step env evs s) as (_ & Hn & Hz).
  split; [lia|]. unfold parentNode in *. apply bool_decide_eq_false.
  apply bool_decide_eq_false in Hout. intros [H|H]%Hz; [done | lia].
Qed.

(** Eviction and [clearEmojis] leave their particles removed. *)
Lemma evicted_is_removed s x r :
  PoolInv s -> emojiZone s = x :: r -> removed x (removeOldestEmoji s).
Proof.
  intros I E. rewrite (removeOldestEmoji_cons s x r I E). split; simpl.
  - apply (inv_alloc s I). rewrite E. by left.
  - apply bool_decide_eq_false. simpl. pose proof (inv_nodup s I) as Hnd.
    rewrite E in Hnd. by apply NoDup_cons in Hnd as [? _].
Qed.

Lemma cleared_is_removed s x :
  PoolInv s -> x ∈ emojiZone s -> removed x (clearEmojis s).
Proof.
  intros I Hx. split; simpl; [by apply (inv_alloc s I)|].
  apply bool_decide_eq_false. simpl. apply not_elem_of_nil.
Qed.



(** ** Properties of the scanner *)

Lemma prototype_names_long w :
  String.length w <= 3 -> existsb (JsString.eqb w) OBJECT_PROTOTYPE = false.
Proof.
  intros Hlen. apply not_true_is_false. intros (n & Hn & Heq)%existsb_exists.
  apply bool_decide_eq_true in Heq. subst n.
  assert (Forall (fun n => 3 < String.length n) OBJECT_PROTOTYPE) as Hall
      by (repeat constructor).
  rewrite Forall_forall in Hall. apply list_elem_of_In, Hall in Hn. lia.
Qed.

Lemma dict_get_absent env w :
  String.length w <= 3 -> assoc w (EMOJI_DICT env) = None ->
  dict_get env w = VUndefined.
Proof.
  intros Hlen Hw. unfold dict_get. by rewrite Hw, prototype_names_long.
Qed.

(** C10.  A token of two or three code units that the emoji dictionary does
    not hold spawns no particle: the zone, the counter, the elements and the
    timers stay as they are.  The token still counts for the sentiment: each
    score goes up by one when its word set holds the token. *)
Theorem short_unmapped_token_spawns_nothing env w s :
  String.length w = 2 \/ String.length w = 3 ->
  assoc w (EMOJI_DICT env) = None ->
  let s' := scan_word env s w in
  pool_view s' = pool_view s
  /\ timers s' = timers s
  /\ positiveScore s'
     = (positiveScore s + if bool_decide (w ∈ POSITIVE_WORDS env) then 1 else 0)%Z
  /\ negativeScore s'
     = (negativeScore s + if bool_decide (w ∈ NEGATIVE_WORDS env) then 1 else 0)%Z.
Proof.
  intros Hlen Hw. unfold scan_word.
  rewrite dict_get_absent by (done || lia). simpl.
  assert ((3 <? String.length w)%nat = false) as -> by (apply Nat.ltb_ge; lia).
  repeat case_bool_decide; simpl; repeat split; lia.
Qed.

Lemma short_unmapped_token_witness :
  (String.length "nie" = 2 \/ String.length "nie" = 3)
  /\ assoc "nie" (EMOJI_DICT demo_env) = None
  /\ let s' := scan_word demo_env (init "de") "nie" in
     pool_view s' = pool_view (init "de")
     /\ timers s' = timers (init "de")
     /\ positiveScore s'
        = (positiveScore (init "de")
           + if bool_decide ("nie" ∈ POSITIVE_WORDS demo_env) then 1 else 0)%Z
     /\ negativeScore s'
        = (negativeScore (init "de")
           + if bool_decide ("nie" ∈ NEGATIVE_WORDS demo_env) then 1 else 0)%Z.
Proof.
  assert (H1 : String.length "nie" = 2 \/ String.length "nie" = 3) by (right; reflexivity).
  assert (H2 : assoc "nie" (EMOJI_DICT demo_env) = None) by reflexivity.
  split; [exact H1|]. split; [exact H2|].
  exact (short_unmapped_token_spawns_nothing demo_env "nie" (init "de") H1 H2).
Defined.

Lemma no_combo_matches env lowerText l s :
  (forall k, k ∈ l -> JsString.includes lowerText k = false) ->
  fold_left (scan_combo env lowerText) l s = s.
Proof.
  revert s. induction l as [|k l IH]; intros s Hl; simpl; [done|].
  unfold scan_combo at 2. rewrite Hl by (by left). apply IH.
  intros k' Hk'. apply Hl. by right.
Qed.

Lemma cl_remove_absent c cl : cl_contains c (cl_remove c cl) = false.
Proof.
  apply not_true_is_false. rewrite cl_contains_true. unfold cl_remove.
  intros [? _]%list_elem_of_filter. done.
Qed.

Lemma cl_remove_other c d cl :
  cl_contains c cl = false -> cl_contains c (cl_remove d cl) = false.
Proof.
  intros H. apply not_true_is_false. rewrite cl_contains_true. unfold cl_remove.
  intros [_ Hin]%list_elem_of_filter. apply cl_contains_true in Hin. congruence.
Qed.

Lemma updateMood_scores s :
  positiveScore (updateMood s) = positiveScore s
  /\ negativeScore (updateMood s) = negativeScore s
  /\ next_element (updateMood s) = next_element s.
Proof. unfold updateMood. by repeat case_match. Qed.

Lemma addEmojiParticle_scores env v s :
  positiveScore (addEmojiParticle env v s) = positiveScore s
  /\ negativeScore (addEmojiParticle env v s) = negativeScore s.
Proof.
  unfold addEmojiParticle. fold (evict s). simpl.
  unfold evict, removeOldestEmoji. by repeat case_match.
Qed.

Lemma updateMood_neutral s :
  (-2 <= positiveScore s - negativeScore s <= 2)%Z -> neutral (updateMood s).
Proof.
  intros H. unfold updateMood.
  assert ((2 <? positiveScore s - negativeScore s)%Z = false) as ->
      by (apply Z.ltb_ge; lia).
  assert ((positiveScore s - negativeScore s <? -2)%Z = false) as ->
      by (apply Z.ltb_ge; lia).
  split; simpl.
  - apply cl_remove_other, cl_remove_absent.
  - apply cl_remove_absent.
Qed.

(** C8.  The text is [ich liebe das]; [liebe] is a positive word that the
    dictionary maps to an emoji; it is no negative word, the other two
    tokens are in no dictionary, and no phrase of the dictionary occurs in
    the text.  Then the scan is one call of [addEmojiParticle] with that
    emoji -- one element is created, none for the other tokens --,
    [positiveScore] goes up by one, [negativeScore] stays, and in a session
    whose scores were level the net sentiment is 1 and the zone shows no
    mood. *)
Theorem ich_liebe_das env emoji s :
  "liebe" ∈ POSITIVE_WORDS env ->
  "liebe" ∉ NEGATIVE_WORDS env ->
  assoc "liebe" (EMOJI_DICT env) = Some emoji -> emoji <> "" ->
  (forall w, w ∈ ["ich"; "das"] ->
     (w ∉ POSITIVE_WORDS env) /\ (w ∉ NEGATIVE_WORDS env)
     /\ assoc w (EMOJI_DICT env) = None) ->
  (forall k, k ∈ combos env -> JsString.includes "ich liebe das" k = false) ->
  let s' := processWordsForEmoji env "ich liebe das" s in
  s' = updateMood (addEmojiParticle env (VStr emoji)
                     (set_positiveScore (positiveScore s + 1) s))
  /\ next_element s' = S (next_element s)
  /\ positiveScore s' = (positiveScore s + 1)%Z
  /\ negativeScore s' = negativeScore s
  /\ (positiveScore s = negativeScore s ->
      (positiveScore s' - negativeScore s' = 1)%Z /\ neutral s').
Proof.
  intros Hpos Hneg Hmap Hemoji Hother Hcombo s'.
  destruct (Hother "ich") as (Hi1 & Hi2 & Hi3); [by left|].
  destruct (Hother "das") as (Hd1 & Hd2 & Hd3); [right; by left|].
  assert (scan_word env s "ich" = s) as Hich.
  { unfold scan_word. rewrite (dict_get_absent env "ich") by (done || (simpl; lia)).
    by rewrite (bool_decide_eq_false_2 _ Hi1), (bool_decide_eq_false_2 _ Hi2). }
  assert (forall x, scan_word env x "das" = x) as Hdas.
  { intros x. unfold scan_word.
    rewrite (dict_get_absent env "das") by (done || (simpl; lia)).
    by rewrite (bool_decide_eq_false_2 _ Hd1), (bool_decide_eq_false_2 _ Hd2). }
  assert (scan_word env s "liebe"
          = addEmojiParticle env (VStr emoji)
              (set_positiveScore (positiveScore s + 1) s)) as Hliebe.
  { unfold scan_word.
    rewrite (bool_decide_eq_true_2 _ Hpos), (bool_decide_eq_false_2 _ Hneg).
    unfold dict_get. rewrite Hmap. simpl.
    unfold JsString.eqb. by rewrite (bool_decide_eq_false_2 _ Hemoji). }
  assert (s' = updateMood (addEmojiParticle env (VStr emoji)
                             (set_positiveScore (positiveScore s + 1) s))) as E.
  { subst s'. unfold processWordsForEmoji.
    change (JsString.toLowerCase "ich liebe das") with "ich liebe das".
    rewrite no_combo_matches by done.
    change (words_of "ich liebe das") with ["ich"; "liebe"; "das"].
    simpl fold_left. by rewrite Hich, Hliebe, Hdas. }
  clearbody s'. subst s'.
  set (s1 := addEmojiParticle _ _ _).
  destruct (updateMood_scores s1) as (Hp & Hm & Hn).
  destruct (addEmojiParticle_scores env (VStr emoji)
              (set_positiveScore (positiveScore s + 1) s)) as (Hp' & Hm').
  fold s1 in Hp', Hm'.
  change (positiveScore (set_positiveScore (positiveScore s + 1) s))
    with (positiveScore s + 1)%Z in Hp'.
  change (negativeScore (set_positiveScore (positiveScore s + 1) s))
    with (negativeScore s) in Hm'.
  split; [done|]. split.
  { rewrite Hn. subst s1. by rewrite addEmojiParticle_next. }
  split; [by rewrite Hp, Hp'|]. split; [by rewrite Hm, Hm'|].
  intros Hlevel. split; [rewrite Hp, Hm, Hp', Hm'; lia|].
  apply updateMood_neutral. rewrite Hp', Hm'. lia.
Qed.

Lemma ich_liebe_das_witness :
  let s' := processWordsForEmoji demo_env "ich liebe das" (init "de") in
  emojiZone s' = [0]
  /\ textContent <$> elements s' !! 0 = Some (VStr "<3")
  /\ positiveScore s' = 1%Z /\ negativeScore s' = 0%Z /\ neutral s'.
Proof.
  assert (H1 : "liebe" ∈ POSITIVE_WORDS demo_env) by (by vm_compute).
  assert (H2 : "liebe" ∉ NEGATIVE_WORDS demo_env) by (by vm_compute).
  assert (H3 : assoc "liebe" (EMOJI_DICT demo_env) = Some "<3") by reflexivity.
  assert (H4 : "<3" <> "") by discriminate.
  assert (H5 : forall w, w ∈ ["ich"; "das"] ->
            (w ∉ POSITIVE_WORDS demo_env) /\ (w ∉ NEGATIVE_WORDS demo_env)
            /\ assoc w (EMOJI_DICT demo_env) = None).
  { intros w Hw. repeat (apply elem_of_cons in Hw as [->|Hw]);
      [by vm_compute | by vm_compute | by apply elem_of_nil in Hw]. }
  assert (H6 : forall k, k ∈ combos demo_env ->
            JsString.includes "ich liebe das" k = false).
  { intros k Hk. change (combos demo_env) with ["geld regen"] in Hk.
    apply list_elem_of_singleton in Hk as ->. reflexivity. }
  destruct (ich_liebe_das demo_env "<3" (init "de") H1 H2 H3 H4 H5 H6)
    as (E & _ & Hp & Hn & Hmood).
  intros s'. fold s' in E, Hp, Hn, Hmood.
  split; [by rewrite E|]. split; [by rewrite E|].
  split; [exact Hp|]. split; [exact Hn|]. by apply Hmood.
Defined.

(** ** Properties of the dispatcher *)

Lemma translateAll_log text s :
  exists b, dispatched (translateAll text s) = dispatched s ++ [b]
            /\ b_text b = text /\ b_from b = sourceLang s
            /\ b_targets b = targetLangs s.
Proof. unfold translateAll. simpl. eexists. split; [reflexivity|]. done. Qed.

(** C5.  When the debounce timer elapses with [text], a batch goes out only
    for a text that is not empty and differs from [lastTranslatedText]: then
    one batch for [text] is sent and [text] becomes the last dispatched
    text.  For an empty text, or the text dispatched last, the callback
    does nothing at all. *)
Theorem dispatch_guard text s :
  (text <> "" /\ text <> lastTranslatedText s ->
     exists b, dispatched (translate_due text s) = dispatched s ++ [b]
               /\ b_text b = text
               /\ lastTranslatedText (translate_due text s) = text)
  /\ (text = "" \/ text = lastTranslatedText s -> translate_due text s = s).
Proof.
  unfold translate_due, JsString.eqb. split.
  - intros [H1 H2].
    rewrite (bool_decide_eq_false_2 _ H1), (bool_decide_eq_false_2 _ H2). simpl.
    destruct (translateAll_log text (set_lastTranslatedText text s))
      as (b & Hb & Ht & _).
    exists b. split; [exact Hb|]. split; [exact Ht|]. reflexivity.
  - intros [H|H].
    + by rewrite (bool_decide_eq_true_2 _ H).
    + rewrite (bool_decide_eq_true_2 (text = lastTranslatedText s) H).
      by rewrite andb_false_r.
Qed.

Lemma dispatch_guard_witness :
  (exists b, dispatched (translate_due "hallo" (init "de")) = dispatched (init "de") ++ [b]
             /\ b_text b = "hallo"
             /\ lastTranslatedText (translate_due "hallo" (init "de")) = "hallo")
  /\ translate_due "" (init "de") = init "de".
Proof.
  destruct (dispatch_guard "hallo" (init "de")) as [Hfire _].
  destruct (dispatch_guard "" (init "de")) as [_ Hskip].
  split.
  - apply Hfire. split; [discriminate | by vm_compute].
  - apply Hskip. by left.
Defined.

(** C4 on the code.  A result is final, then the session is cleared with
    the C key before the debounce window is over.  The timer is not
    cancelled: it is still pending after the clear, and when it elapses the
    batch for the cleared text goes out; its answer is written into the
    card that the clear had emptied.  The same happens when the source
    language is changed: the batch for the German text goes out with the
    new source language. *)
Lemma stale_batch_fires_after_clear :
  let s1 := run demo_env [said "hallo welt"; EvKeyDown (key "KeyC")] (init "de") in
  let s2 := run demo_env [EvAdvance 800] s1 in
  let s3 := run demo_env [EvSettled 0 [answer "hello world"; FetchRejected; FetchRejected]] s2 in
  let t := run demo_env [EvClickMic; said "hallo welt"; EvSelectLang "en"; EvAdvance 800]
             (init "de") in
  (finalTranscript s1 = "" /\ lastTranslatedText s1 = ""
   /\ CbTranslate "hallo welt" ∈ cb <$> timers s1
   /\ slot "en" s1 = Some (VStr ""))
  /\ b_text <$> dispatched s2 = ["hallo welt"]
  /\ slot "en" s3 = Some (VStr "hello world")
  /\ (fun b => (b_text b, b_from b, b_targets b)) <$> dispatched t
     = [("hallo welt", "en", ["de"; "fr"; "es"])].
Proof.
  intros s1 s2 s3 t. 
  split; [|split; [|split]].
  - split; [by vm_compute|]. split; [by vm_compute|]. split; [|by vm_compute].
    assert (cb <$> timers s1 = [CbTextFade 0; CbTextFade 1; CbTranslate "hallo welt"]) as ->
        by (by vm_compute).
    set_solver.
  - by vm_compute.
  - by vm_compute.
  - by vm_compute.
Qed.

(** ** The translation cards *)

Lemma slots_step_refl s : slots_step s s.
Proof. by intros I. Qed.

Lemma slots_step_trans s1 s2 s3 : slots_step s1 s2 -> slots_step s2 s3 -> slots_step s1 s3.
Proof. unfold slots_step. auto. Qed.

Lemma slots_step_view s s' : slots_view s' = slots_view s -> slots_step s s'.
Proof.
  unfold slots_view. intros [= Hc Hn Hf] [Ha Hi Ht].
  constructor; rewrite ?Hc, ?Hn, ?Hf; done.
Qed.

Lemma slots_step_fold {A} (f : State -> A -> State) l :
  (forall s a, slots_step s (f s a)) -> forall s, slots_step s (fold_left f l s).
Proof.
  intros Hf. induction l as [|a l IH]; intros s; simpl; [apply slots_step_refl|].
  eapply slots_step_trans; [apply Hf | apply IH].
Qed.

Lemma setStatus_slots t l s : slots_view (setStatus t l s) = slots_view s.
Proof. frame. Qed.
Lemma displayOriginal_slots f i s : slots_view (displayOriginal f i s) = slots_view s.
Proof. frame. Qed.
Lemma scheduleTranslation_slots t s : slots_view (scheduleTranslation t s) = slots_view s.
Proof. frame. Qed.
Lemma stopListening_slots s : slots_view (stopListening s) = slots_view s.
Proof. frame. Qed.
Lemma handleError_slots e s : slots_view (handleError e s) = slots_view s.
Proof. frame. Qed.
Lemma handleEnd_slots s : slots_view (handleEnd s) = slots_view s.
Proof. frame. Qed.
Lemma updateMood_slots s : slots_view (updateMood s) = slots_view s.
Proof. frame. Qed.
Lemma clearEmojis_slots s : slots_view (clearEmojis s) = slots_view s.
Proof. reflexivity. Qed.
Lemma setTimeout_slots c d s : slots_view (snd (setTimeout c d s)) = slots_view s.
Proof. reflexivity. Qed.
Lemma removeOldestEmoji_slots s : slots_view (removeOldestEmoji s) = slots_view s.
Proof. unfold removeOldestEmoji. by case_match. Qed.
Lemma addEmojiParticle_slots env v s :
  slots_view (addEmojiParticle env v s) = slots_view s.
Proof.
  unfold addEmojiParticle. fold (evict s).
  transitivity (slots_view (evict s)); [reflexivity|].
  unfold evict. case_match; [apply removeOldestEmoji_slots | done].
Qed.
Lemma addTextParticle_slots w s : slots_view (addTextParticle w s) = slots_view s.
Proof. unfold addTextParticle. by case_match. Qed.
#[local] Hint Rewrite setStatus_slots displayOriginal_slots scheduleTranslation_slots
  stopListening_slots handleError_slots handleEnd_slots updateMood_slots
  clearEmojis_slots removeOldestEmoji_slots addEmojiParticle_slots
  addTextParticle_slots : slots.

Lemma processWordsForEmoji_slots env text s :
  slots_view (processWordsForEmoji env text s) = slots_view s.
Proof.
  unfold processWordsForEmoji. rewrite updateMood_slots.
  rewrite fold_left_view.
  - rewrite fold_left_view; [done|]. intros x c. unfold scan_combo.
    case_match; by autorewrite with slots.
  - intros x w. unfold scan_word.
    set (x1 := if bool_decide (w ∈ POSITIVE_WORDS env) then _ else x).
    set (x2 := if bool_decide (w ∈ NEGATIVE_WORDS env) then _ else x1).
    assert (slots_view x2 = slots_view x) as <-.
    { subst x2 x1. by repeat case_match. }
    clearbody x2. clear x1. repeat case_match; by autorewrite with slots.
Qed.

Lemma handleResult_slots env i rs s :
  slots_view (handleResult env i rs s) = slots_view s.
Proof.
  unfold handleResult. rewrite displayOriginal_slots. case_match; [|done].
  rewrite scheduleTranslation_slots, processWordsForEmoji_slots. done.
Qed.

Lemma add_card_slots_step s lang : slots_step s (add_card s lang).
Proof.
  intros [Ha Hi Ht]. unfold add_card. constructor; simpl; [| |done].
  - intros l el. rewrite lookup_insert. case_decide as Hd.
    + intros [= <-]. lia.
    + intros Hl%Ha. lia.
  - intros l1 l2 el. rewrite !lookup_insert.
    case_decide as Hd1; case_decide as Hd2; subst.
    + done.
    + intros [= <-] Hl%Ha. lia.
    + intros Hl%Ha [= <-]. lia.
    + apply Hi.
Qed.

Lemma updateTranslationCards_slots_step s : slots_step s (updateTranslationCards s).
Proof.
  unfold updateTranslationCards.
  eapply slots_step_trans; [|apply slots_step_fold, add_card_slots_step].
  by apply slots_step_view.
Qed.

Lemma NoDup_targetLangs s : NoDup (targetLangs s).
Proof. unfold targetLangs. apply NoDup_filter. unfold ALL_LANGS. compute_done. Qed.

Lemma translateAll_slots_step text s : slots_step s (translateAll text s).
Proof.
  intros [Ha Hi Ht]. unfold translateAll. constructor; simpl; [done|done|].
  intros b [Hb| ->%list_elem_of_singleton]%elem_of_app; [by apply Ht|].
  apply NoDup_targetLangs.
Qed.

Lemma translate_due_slots_step text s : slots_step s (translate_due text s).
Proof.
  unfold translate_due. case_match; [|apply slots_step_refl].
  eapply slots_step_trans; [|apply translateAll_slots_step]. by apply slots_step_view.
Qed.

Lemma show_result_slots s lr : slots_view (show_result s lr) = slots_view s.
Proof. frame. Qed.

Lemma translateAll_resume_slots b rs s :
  slots_view (translateAll_resume b rs s) = slots_view s.
Proof.
  unfold translateAll_resume. rewrite fold_left_view; [done|]. apply show_result_slots.
Qed.

Lemma settle_slots_step b os s : slots_step s (settle b os s).
Proof.
  unfold settle. repeat case_match; try apply slots_step_refl.
  eapply slots_step_trans; [|apply slots_step_view, translateAll_resume_slots].
  intros [Ha Hi Ht]. constructor; simpl; [done|done|].
  intros x [_ Hx]%list_elem_of_filter. by apply Ht.
Qed.

Lemma clear_cards_slots s : slots_view (clear_cards s) = slots_view s.
Proof.
  unfold clear_cards. generalize (translationCards s). intros m.
  induction m as [|l el m Hl Hfold IH] using map_first_key_ind.
  - by rewrite map_fold_empty.
  - rewrite map_fold_insert_first_key by done. by rewrite <- IH.
Qed.

#[local] Hint Rewrite processWordsForEmoji_slots handleResult_slots show_result_slots
  translateAll_resume_slots clear_cards_slots setTimeout_slots : slots.

Lemma startListening_slots_step env s : slots_step s (startListening env s).
Proof.
  unfold startListening. case_match; [|by apply slots_step_view].
  case_match eqn:E.
  - unfold recognition_start in E. case_match; simplify_eq.
    eapply slots_step_trans; [|apply updateTranslationCards_slots_step].
    apply slots_step_view. by peel slots_view.
  - apply slots_step_view. by peel slots_view.
Qed.

Lemma toggleMic_slots_step env s : slots_step s (toggleMic env s).
Proof.
  unfold toggleMic. case_match.
  - apply slots_step_view, stopListening_slots.
  - apply startListening_slots_step.
Qed.

Lemma handleLangChange_slots_step s : slots_step s (handleLangChange s).
Proof.
  unfold handleLangChange.
  set (s1 := clearEmojis _).
  assert (slots_step s s1) as H.
  { subst s1. eapply slots_step_trans; [|apply slots_step_view, clearEmojis_slots].
    eapply slots_step_trans; [|apply slots_step_view, displayOriginal_slots].
    eapply (slots_step_trans _ (updateTranslationCards (set_sourceLang (langSelect s) s))).
    - eapply slots_step_trans; [|apply updateTranslationCards_slots_step].
      by apply slots_step_view.
    - by apply slots_step_view. }
  clearbody s1. case_match; [|done].
  eapply slots_step_trans; [apply H|]. apply slots_step_view, setTimeout_slots.
Qed.

Lemma keydown_slots_step env e s : slots_step s (keydown env e s).
Proof.
  unfold keydown.
  set (s1 := if _ && _ then toggleMic env s else s).
  set (s2 := if _ && isListening s1 then _ else s1).
  assert (slots_step s s2) as H.
  { subst s2. eapply (slots_step_trans _ s1).
    - subst s1. case_match; [apply toggleMic_slots_step | apply slots_step_refl].
    - clearbody s1. case_match; [|apply slots_step_refl].
      apply slots_step_view, stopListening_slots. }
  clearbody s2. clear s1. eapply slots_step_trans; [apply H|].
  case_match; [|apply slots_step_refl].
  apply slots_step_view. by peel slots_view.
 Qed.

Lemma run_callback_slots_step env c s : slots_step s (run_callback env c s).
Proof.
  destruct c; simpl.
  - by apply slots_step_view.
  - apply startListening_slots_step.
  - apply translate_due_slots_step.
  - apply slots_step_view. unfold float_due. by case_match.
  - apply slots_step_view. unfold fade_due. by case_match.
  - apply slots_step_view. unfold text_fade_due. by case_match.
  - apply slots_step_view. unfold remove_due. by case_match.
Qed.

Lemma fire_slots_step env t s : slots_step s (fire env t s).
Proof.
  unfold fire. eapply slots_step_trans; [|apply run_callback_slots_step].
  by apply slots_step_view.
Qed.

Lemma run_timers_slots_step env fuel limit s : slots_step s (run_timers env fuel limit s).
Proof.
  revert s. induction fuel as [|fuel IH]; intros s; simpl; [apply slots_step_refl|].
  case_match; [|apply slots_step_refl].
  eapply slots_step_trans; [apply fire_slots_step | apply IH].
Qed.

Lemma step_slots_step env s ev : slots_step s (step env s ev).
Proof.
  destruct ev; simpl.
  - unfold advance. eapply slots_step_trans; [apply run_timers_slots_step|].
    by apply slots_step_view.
  - apply toggleMic_slots_step.
  - eapply slots_step_trans; [|apply handleLangChange_slots_step]. by apply slots_step_view.
  - apply keydown_slots_step.
  - apply slots_step_view, handleResult_slots.
  - apply slots_step_view, handleError_slots.
  - apply slots_step_view. by rewrite handleEnd_slots.
  - apply settle_slots_step.
Qed.

Lemma SlotsInv_run env lang evs : SlotsInv (run env evs (init lang)).
Proof.
  apply (slots_step_fold (step env) evs (step_slots_step env)).
  unfold init.
  match goal with
  | |- SlotsInv (setStatus _ _ (updateTranslationCards ?x)) => set (s0 := x)
  end.
  assert (SlotsInv s0) as I0.
  { constructor; simpl.
    - intros l el. by rewrite lookup_empty.
    - intros l1 l2 el. by rewrite lookup_empty.
    - intros b ?%elem_of_nil. done. }
  clearbody s0. revert I0.
  eapply slots_step_trans; [apply updateTranslationCards_slots_step|].
  apply slots_step_view, setStatus_slots.
Qed.

Lemma translateText_translated o :
  translateText o = Fulfilled (default VNull (translated o)).
Proof.
  destruct o as [| | |data]; try done.
  destruct data as [| | | | | |fields|]; try done.
  unfold translateText, translateText_try, translated. simpl.
  destruct (assoc "responseStatus" fields) as [st|]; simpl; [|done].
  destruct st as [| | |status| | | |]; simpl; try done.
  destruct (status =? 200)%Z; simpl; [|by repeat case_match].
  destruct (assoc "responseData" fields) as [rd|]; simpl; [|done].
  destruct rd as [| |[]| | | |data|]; simpl; try done.
  - by destruct (negb _).
  - by destruct (negb _).
  - destruct (assoc "translatedText" data) as [v|]; simpl; [|done].
    by destruct (truthy v).
Qed.

Lemma translated_truthy o v : translated o = Some v -> truthy v = true.
Proof.
  unfold translated. repeat case_match; try done. intros [= <-].
  match goal with H : _ && _ = true |- _ => by apply andb_prop in H as [_ ?] end.
Qed.

Lemma show_result_cards_other s lr el :
  translationCards s !! fst lr <> Some el ->
  cards (show_result s lr) !! el = cards s !! el.
Proof.
  intros Hne. unfold show_result. repeat case_match; try done. simpl.
  apply lookup_insert_ne. congruence.
Qed.

Lemma show_result_map s lr : translationCards (show_result s lr) = translationCards s.
Proof. unfold show_result. by repeat case_match. Qed.

Lemma show_results_map prs s :
  translationCards (fold_left show_result prs s) = translationCards s.
Proof. apply (fold_left_view translationCards). apply show_result_map. Qed.

Lemma show_results_other prs s el :
  (forall lr, lr ∈ prs -> translationCards s !! fst lr <> Some el) ->
  cards (fold_left show_result prs s) !! el = cards s !! el.
Proof.
  revert s. induction prs as [|lr prs IH]; intros s Hne; simpl; [done|].
  rewrite IH.
  - apply show_result_cards_other, Hne. by left.
  - intros lr' Hin. rewrite show_result_map. apply Hne. by right.
Qed.

Lemma show_result_cards_at s lang r el :
  translationCards s !! lang = Some el ->
  cards (show_result s (lang, r)) !! el = shown r (cards s !! el).
Proof.
  intros Hl. unfold show_result, shown. simpl. rewrite Hl.
  destruct r as [v|]; [|done]. case_match; [|done]. simpl. apply lookup_insert_eq.
Qed.

(** With one card per language, the card of a target shows what its own
    result says, whatever the other results are. *)
Lemma show_results_at targets results s i lang r el :
  NoDup targets ->
  (forall l1 l2 e, translationCards s !! l1 = Some e ->
                   translationCards s !! l2 = Some e -> l1 = l2) ->
  targets !! i = Some lang -> results !! i = Some r ->
  translationCards s !! lang = Some el ->
  cards (fold_left show_result (zip targets results) s) !! el
  = shown r (cards s !! el).
Proof.
  intros Hnd Hinj Ht Hr Hel.
  assert (zip targets results !! i = Some (lang, r)) as Hz.
  { apply lookup_zip_with_Some. eauto. }
  assert (forall j lr, zip targets results !! j = Some lr -> j <> i ->
            translationCards s !! fst lr <> Some el) as Hothers.
  { intros j [l' r'] Hj Hji Hl'. simpl in Hl'.
    apply lookup_zip_with_Some in Hj as (? & ? & [= <- <-] & Hj & _).
    assert (l' = lang) as -> by (by eapply Hinj).
    apply Hji. by eapply NoDup_lookup. }
  rewrite <- (take_drop_middle _ _ _ Hz) in Hothers |- *.
  assert (length (take i (zip targets results)) = i) as Hlen.
  { apply length_take_le. apply lookup_lt_Some in Hz. lia. }
  rewrite fold_left_app. simpl.
  rewrite show_results_other.
  - rewrite show_result_cards_at by (by rewrite show_results_map).
    f_equal. apply show_results_other.
    intros lr [j Hj]%list_elem_of_lookup. apply (Hothers j).
    + rewrite lookup_app_l; [done|]. apply lookup_lt_Some in Hj. lia.
    + apply lookup_lt_Some in Hj. lia.
  - intros lr [j Hj]%list_elem_of_lookup.
    rewrite show_result_map, show_results_map. apply (Hothers (S (i + j))).
    + rewrite lookup_app_r by lia. rewrite Hlen.
      replace (S (i + j) - i) with (S j) by lia. done.
    + lia.
Qed.

Lemma shown_translateText o old :
  shown (translateText o) old
  = match translated o with Some v => Some v | None => old end.
Proof.
  rewrite translateText_translated. unfold shown.
  destruct (translated o) as [v|] eqn:E; simpl; [|done].
  by rewrite (translated_truthy o v E).
Qed.



(** ** The debounce timer *)

Lemma adds_timers_refl s : adds_timers s s.
Proof.
  split; [done|]. exists []. rewrite app_nil_r. simpl. repeat split; [lia|done].
Qed.

Lemma adds_timers_trans s1 s2 s3 :
  adds_timers s1 s2 -> adds_timers s2 s3 -> adds_timers s1 s3.
Proof.
  intros (H1 & n1 & T1 & I1 & N1 & F1) (H2 & n2 & T2 & I2 & N2 & F2).
  split; [congruence|]. exists (n1 ++ n2).
  rewrite T2, T1, <- app_assoc, fmap_app, length_app, I1, I2, N2, N1, seq_app.
  repeat split; [lia|]. by apply Forall_app.
Qed.

Lemma adds_timers_view s s' : timers_view s' = timers_view s -> adds_timers s s'.
Proof.
  unfold timers_view. intros [= Ht Hn Hh]. split; [done|]. exists [].
  rewrite app_nil_r. simpl. repeat split; [done|lia|done].
Qed.

Lemma adds_timers_setTimeout c d s :
  is_translate c = false -> adds_timers s (snd (setTimeout c d s)).
Proof.
  intros Hc. split; [done|]. eexists [_]. simpl. repeat split; [lia|].
  by constructor.
Qed.

Lemma adds_timers_fold {A} (f : State -> A -> State) l :
  (forall s a, adds_timers s (f s a)) -> forall s, adds_timers s (fold_left f l s).
Proof.
  intros Hf. induction l as [|a l IH]; intros s; simpl; [apply adds_timers_refl|].
  eapply adds_timers_trans; [apply Hf | apply IH].
Qed.

Lemma adds_timers_inv s s' : adds_timers s s' -> TimerInv s -> TimerInv s'.
Proof.
  intros (Hh & new & Ht & Hi & Hn & Hf) [Hnd Hal Hha].
  assert (forall t, t ∈ new -> next_timer s <= tid t < next_timer s') as Hnew.
  { intros t Ht'. apply (list_elem_of_fmap_2 tid) in Ht'. rewrite Hi in Ht'.
    apply elem_of_seq in Ht'. lia. }
  constructor.
  - rewrite Ht, fmap_app. apply NoDup_app. split; [done|]. split.
    + intros x Hx Hx'. rewrite Hi in Hx'. apply elem_of_seq in Hx'.
      apply list_elem_of_fmap in Hx as (t & -> & Hin). apply Hal in Hin. lia.
    + rewrite Hi. apply NoDup_seq.
  - intros t. rewrite Ht, elem_of_app. intros [Hin%Hal|Hin%Hnew]; lia.
  - intros t. rewrite Ht, Hh, elem_of_app. intros [Hin|Hin] Htr; [by apply Hha|].
    rewrite Forall_forall in Hf. rewrite (Hf t Hin) in Htr. done.
Qed.

Lemma timers_view_inv s s' : timers_view s' = timers_view s -> TimerInv s -> TimerInv s'.
Proof. intros H. by apply adds_timers_inv, adds_timers_view. Qed.

(** What keeps the timers as they are. *)
Lemma setStatus_timers t l s : timers_view (setStatus t l s) = timers_view s.
Proof. frame. Qed.
Lemma displayOriginal_timers f i s : timers_view (displayOriginal f i s) = timers_view s.
Proof. frame. Qed.
Lemma updateTranslationCards_timers s :
  timers_view (updateTranslationCards s) = timers_view s.
Proof. unfold updateTranslationCards. rewrite fold_left_view; [done|]. frame. Qed.
Lemma stopListening_timers s : timers_view (stopListening s) = timers_view s.
Proof. frame. Qed.
Lemma handleEnd_timers s : timers_view (handleEnd s) = timers_view s.
Proof. frame. Qed.
Lemma updateMood_timers s : timers_view (updateMood s) = timers_view s.
Proof. frame. Qed.
Lemma clearEmojis_timers s : timers_view (clearEmojis s) = timers_view s.
Proof. reflexivity. Qed.
Lemma removeOldestEmoji_timers s : timers_view (removeOldestEmoji s) = timers_view s.
Proof. unfold removeOldestEmoji. by case_match. Qed.
Lemma translate_due_timers t s : timers_view (translate_due t s) = timers_view s.
Proof. frame. Qed.
Lemma translateAll_resume_timers b rs s :
  timers_view (translateAll_resume b rs s) = timers_view s.
Proof. unfold translateAll_resume. rewrite fold_left_view; [done|]. frame. Qed.
Lemma settle_timers b os s : timers_view (settle b os s) = timers_view s.
Proof.
  unfold settle. repeat case_match; try done. by rewrite translateAll_resume_timers.
Qed.
Lemma clear_cards_timers s : timers_view (clear_cards s) = timers_view s.
Proof.
  unfold clear_cards. generalize (translationCards s). intros m.
  induction m as [|l el m Hl Hfold IH] using map_first_key_ind.
  - by rewrite map_fold_empty.
  - rewrite map_fold_insert_first_key by done. by rewrite <- IH.
Qed.
Lemma float_due_timers span s : timers_view (float_due span s) = timers_view s.
Proof. unfold float_due. by case_match. Qed.
Lemma remove_due_timers span s : timers_view (remove_due span s) = timers_view s.
Proof. unfold remove_due. by case_match. Qed.
#[local] Hint Rewrite setStatus_timers displayOriginal_timers
  updateTranslationCards_timers stopListening_timers handleEnd_timers
  updateMood_timers clearEmojis_timers removeOldestEmoji_timers
  translate_due_timers translateAll_resume_timers settle_timers
  clear_cards_timers float_due_timers remove_due_timers : timers.

(** What keeps the transcript, the last dispatched text, the log of
    batches and the clock. *)
Lemma showToast_log m s : log_view (showToast m s) = log_view s.
Proof. frame. Qed.
Lemma setStatus_log t l s : log_view (setStatus t l s) = log_view s.
Proof. frame. Qed.
Lemma displayOriginal_log f i s : log_view (displayOriginal f i s) = log_view s.
Proof. frame. Qed.
Lemma updateTranslationCards_log s : log_view (updateTranslationCards s) = log_view s.
Proof. unfold updateTranslationCards. rewrite fold_left_view; [done|]. frame. Qed.
Lemma updateMood_log s : log_view (updateMood s) = log_view s.
Proof. frame. Qed.
Lemma removeOldestEmoji_log s : log_view (removeOldestEmoji s) = log_view s.
Proof. unfold removeOldestEmoji. by case_match. Qed.
Lemma addEmojiParticle_log env v s : log_view (addEmojiParticle env v s) = log_view s.
Proof.
  unfold addEmojiParticle. fold (evict s).
  transitivity (log_view (evict s)); [reflexivity|].
  unfold evict. case_match; [apply removeOldestEmoji_log | done].
Qed.
Lemma addTextParticle_log w s : log_view (addTextParticle w s) = log_view s.
Proof. unfold addTextParticle. by case_match. Qed.
Lemma float_due_log span s : log_view (float_due span s) = log_view s.
Proof. unfold float_due. by case_match. Qed.
Lemma fade_due_log span s : log_view (fade_due span s) = log_view s.
Proof. unfold fade_due. by case_match. Qed.
Lemma text_fade_due_log span s : log_view (text_fade_due span s) = log_view s.
Proof. unfold text_fade_due. by case_match. Qed.
Lemma remove_due_log span s : log_view (remove_due span s) = log_view s.
Proof. unfold remove_due. by case_match. Qed.
#[local] Hint Rewrite showToast_log setStatus_log displayOriginal_log
  updateTranslationCards_log updateMood_log removeOldestEmoji_log
  addEmojiParticle_log addTextParticle_log float_due_log fade_due_log
  text_fade_due_log remove_due_log : log.

Lemma startListening_log env s : log_view (startListening env s) = log_view s.
Proof. frame. Qed.

Lemma processWordsForEmoji_log env text s :
  log_view (processWordsForEmoji env text s) = log_view s.
Proof.
  unfold processWordsForEmoji. rewrite updateMood_log.
  rewrite fold_left_view.
  - rewrite fold_left_view; [done|]. intros x c. unfold scan_combo.
    case_match; by autorewrite with log.
  - intros x w. unfold scan_word.
    set (x1 := if bool_decide (w ∈ POSITIVE_WORDS env) then _ else x).
    set (x2 := if bool_decide (w ∈ NEGATIVE_WORDS env) then _ else x1).
    assert (log_view x2 = log_view x) as <-.
    { subst x2 x1. by repeat case_match. }
    clearbody x2. clear x1. repeat case_match; by autorewrite with log.
Qed.
#[local] Hint Rewrite startListening_log processWordsForEmoji_log : log.

(** A callback other than the debounce callback keeps them too. *)
Lemma run_callback_log env c s :
  is_translate c = false -> log_view (run_callback env c s) = log_view s.
Proof. destruct c; simpl; try done; intros _; by autorewrite with log. Qed.

(** What only sets timers. *)
Lemma showToast_adds m s : adds_timers s (showToast m s).
Proof.
  unfold showToast. eapply adds_timers_trans; [|by apply adds_timers_setTimeout].
  by apply adds_timers_view.
Qed.

Lemma startListening_adds env s : adds_timers s (startListening env s).
Proof.
  unfold startListening. case_match; [|by apply adds_timers_view].
  case_match eqn:E.
  - unfold recognition_start in E. case_match; simplify_eq.
    apply adds_timers_view. by peel timers_view.
  - eapply adds_timers_trans; [|apply showToast_adds]. by apply adds_timers_view.
Qed.

Lemma toggleMic_adds env s : adds_timers s (toggleMic env s).
Proof.
  unfold toggleMic. case_match.
  - apply adds_timers_view, stopListening_timers.
  - apply startListening_adds.
Qed.

Lemma handleError_adds e s : adds_timers s (handleError e s).
Proof.
  unfold handleError. repeat case_match.
  - eapply adds_timers_trans; [apply showToast_adds|].
    apply adds_timers_view, stopListening_timers.
  - apply adds_timers_refl.
  - apply showToast_adds.
Qed.

Lemma addEmojiParticle_adds env v s : adds_timers s (addEmojiParticle env v s).
Proof.
  unfold addEmojiParticle. fold (evict s).
  eapply (adds_timers_trans _ (evict s)).
  - apply adds_timers_view. unfold evict.
    case_match; [apply removeOldestEmoji_timers | done].
  - generalize (evict s). intros x.
    eapply adds_timers_trans; [|by apply adds_timers_setTimeout].
    eapply adds_timers_trans; [|by apply adds_timers_setTimeout].
    by apply adds_timers_view.
Qed.

Lemma addTextParticle_adds w s : adds_timers s (addTextParticle w s).
Proof.
  unfold addTextParticle. case_match; [apply adds_timers_refl|].
  eapply adds_timers_trans; [|by apply adds_timers_setTimeout].
  by apply adds_timers_view.
Qed.

Lemma fade_due_adds span s : adds_timers s (fade_due span s).
Proof.
  unfold fade_due. case_match; [|apply adds_timers_refl].
  eapply adds_timers_trans; [|by apply adds_timers_setTimeout].
  by apply adds_timers_view.
Qed.

Lemma text_fade_due_adds span s : adds_timers s (text_fade_due span s).
Proof.
  unfold text_fade_due. case_match; [|apply adds_timers_refl].
  eapply adds_timers_trans; [|by apply adds_timers_setTimeout].
  by apply adds_timers_view.
Qed.

Lemma processWordsForEmoji_adds env text s :
  adds_timers s (processWordsForEmoji env text s).
Proof.
  unfold processWordsForEmoji.
  eapply adds_timers_trans; [|apply adds_timers_view, updateMood_timers].
  eapply adds_timers_trans; [|apply adds_timers_fold]; [apply adds_timers_fold|].
  - intros x c. unfold scan_combo.
    case_match; [apply addEmojiParticle_adds | apply adds_timers_refl].
  - intros x w. unfold scan_word.
    set (x1 := if bool_decide (w ∈ POSITIVE_WORDS env) then _ else x).
    set (x2 := if bool_decide (w ∈ NEGATIVE_WORDS env) then _ else x1).
    assert (timers_view x2 = timers_view x) as Hv.
    { subst x2 x1. by repeat case_match. }
    clearbody x2. clear x1.
    eapply adds_timers_trans; [apply adds_timers_view, Hv|].
    repeat case_match;
      [apply addEmojiParticle_adds | apply addTextParticle_adds | apply adds_timers_refl].
Qed.

Lemma handleLangChange_adds s : adds_timers s (handleLangChange s).
Proof.
  unfold handleLangChange.
  set (s1 := clearEmojis _).
  assert (timers_view s1 = timers_view s) as H.
  { subst s1. by peel timers_view. }
  clearbody s1. eapply adds_timers_trans; [apply adds_timers_view, H|].
  case_match; [by apply adds_timers_setTimeout | apply adds_timers_refl].
Qed.

Lemma keydown_adds env e s : adds_timers s (keydown env e s).
Proof.
  unfold keydown.
  set (s1 := if _ && _ then toggleMic env s else s).
  set (s2 := if _ && isListening s1 then _ else s1).
  assert (adds_timers s s2) as H.
  { subst s2. eapply (adds_timers_trans _ s1).
    - subst s1. case_match; [apply toggleMic_adds | apply adds_timers_refl].
    - clearbody s1. case_match; [|apply adds_timers_refl].
      apply adds_timers_view, stopListening_timers. }
  clearbody s2. clear s1. eapply adds_timers_trans; [apply H|].
  case_match; [|apply adds_timers_refl].
  apply adds_timers_view. by peel timers_view.
Qed.

Lemma run_callback_adds env c s :
  is_translate c = false -> adds_timers s (run_callback env c s).
Proof.
  destruct c; simpl; try done; intros _.
  - by apply adds_timers_view.
  - apply startListening_adds.
  - apply adds_timers_view, float_due_timers.
  - apply fade_due_adds.
  - apply text_fade_due_adds.
  - apply adds_timers_view, remove_due_timers.
Qed.

Lemma TimerInv_sub s s' :
  (forall t, t ∈ timers s' -> t ∈ timers s) -> NoDup (tid <$> timers s') ->
  next_timer s' = next_timer s -> translateTimer s' = translateTimer s ->
  TimerInv s -> TimerInv s'.
Proof.
  intros Hsub Hnd Hn Hh [_ Hal Hha]. constructor; [done| |].
  - intros t Ht%Hsub. rewrite Hn. by apply Hal.
  - intros t Ht%Hsub. rewrite Hh. by apply Hha.
Qed.

Lemma NoDup_tid_filter (P : Timer -> Prop) `{forall t, Decision (P t)} (l : list Timer) :
  NoDup (tid <$> l) -> NoDup (tid <$> filter P l).
Proof.
  induction l as [|t l IH]; [done|]. rewrite fmap_cons, NoDup_cons. intros [Ht Hnd].
  rewrite filter_cons. case_decide; [|by apply IH].
  rewrite fmap_cons. apply NoDup_cons. split; [|by apply IH].
  intros (t' & Heq & [_ Hin]%list_elem_of_filter)%list_elem_of_fmap.
  apply Ht. apply list_elem_of_fmap. eauto.
Qed.

(** Removing the timer of a handle keeps the invariant. *)
Lemma TimerInv_remove id s :
  TimerInv s -> TimerInv (set_timers (filter (fun t => tid t <> id) (timers s)) s).
Proof.
  intros I. apply (TimerInv_sub s); simpl; try done.
  - by intros t [_ ?]%list_elem_of_filter.
  - apply NoDup_tid_filter, I.
Qed.

(** After [clearTimeout(translateTimer)] no debounce timer is pending. *)
Lemma clearTimeout_idle s :
  TimerInv s ->
  TimerInv (clearTimeout (translateTimer s) s)
  /\ idle (clearTimeout (translateTimer s) s).
Proof.
  intros I. unfold clearTimeout, idle. destruct (translateTimer s) as [h|] eqn:Hh.
  - split; [by apply TimerInv_remove|]. simpl.
    intros t [Hne Hin]%list_elem_of_filter. apply not_true_is_false. intros Htr.
    pose proof (timers_handle s I t Hin Htr) as Heq. rewrite Hh in Heq.
    by injection Heq as ->.
  - split; [done|]. intros t Hin. apply not_true_is_false. intros Htr.
    pose proof (timers_handle s I t Hin Htr) as Heq. by rewrite Hh in Heq.
Qed.

Lemma clearTimeout_log h s : log_view (clearTimeout h s) = log_view s.
Proof. unfold clearTimeout. by case_match. Qed.

(** [scheduleTranslation] leaves exactly its own debounce timer pending,
    due one debounce delay from now. *)
Lemma scheduleTranslation_arms text s :
  TimerInv s ->
  TimerInv (scheduleTranslation text s)
  /\ pending text (now s + TRANSLATE_DEBOUNCE_MS) (scheduleTranslation text s)
  /\ log_view (scheduleTranslation text s) = log_view s.
Proof.
  intros I. destruct (clearTimeout_idle s I) as [I1 Hidle].
  unfold scheduleTranslation.
  pose proof (clearTimeout_log (translateTimer s) s) as Hlog.
  assert (now (clearTimeout (translateTimer s) s) = now s) as Hnow
      by (unfold clearTimeout; by case_match).
  revert I1 Hidle Hlog Hnow. generalize (clearTimeout (translateTimer s) s). intros s1 I1 Hidle Hlog Hnow.
  unfold setTimeout. simpl. destruct I1 as [Hnd Hal Hha].
  set (t := {| tid := next_timer s1; due := (now s1 + TRANSLATE_DEBOUNCE_MS)%Z;
               cb := CbTranslate text |}).
  split; [|split].
  - constructor; simpl.
    + rewrite fmap_app. apply NoDup_app. split; [done|]. split; [|apply NoDup_singleton].
      intros x (t' & -> & Hin%Hal)%list_elem_of_fmap
        (t'' & Heq & ->%list_elem_of_singleton)%list_elem_of_fmap.
      simpl in Heq. lia.
    + intros t'. rewrite elem_of_app, list_elem_of_singleton.
      intros [Hin%Hal| ->]; simpl; lia.
    + intros t'. rewrite elem_of_app, list_elem_of_singleton.
      intros [Hin| ->] Htr; [|done]. by rewrite (Hidle t' Hin) in Htr.
  - exists t. simpl. split; [apply elem_of_app; right; by left|].
    split; [done|]. split; [by rewrite Hnow|].
    intros t'. rewrite elem_of_app, list_elem_of_singleton.
    intros [Hin| ->] Htr; [|done]. by rewrite (Hidle t' Hin) in Htr.
  - by rewrite <- Hlog.
Qed.

Lemma fire_TimerInv env t s : TimerInv s -> TimerInv (fire env t s).
Proof.
  intros I. unfold fire.
  set (s1 := set_now _ _).
  assert (TimerInv s1) as I1.
  { refine (timers_view_inv _ _ _ (TimerInv_remove (tid t) s I)). reflexivity. }
  clearbody s1. destruct (is_translate (cb t)) eqn:Htr.
  - destruct (cb t); try done. simpl.
    apply (timers_view_inv s1); [apply translate_due_timers | done].
  - apply (adds_timers_inv s1); [by apply run_callback_adds | done].
Qed.

Lemma run_timers_TimerInv env fuel limit s :
  TimerInv s -> TimerInv (run_timers env fuel limit s).
Proof.
  revert s. induction fuel as [|fuel IH]; intros s I; simpl; [done|].
  case_match; [|done]. by apply IH, fire_TimerInv.
Qed.

Lemma handleResult_TimerInv env i rs s :
  TimerInv s -> TimerInv (handleResult env i rs s).
Proof.
  intros I. unfold handleResult. apply (timers_view_inv _ _ (displayOriginal_timers _ _ _)).
  case_match; [|done].
  apply scheduleTranslation_arms.
  apply (adds_timers_inv (set_finalTranscript
           (finalTranscript s ++ concat_where true (drop i rs)) s));
    [apply processWordsForEmoji_adds |].
  by apply (timers_view_inv s).
Qed.

Lemma step_TimerInv env s ev : TimerInv s -> TimerInv (step env s ev).
Proof.
  intros I. destruct ev; simpl.
  - unfold advance.
    refine (timers_view_inv _ _ _ (run_timers_TimerInv env _ _ s I)). reflexivity.
  - apply (adds_timers_inv s); [apply toggleMic_adds | done].
  - apply (adds_timers_inv (set_langSelect value s)); [apply handleLangChange_adds |].
    by apply (timers_view_inv s).
  - apply (adds_timers_inv s); [apply keydown_adds | done].
  - by apply handleResult_TimerInv.
  - apply (adds_timers_inv s); [apply handleError_adds | done].
  - apply (timers_view_inv s); [|done]. by rewrite handleEnd_timers.
  - apply (timers_view_inv s); [apply settle_timers | done].
Qed.

Lemma run_TimerInv env evs s : TimerInv s -> TimerInv (run env evs s).
Proof.
  revert s. induction evs as [|ev evs IH]; intros s I; simpl; [done|].
  by apply IH, step_TimerInv.
Qed.

Lemma TimerInv_init lang : TimerInv (init lang).
Proof.
  unfold init.
  match goal with
  | |- TimerInv (setStatus _ _ (updateTranslationCards ?x)) => set (s0 := x)
  end.
  assert (TimerInv s0) as I0.
  { constructor; simpl.
    - apply NoDup_nil_2.
    - intros t ?%elem_of_nil. done.
    - intros t ?%elem_of_nil. done. }
  clearbody s0. revert I0. apply timers_view_inv. by peel timers_view.
Qed.

Lemma TimerInv_run env lang evs : TimerInv (run env evs (init lang)).
Proof. apply run_TimerInv, TimerInv_init. Qed.

(** *** Which timer fires next *)

Lemma first_timer_in (l : list Timer) (t : Timer) : first_timer l = Some t -> t ∈ l.
Proof.
  revert t. induction l as [|x l IH]; intros t; simpl; [done|].
  destruct (first_timer l) as [m|].
  - case_match; intros [= <-]; [right; by apply IH | by left].
  - intros [= <-]. by left.
Qed.

Lemma first_timer_None l : first_timer l = None -> l = [].
Proof. destruct l as [|x l]; simpl; [done|]. by repeat case_match. Qed.

Lemma next_due_Some limit s t :
  next_due limit s = Some t -> t ∈ timers s /\ (due t <= limit)%Z.
Proof.
  unfold next_due. intros H%first_timer_in. by apply list_elem_of_filter in H as [? ?].
Qed.

Lemma next_due_None limit s t :
  next_due limit s = None -> t ∈ timers s -> (limit < due t)%Z.
Proof.
  unfold next_due. intros H%first_timer_None Hin.
  destruct (decide (due t <= limit)%Z) as [Hle|]; [|lia].
  assert (t ∈ filter (fun t => (due t <= limit)%Z) (timers s)) as Hf
      by (by apply list_elem_of_filter).
  rewrite H in Hf. by apply elem_of_nil in Hf.
Qed.

(** *** The fuel of [advance] is enough *)

Lemma weight_pos c : 1 <= weight c.
Proof. destruct c; simpl; lia. Qed.

Lemma total_weight_app l k : total_weight (l ++ k) = total_weight l + total_weight k.
Proof. induction l as [|t l IH]; simpl; [done|]. rewrite IH. lia. Qed.

Lemma total_weight_filter (P : Timer -> Prop) `{forall t, Decision (P t)} (l : list Timer) :
  total_weight (filter P l) <= total_weight l.
Proof.
  induction l as [|x l IH]; simpl; [done|]. rewrite filter_cons.
  case_decide; simpl; lia.
Qed.

Lemma total_weight_remove (t : Timer) (l : list Timer) :
  t ∈ l ->
  total_weight (filter (fun x => tid x <> tid t) l) + weight (cb t) <= total_weight l.
Proof.
  induction l as [|x l IH]; [by intros ?%elem_of_nil|].
  intros [<-|Hin]%elem_of_cons.
  - rewrite filter_cons_False by (intros ?; done). simpl.
    pose proof (total_weight_filter (fun x => tid x <> tid t) l). lia.
  - specialize (IH Hin). rewrite filter_cons. case_decide; simpl; lia.
Qed.

Lemma timers_of_view s s' : timers_view s' = timers_view s -> timers s' = timers s.
Proof. unfold timers_view. by intros [= -> _ _]. Qed.

(** A callback sets at most one timer, and a lighter one. *)
Lemma run_callback_weight env c s :
  total_weight (timers (run_callback env c s)) + 1
  <= total_weight (timers s) + weight c.
Proof.
  destruct c; simpl.
  - lia.
  - unfold startListening. case_match; [|simpl; lia].
    case_match eqn:E.
    + unfold recognition_start in E. case_match; simplify_eq.
      erewrite timers_of_view; [|by peel timers_view]. simpl. lia.
    + unfold showToast. simpl. rewrite total_weight_app. simpl. lia.
  - rewrite (timers_of_view _ _ (translate_due_timers text s)). lia.
  - rewrite (timers_of_view _ _ (float_due_timers span s)). lia.
  - unfold fade_due. case_match; simpl; [|lia]. rewrite total_weight_app. simpl. lia.
  - unfold text_fade_due. case_match; simpl; [|lia]. rewrite total_weight_app. simpl. lia.
  - rewrite (timers_of_view _ _ (remove_due_timers span s)). lia.
Qed.

Lemma fire_weight env t s :
  t ∈ timers s -> total_weight (timers (fire env t s)) < total_weight (timers s).
Proof.
  intros Hin. unfold fire.
  set (s1 := set_now _ _).
  assert (timers s1 = filter (fun x => tid x <> tid t) (timers s)) as H1 by done.
  clearbody s1. pose proof (run_callback_weight env (cb t) s1) as Hw.
  pose proof (total_weight_remove t _ Hin) as Hr. rewrite H1 in Hw. lia.
Qed.

(** With the fuel [advance] gives, every timer that is due has fired. *)
Lemma run_timers_done env fuel limit s :
  total_weight (timers s) <= fuel ->
  next_due limit (run_timers env fuel limit s) = None.
Proof.
  revert s. induction fuel as [|fuel IH]; intros s Hw; simpl.
  - destruct (next_due limit s) as [t|] eqn:E; [|done].
    apply next_due_Some in E as [Hin _].
    pose proof (total_weight_remove t _ Hin). pose proof (weight_pos (cb t)). lia.
  - destruct (next_due limit s) as [t|] eqn:E; [|done].
    apply IH. apply next_due_Some in E as [Hin _].
    pose proof (fire_weight env t s Hin). lia.
Qed.

(** The two ways the debounce callback can go. *)
Lemma dispatch_guard_cases text s :
  ((text <> "" /\ text <> lastTranslatedText s)
   /\ lastTranslatedText (translate_due text s) = text
   /\ exists b, dispatched (translate_due text s) = dispatched s ++ [b]
               /\ b_text b = text
               /\ finalTranscript (translate_due text s) = finalTranscript s)
  \/ ((text = "" \/ text = lastTranslatedText s) /\ translate_due text s = s).
Proof.
  unfold translate_due, JsString.eqb.
  destruct (decide (text = "")) as [->|H1].
  - right. split; [by left|]. by rewrite bool_decide_eq_true_2.
  - destruct (decide (text = lastTranslatedText s)) as [H2|H2].
    + right. split; [by right|].
      rewrite (bool_decide_eq_true_2 (text = lastTranslatedText s) H2).
      by rewrite andb_false_r.
    + left. split; [done|].
      rewrite (bool_decide_eq_false_2 _ H1), (bool_decide_eq_false_2 _ H2). simpl.
      split; [done|]. eexists. split; [reflexivity|]. done.
Qed.

(** *** Firing a timer *)

Lemma journal_of_log s s' : log_view s' = log_view s -> journal s' = journal s.
Proof. unfold log_view, journal. by intros [= -> -> -> _]. Qed.

Lemma tid_inj (l : list Timer) (a b : Timer) :
  NoDup (tid <$> l) -> a ∈ l -> b ∈ l -> tid a = tid b -> a = b.
Proof.
  induction l as [|x l IH]; [by intros _ ?%elem_of_nil|].
  rewrite fmap_cons, NoDup_cons. intros [Hx Hnd] Ha Hb Heq.
  apply elem_of_cons in Ha as [->|Ha]; apply elem_of_cons in Hb as [->|Hb]; try done.
  - exfalso. apply Hx. rewrite Heq. by apply list_elem_of_fmap_2.
  - exfalso. apply Hx. rewrite <- Heq. by apply list_elem_of_fmap_2.
  - by apply IH.
Qed.

(** The state in which the callback of a fired timer runs. *)
Lemma fire_unfold env t s :
  exists s1,
    fire env t s = run_callback env (cb t) s1
    /\ timers s1 = filter (fun x => tid x <> tid t) (timers s)
    /\ journal s1 = journal s
    /\ next_timer s1 = next_timer s /\ translateTimer s1 = translateTimer s.
Proof. eexists. split; [reflexivity|]. done. Qed.

(** A timer other than the debounce timer fires: the journal stays, and a
    debounce timer is pending afterwards just when it was before. *)
Lemma fire_quiet env t s :
  TimerInv s -> t ∈ timers s -> is_translate (cb t) = false ->
  journal (fire env t s) = journal s
  /\ (forall t', t' ∈ timers (fire env t s) -> is_translate (cb t') = true ->
                 t' ∈ timers s)
  /\ (forall t', t' ∈ timers s -> is_translate (cb t') = true ->
                 t' ∈ timers (fire env t s)).
Proof.
  intros I Hin Htr. destruct (fire_unfold env t s) as (s1 & -> & Ht1 & Hj1 & _ & _).
  destruct (run_callback_adds env (cb t) s1 Htr) as (_ & new & Hnew & _ & _ & Hnt).
  rewrite Forall_forall in Hnt.
  split; [|split].
  - rewrite <- Hj1. apply journal_of_log. by apply run_callback_log.
  - intros t'. rewrite Hnew, Ht1, elem_of_app. intros [[_ ?]%list_elem_of_filter|Hn] Htr'.
    + done.
    + by rewrite (Hnt t' Hn) in Htr'.
  - intros t' Hin' Htr'. rewrite Hnew, Ht1. apply elem_of_app. left.
    apply list_elem_of_filter. split; [|done]. intros Heq.
    assert (t' = t) as -> by (by apply (tid_inj (timers s)); [apply I|..]).
    by rewrite Htr in Htr'.
Qed.

(** The pending debounce timer fires. *)
Lemma fire_translate env t s text :
  TimerInv s -> t ∈ timers s -> cb t = CbTranslate text ->
  (forall t', t' ∈ timers s -> is_translate (cb t') = true -> t' = t) ->
  idle (fire env t s) /\ fired text s (fire env t s).
Proof.
  intros I Hin Hcb Honly. destruct (fire_unfold env t s) as (s1 & -> & Ht1 & Hj1 & _ & _).
  rewrite Hcb. simpl. unfold journal in Hj1. injection Hj1 as Hf Hl Hd. split.
  - intros t'. rewrite (timers_of_view _ _ (translate_due_timers text s1)), Ht1.
    intros [Hne Hin']%list_elem_of_filter. apply not_true_is_false. intros Htr.
    apply Hne. by rewrite (Honly t' Hin' Htr).
  - unfold fired. rewrite <- Hf, <- Hl, <- Hd. clear Hf Hl Hd.
    destruct (dispatch_guard_cases text s1) as [(Hyes & Hl' & b & Hb & Hbt & Hf')|(Hno & ->)].
    + rewrite Hf'. split; [done|]. rewrite bool_decide_eq_true_2 by done. eauto.
    + split; [done|]. rewrite bool_decide_eq_false_2; [done|]. tauto.
Qed.

(** *** Letting time pass *)

(** While no debounce timer is due, the journal stays. *)
Lemma run_timers_gap env fuel limit s :
  TimerInv s ->
  (forall t, t ∈ timers s -> is_translate (cb t) = true -> (limit < due t)%Z) ->
  journal (run_timers env fuel limit s) = journal s.
Proof.
  revert s. induction fuel as [|fuel IH]; intros s I Hlate; simpl; [done|].
  destruct (next_due limit s) as [t|] eqn:E; [|done].
  apply next_due_Some in E as [Hin Hdue].
  assert (is_translate (cb t) = false) as Htr.
  { apply not_true_is_false. intros Htr. specialize (Hlate t Hin Htr). lia. }
  destruct (fire_quiet env t s I Hin Htr) as (Hj & Hfrom & _).
  rewrite IH; [done | by apply fire_TimerInv |].
  intros t' Hin' Htr'. apply Hlate; [by apply Hfrom | done].
Qed.

Lemma fired_then text s s' s'' :
  journal s'' = journal s' -> fired text s s' -> fired text s s''.
Proof. unfold journal, fired. intros [= -> -> ->]. done. Qed.

Lemma fired_from text s0 s s' :
  journal s = journal s0 -> fired text s s' -> fired text s0 s'.
Proof. unfold journal, fired. intros [= -> -> ->]. done. Qed.

(** Once the pending debounce timer is due, it fires, and it alone touches
    the journal. *)
Lemma run_timers_fires env fuel limit s text d :
  TimerInv s -> pending text d s -> (d <= limit)%Z ->
  total_weight (timers s) <= fuel ->
  fired text s (run_timers env fuel limit s).
Proof.
  revert s. induction fuel as [|fuel IH]; intros s I (tp & Hp & Hcb & Hd & Honly) Hle Hw.
  - pose proof (total_weight_remove tp _ Hp). pose proof (weight_pos (cb tp)). lia.
  - simpl. destruct (next_due limit s) as [t|] eqn:E.
    2:{ pose proof (next_due_None limit s tp E Hp). lia. }
    apply next_due_Some in E as [Hin Hdue].
    pose proof (fire_TimerInv env t s I) as I'.
    destruct (is_translate (cb t)) eqn:Htr.
    + assert (t = tp) as -> by (by apply Honly).
      destruct (fire_translate env tp s text I Hp Hcb Honly) as [Hidle Hfired].
      eapply fired_then; [|exact Hfired].
      apply run_timers_gap; [done|]. intros t' Hin' Htr'.
      by rewrite (Hidle t' Hin') in Htr'.
    + destruct (fire_quiet env t s I Hin Htr) as (Hj & Hfrom & Hto).
      eapply fired_from; [exact Hj|]. apply IH; [done| |done|].
      * exists tp. split; [apply Hto; [done|by rewrite Hcb]|].
        split; [done|]. split; [done|].
        intros t' Hin' Htr'. apply Honly; [by apply Hfrom | done].
      * pose proof (fire_weight env t s Hin). lia.
Qed.

Lemma advance_journal env dt s :
  journal (advance env dt s)
  = journal (run_timers env (total_weight (timers s)) (now s + Z.of_N dt) s).
Proof. reflexivity. Qed.

Lemma advance_gap env dt s text :
  TimerInv s -> pending text (now s + TRANSLATE_DEBOUNCE_MS) s ->
  (Z.of_N dt < TRANSLATE_DEBOUNCE_MS)%Z ->
  journal (advance env dt s) = journal s.
Proof.
  intros I (tp & Hp & Hcb & Hd & Honly) Hlt. rewrite advance_journal.
  apply run_timers_gap; [done|]. intros t Hin Htr.
  rewrite (Honly t Hin Htr), Hd. lia.
Qed.

Lemma advance_fires env dt s text :
  TimerInv s -> pending text (now s + TRANSLATE_DEBOUNCE_MS) s ->
  (TRANSLATE_DEBOUNCE_MS <= Z.of_N dt)%Z ->
  fired text s (advance env dt s).
Proof.
  intros I Hp Hle. eapply fired_then; [symmetry; apply advance_journal|].
  eapply run_timers_fires; [done | exact Hp | lia | done].
Qed.

(** *** A finalized-text update *)

Lemma append_nonempty (a b : string) : b <> "" -> (a ++ b)%string <> "".
Proof. intros Hb H. destruct a; simpl in H; [done | discriminate]. Qed.

Lemma update_arms env u s :
  TimerInv s -> final_text u <> "" ->
  let s' := step env s (ev_update u) in
  TimerInv s'
  /\ pending (finalTranscript s') (now s' + TRANSLATE_DEBOUNCE_MS) s'
  /\ finalTranscript s' = (finalTranscript s ++ final_text u)%string
  /\ lastTranslatedText s' = lastTranslatedText s
  /\ dispatched s' = dispatched s.
Proof.
  intros I Hne s'. split; [by apply step_TimerInv|].
  subst s'. unfold ev_update, final_text in *.
  change (step env s (EvResult u.1 u.2)) with (handleResult env u.1 u.2 s).
  unfold handleResult, JsString.eqb.
  rewrite (bool_decide_eq_false_2 _ Hne). cbv beta iota delta [negb].
  set (new := concat_where true (drop u.1 u.2)).
  set (s1 := set_finalTranscript _ s).
  assert (TimerInv s1) as I1 by (by apply (timers_view_inv s)).
  assert (log_view s1 = (finalTranscript s ++ new,
                         lastTranslatedText s, dispatched s, now s)%string) as L1 by done.
  clearbody s1.
  pose proof (processWordsForEmoji_log env new s1) as L2.
  pose proof (adds_timers_inv _ _ (processWordsForEmoji_adds env new s1) I1) as I2.
  revert L2 I2. generalize (processWordsForEmoji env new s1).
  intros s2 L2 I2. rewrite L1 in L2. clear L1 I1 s1.
  destruct (scheduleTranslation_arms (finalTranscript s2) s2 I2) as (_ & Hp & L3).
  revert Hp L3. generalize (scheduleTranslation (finalTranscript s2) s2). intros s3 Hp L3.
  rewrite L2 in L3. unfold log_view in L2, L3.
  injection L2 as Hf2 _ _ Hn2. injection L3 as Hf3 Hl3 Hd3 Hn3.
  set (s4 := displayOriginal _ _ s3).
  change (finalTranscript s4) with (finalTranscript s3).
  change (now s4) with (now s3).
  change (lastTranslatedText s4) with (lastTranslatedText s3).
  change (dispatched s4) with (dispatched s3).
  assert (timers s4 = timers s3) as Ht by done. clearbody s4.
  split; [|done].
  rewrite Hf3, Hn3, <- Hf2, <- Hn2.
  destruct Hp as (t & Hin & Hcb & Hd & Honly). exists t. rewrite Ht. done.
Qed.

(** ** The debounce window *)

Lemma burst_rest env rest s :
  TimerInv s ->
  pending (finalTranscript s) (now s + TRANSLATE_DEBOUNCE_MS) s ->
  finalTranscript s <> "" ->
  Forall (fun gu => (Z.of_N (fst gu) < TRANSLATE_DEBOUNCE_MS)%Z
                    /\ final_text (snd gu) <> "") rest ->
  let s' := run env (flat_map (fun gu => [EvAdvance (fst gu); ev_update (snd gu)]) rest) s in
  TimerInv s'
  /\ pending (finalTranscript s') (now s' + TRANSLATE_DEBOUNCE_MS) s'
  /\ finalTranscript s' <> ""
  /\ finalTranscript s' = grown s (snd <$> rest)
  /\ lastTranslatedText s' = lastTranslatedText s
  /\ dispatched s' = dispatched s.
Proof.
  revert s. induction rest as [|[dt u] rest IH]; intros s I Hp Hne Hall.
  { unfold grown. simpl. done. }
  apply Forall_cons in Hall as [[Hdt Hu] Hall]. simpl in Hdt, Hu.
  pose proof (advance_gap env dt s _ I Hp Hdt) as Hj.
  pose proof (step_TimerInv env s (EvAdvance dt) I) as Ia.
  change (step env s (EvAdvance dt)) with (advance env dt s) in Ia.
  match goal with
  | |- context [run env (flat_map ?f ((dt, u) :: rest)) s] =>
      change (run env (flat_map f ((dt, u) :: rest)) s)
        with (run env (flat_map f rest) (step env (advance env dt s) (ev_update u)))
  end.
  revert Hj Ia. generalize (advance env dt s). intros sa Hj Ia.
  unfold journal in Hj. injection Hj as Hf Hl Hd.
  destruct (update_arms env u sa Ia Hu) as (Iu & Hpu & Hfu & Hlu & Hdu).
  revert Iu Hpu Hfu Hlu Hdu. generalize (step env sa (ev_update u)).
  intros su Iu Hpu Hfu Hlu Hdu.
  assert (finalTranscript su <> "") as Hneu by (rewrite Hfu; by apply append_nonempty).
  destruct (IH su Iu Hpu Hneu Hall) as (I' & Hp' & Hne' & Hf' & Hl' & Hd').
  split; [done|]. split; [done|]. split; [done|].
  split; [|split; congruence].
  rewrite Hf'. unfold grown. simpl. by rewrite Hfu, Hf.
Qed.




(** * Further properties *)

(** ** The dispatcher *)

Lemma at_most_one {A} (l : list A) :
  NoDup l -> (forall x y, x ∈ l -> y ∈ l -> x = y) -> length l <= 1.
Proof.
  destruct l as [|a [|b l]]; simpl; [lia | lia |].
  intros Hnd Hall. exfalso.
  apply NoDup_cons in Hnd as [Ha _]. apply Ha.
  rewrite (Hall a b); [by left | by left | right; by left].
Qed.

(** X1.  In every state the page can reach at most one debounce timer is
    pending, and [translateTimer] holds its handle. *)
Theorem one_debounce_window env lang evs :
  length (debounce_timers (run env evs (init lang))) <= 1
  /\ Forall (fun t => translateTimer (run env evs (init lang)) = Some (tid t))
       (debounce_timers (run env evs (init lang))).
Proof.
  pose proof (TimerInv_run env lang evs) as I.
  revert I. generalize (run env evs (init lang)). intros s [Hnd Hal Hha].
  unfold debounce_timers. split.
  - apply at_most_one.
    + apply NoDup_filter. by apply (NoDup_fmap_1 tid).
    + intros x y [Hx Hinx]%list_elem_of_filter [Hy Hiny]%list_elem_of_filter.
      apply (tid_inj (timers s)); try done.
      pose proof (Hha x Hinx Hx) as H1. pose proof (Hha y Hiny Hy) as H2.
      congruence.
  - apply Forall_forall. intros t [Ht Hin]%list_elem_of_filter. by apply Hha.
Qed.

(** X2.  [translateText] never rejects.  It fulfils with the translated
    text when the body is an object whose [responseStatus] is the number
    200 and whose [responseData] is an object with a truthy
    [translatedText]; in every other case -- the request failed, the status
    was not ok, the body was no JSON or not of that shape -- it fulfils
    with [null].  So its value is [null] or truthy. *)
Theorem translateText_null_or_translation o :
  translateText o
  = Fulfilled (match translated o with Some v => v | None => VNull end)
  /\ (forall v, translateText o = Fulfilled v -> v = VNull \/ truthy v = true)
  /\ (forall status, translateText (HttpError status) = Fulfilled VNull)
  /\ translateText FetchRejected = Fulfilled VNull
  /\ translateText BodyInvalid = Fulfilled VNull
  /\ translateText (Body VNull) = Fulfilled VNull.
Proof.
  assert (translateText o
          = Fulfilled (match translated o with Some v => v | None => VNull end)) as E.
  { rewrite translateText_translated. by destruct (translated o). }
  split; [exact E|]. split; [|done].
  intros v. rewrite E. intros [= <-].
  destruct (translated o) as [w|] eqn:Hw; [right | by left].
  by apply (translated_truthy o).
Qed.

(** ** The tokens of the scanner *)

Lemma lower_char_idem c : JsString.lower_char (JsString.lower_char c) = JsString.lower_char c.
Proof. destruct c as [[] [] [] [] [] [] [] []]; reflexivity. Qed.

Lemma is_punct_lower c : JsString.is_punct (JsString.lower_char c) = JsString.is_punct c.
Proof. destruct c as [[] [] [] [] [] [] [] []]; reflexivity. Qed.

Lemma toLowerCase_idem s : JsString.toLowerCase (JsString.toLowerCase s) = JsString.toLowerCase s.
Proof. induction s as [|c s IH]; simpl; [done|]. by rewrite lower_char_idem, IH. Qed.

Lemma strip_punct_lower s :
  JsString.strip_punct (JsString.toLowerCase s)
  = JsString.toLowerCase (JsString.strip_punct s).
Proof.
  induction s as [|c s IH]; simpl; [done|]. rewrite is_punct_lower.
  destruct (JsString.is_punct c); simpl; by rewrite IH.
Qed.

Lemma strip_punct_idem s :
  JsString.strip_punct (JsString.strip_punct s) = JsString.strip_punct s.
Proof.
  induction s as [|c s IH]; simpl; [done|].
  destruct (JsString.is_punct c) eqn:E; simpl; [done|]. by rewrite E, IH.
Qed.


Lemma units_app a b : units (a ++ b) = units a ++ units b.
Proof. induction a as [|c a IH]; simpl; [done|]. unfold units in *. simpl. by rewrite IH. Qed.

(** The pieces of a split hold code units of the text, and no white space. *)
Lemma split_go_units (P : ascii -> Prop) s cur b :
  Forall P (units cur) -> Forall P (units s) ->
  (forall c, c ∈ units cur -> JsString.is_space c = false) ->
  Forall (fun w => Forall (fun c => P c /\ JsString.is_space c = false) (units w))
    (JsString.split_go s cur b).
Proof.
  revert cur b. induction s as [|c s IH]; intros cur b Hcur Hs Hsp; simpl.
  - apply Forall_cons. split; [|by apply Forall_nil].
    apply Forall_forall. intros x Hx. split; [|by apply Hsp].
    rewrite Forall_forall in Hcur. by apply Hcur.
  - unfold units in Hs. simpl in Hs. apply Forall_cons in Hs as [Hc Hs].
    assert (Forall (fun c => P c /\ JsString.is_space c = false) (units cur)) as Hok.
    { apply Forall_forall. intros x Hx. split; [|by apply Hsp].
      rewrite Forall_forall in Hcur. by apply Hcur. }
    assert (forall bb, Forall (fun w => Forall (fun c => P c /\ JsString.is_space c = false) (units w))
                         (JsString.split_go s EmptyString bb)) as Hrest.
    { intros bb. apply IH; [by apply Forall_nil | done |].
      intros x Hx. by apply elem_of_nil in Hx. }
    destruct (JsString.is_space c) eqn:E.
    + destruct b; [apply Hrest|]. apply Forall_cons. split; [done | apply Hrest].
    + apply IH; [| done |].
      * rewrite units_app. apply Forall_app. split; [done|]. by repeat constructor.
      * intros x. rewrite units_app, elem_of_app. intros [Hx|Hx]; [by apply Hsp|].
        apply list_elem_of_singleton in Hx. by subst.
Qed.

Lemma units_strip_lower text :
  Forall (fun c => JsString.is_punct c = false /\ JsString.lower_char c = c)
    (units (JsString.strip_punct (JsString.toLowerCase text))).
Proof.
  induction text as [|c s IH]; simpl; [by apply Forall_nil|].
  destruct (JsString.is_punct (JsString.lower_char c)) eqn:E; [done|].
  unfold units. simpl. apply Forall_cons. split; [|done].
  split; [done | apply lower_char_idem].
Qed.

(** X4.  Every token the scanner looks up has at least two code units,
    holds no white space and none of the stripped punctuation marks, and is
    in lower case. *)
Theorem tokens_are_clean text w :
  w ∈ words_of text ->
  2 <= String.length w /\ Forall token_unit (units w).
Proof.
  unfold words_of. intros [Hlen Hin]%list_elem_of_filter. split; [lia|].
  pose proof (split_go_units _ _ EmptyString false (Forall_nil_2 _)
                (units_strip_lower text)) as Hall.
  rewrite Forall_forall in Hall. specialize (Hall (fun c Hc => False_ind _ (proj1 (elem_of_nil c) Hc)) w Hin).
  eapply Forall_impl; [exact Hall|]. intros c [[Hp Hl] Hs]. done.
Qed.

Lemma tokens_are_clean_witness :
  "liebe" ∈ words_of "Ich LIEBE, das!"
  /\ 2 <= String.length "liebe" /\ Forall token_unit (units "liebe").
Proof.
  assert (H : "liebe" ∈ words_of "Ich LIEBE, das!").
  { change (words_of "Ich LIEBE, das!") with ["ich"; "liebe"; "das"]. right. by left. }
  split; [exact H|]. exact (tokens_are_clean "Ich LIEBE, das!" "liebe" H).
Defined.

(** ** What the page shows *)

Lemma PageInv_view s s' : page_view s' = page_view s -> PageInv s -> PageInv s'.
Proof.
  unfold page_view, PageInv, MoodInv, UiInv, ShownInv, SentInv.
  intros [= -> -> -> -> -> -> -> -> -> ->]. done.
Qed.

Ltac peel_page :=
  repeat first
    [ progress autorewrite with page
    | match goal with
      | |- context [page_view (?f ?s)] =>
          progress change (page_view (f s)) with (page_view s)
      end ].

Lemma showToast_page m s : page_view (showToast m s) = page_view s.
Proof. reflexivity. Qed.
Lemma setTimeout_page c d s : page_view (snd (setTimeout c d s)) = page_view s.
Proof. reflexivity. Qed.
Lemma updateTranslationCards_page s : page_view (updateTranslationCards s) = page_view s.
Proof. unfold updateTranslationCards. by rewrite fold_left_view. Qed.
Lemma clearTimeout_page h s : page_view (clearTimeout h s) = page_view s.
Proof. unfold clearTimeout. by case_match. Qed.
Lemma scheduleTranslation_page t s : page_view (scheduleTranslation t s) = page_view s.
Proof.
  unfold scheduleTranslation. rewrite <- (clearTimeout_page (translateTimer s) s).
  generalize (clearTimeout (translateTimer s) s). done.
Qed.
Lemma translateAll_resume_page b rs s :
  page_view (translateAll_resume b rs s) = page_view s.
Proof.
  unfold translateAll_resume. rewrite fold_left_view; [done|].
  intros x lr. unfold show_result. by repeat case_match.
Qed.
Lemma settle_page b os s : page_view (settle b os s) = page_view s.
Proof.
  unfold settle. repeat case_match; try done. by rewrite translateAll_resume_page.
Qed.
Lemma clear_cards_page s : page_view (clear_cards s) = page_view s.
Proof.
  unfold clear_cards. generalize (translationCards s). intros m.
  induction m as [|l el m Hl Hfold IH] using map_first_key_ind.
  - by rewrite map_fold_empty.
  - rewrite map_fold_insert_first_key by done. by rewrite <- IH.
Qed.
Lemma removeOldestEmoji_page s : page_view (removeOldestEmoji s) = page_view s.
Proof. unfold removeOldestEmoji. by case_match. Qed.
Lemma addEmojiParticle_page env v s : page_view (addEmojiParticle env v s) = page_view s.
Proof.
  unfold addEmojiParticle. fold (evict s).
  transitivity (page_view (evict s)); [reflexivity|].
  unfold evict. case_match; [apply removeOldestEmoji_page | done].
Qed.
Lemma addTextParticle_page w s : page_view (addTextParticle w s) = page_view s.
Proof. unfold addTextParticle. by case_match. Qed.
Lemma float_due_page span s : page_view (float_due span s) = page_view s.
Proof. unfold float_due. by case_match. Qed.
Lemma fade_due_page span s : page_view (fade_due span s) = page_view s.
Proof. unfold fade_due. by case_match. Qed.
Lemma text_fade_due_page span s : page_view (text_fade_due span s) = page_view s.
Proof. unfold text_fade_due. by case_match. Qed.
Lemma remove_due_page span s : page_view (remove_due span s) = page_view s.
Proof. unfold remove_due. by case_match. Qed.
#[local] Hint Rewrite showToast_page setTimeout_page updateTranslationCards_page
  clearTimeout_page scheduleTranslation_page
  translateAll_resume_page settle_page clear_cards_page removeOldestEmoji_page
  addEmojiParticle_page addTextParticle_page float_due_page fade_due_page
  text_fade_due_page remove_due_page : page.

(** *** The mood *)

Lemma cl_add_has c cl : cl_contains c (cl_add c cl) = true.
Proof.
  unfold cl_add. destruct (cl_contains c cl) eqn:E; [done|].
  apply cl_contains_true. apply elem_of_app. right. by left.
Qed.

Lemma cl_add_other c d cl : c <> d -> cl_contains c (cl_add d cl) = cl_contains c cl.
Proof.
  intros Hne. unfold cl_add. destruct (cl_contains d cl); [done|].
  destruct (cl_contains c cl) eqn:E.
  - apply cl_contains_true. apply elem_of_app. left. by apply cl_contains_true.
  - apply not_true_is_false. rewrite cl_contains_true, elem_of_app.
    intros [H|H%list_elem_of_singleton]; [|done].
    apply cl_contains_true in H. congruence.
Qed.

(** [updateMood] shows the mood of the scores, whatever was shown before. *)
Lemma updateMood_shows s :
  cl_contains "mood-positive" (emojiZone_classList (updateMood s))
  = (2 <? positiveScore s - negativeScore s)%Z
  /\ cl_contains "mood-negative" (emojiZone_classList (updateMood s))
     = (positiveScore s - negativeScore s <? -2)%Z.
Proof.
  unfold updateMood.
  destruct (2 <? positiveScore s - negativeScore s)%Z eqn:Hp; simpl.
  - apply Z.ltb_lt in Hp.
    assert ((positiveScore s - negativeScore s <? -2)%Z = false) as ->
        by (apply Z.ltb_ge; lia).
    split; [apply cl_add_has|].
    rewrite cl_add_other by done. apply cl_remove_absent.
  - destruct (positiveScore s - negativeScore s <? -2)%Z eqn:Hn; simpl.
    + split; [|apply cl_add_has].
      rewrite cl_add_other by done. apply cl_remove_other, cl_remove_absent.
    + split; [apply cl_remove_other, cl_remove_absent | apply cl_remove_absent].
Qed.

Lemma scan_word_scores env s w :
  positiveScore (scan_word env s w)
  = (positiveScore s + if bool_decide (w ∈ POSITIVE_WORDS env) then 1 else 0)%Z
  /\ negativeScore (scan_word env s w)
     = (negativeScore s + if bool_decide (w ∈ NEGATIVE_WORDS env) then 1 else 0)%Z.
Proof.
  unfold scan_word.
  set (s1 := if bool_decide (w ∈ POSITIVE_WORDS env) then _ else s).
  set (s2 := if bool_decide (w ∈ NEGATIVE_WORDS env) then _ else s1).
  assert (positiveScore s2
          = (positiveScore s + if bool_decide (w ∈ POSITIVE_WORDS env) then 1 else 0)%Z
          /\ negativeScore s2
             = (negativeScore s + if bool_decide (w ∈ NEGATIVE_WORDS env) then 1 else 0)%Z)
    as [<- <-].
  { subst s2 s1. repeat case_bool_decide; simpl; split; lia. }
  clearbody s2. clear s1. repeat case_match.
  - apply addEmojiParticle_scores.
  - unfold addTextParticle. by case_match.
  - done.
Qed.

Lemma scan_words_scores env ws s :
  positiveScore (fold_left (scan_word env) ws s)
  = (positiveScore s
     + Z.of_nat (length (filter (fun w => w ∈ POSITIVE_WORDS env) ws)))%Z
  /\ negativeScore (fold_left (scan_word env) ws s)
     = (negativeScore s
        + Z.of_nat (length (filter (fun w => w ∈ NEGATIVE_WORDS env) ws)))%Z.
Proof.
  revert s. induction ws as [|w ws IH]; intros s; simpl; [split; lia|].
  destruct (IH (scan_word env s w)) as [-> ->].
  destruct (scan_word_scores env s w) as [-> ->].
  rewrite !filter_cons. repeat case_bool_decide; repeat case_decide; simpl; try done; split; lia.
Qed.

Lemma scan_combos_scores env lowerText l s :
  positiveScore (fold_left (scan_combo env lowerText) l s) = positiveScore s
  /\ negativeScore (fold_left (scan_combo env lowerText) l s) = negativeScore s.
Proof.
  revert s. induction l as [|k l IH]; intros s; simpl; [done|].
  destruct (IH (scan_combo env lowerText s k)) as [-> ->].
  unfold scan_combo. case_match; [apply addEmojiParticle_scores | done].
Qed.

Lemma sentiment_counts_tokens_aux env text s :
  positiveScore (processWordsForEmoji env text s)
  = (positiveScore s
     + Z.of_nat (length (filter (fun w => w ∈ POSITIVE_WORDS env) (words_of text))))%Z
  /\ negativeScore (processWordsForEmoji env text s)
     = (negativeScore s
        + Z.of_nat (length (filter (fun w => w ∈ NEGATIVE_WORDS env) (words_of text))))%Z.
Proof.
  unfold processWordsForEmoji.
  set (s1 := fold_left (scan_combo env _) _ s).
  destruct (scan_combos_scores env (JsString.toLowerCase text) (combos env) s) as [H1 H2].
  fold s1 in H1, H2. clearbody s1.
  set (s2 := fold_left (scan_word env) _ s1).
  destruct (scan_words_scores env (words_of text) s1) as [H3 H4].
  fold s2 in H3, H4. clearbody s2.
  destruct (updateMood_scores s2) as (-> & -> & _). rewrite H3, H4, H1, H2. done.
Qed.

(** X5.  One scan adds to each score the number of tokens its word set
    holds; a word that comes twice counts twice, and nothing is taken off. *)
Theorem sentiment_counts_tokens env text s :
  positiveScore (processWordsForEmoji env text s)
  = (positiveScore s
     + Z.of_nat (length (filter (fun w => w ∈ POSITIVE_WORDS env) (words_of text))))%Z
  /\ negativeScore (processWordsForEmoji env text s)
     = (negativeScore s
        + Z.of_nat (length (filter (fun w => w ∈ NEGATIVE_WORDS env) (words_of text))))%Z.
Proof. apply sentiment_counts_tokens_aux. Qed.

(** *** What a batch holds *)

Lemma substring_all s : String.substring 0 (String.length s) s = s.
Proof. induction s as [|c s IH]; simpl; [done|]. by rewrite IH. Qed.

(** The code units from position [k] on are a suffix. *)
Lemma substring_suffix s k :
  k <= String.length s ->
  String.length (String.substring k (String.length s - k) s) = String.length s - k
  /\ exists front, s = (front ++ String.substring k (String.length s - k) s)%string.
Proof.
  revert k. induction s as [|c s IH]; intros k Hk; simpl in *.
  - destruct k; simpl; [|lia]. split; [done|]. by exists "".
  - destruct k as [|k].
    + change (S (String.length s) - 0) with (S (String.length s)). simpl.
      rewrite substring_all. split; [done|]. by exists "".
    + destruct (IH k) as [Hlen [front Hf]]; [lia|].
      split; [done|]. exists (String c front).
      change (S (String.length s) - S k) with (String.length s - k).
      change (String.substring (S k) (String.length s - k) (String c s))
        with (String.substring k (String.length s - k) s).
      change (String c s = String c (front ++ String.substring k (String.length s - k) s)%string).
      by rewrite <- Hf.
Qed.

Lemma translateAll_well_sent text s :
  text <> "" ->
  exists b, dispatched (translateAll text s) = dispatched s ++ [b] /\ well_sent b.
Proof.
  intros Hne. unfold translateAll. simpl. eexists. split; [reflexivity|].
  unfold well_sent. simpl. split; [done|].
  destruct (200 <? String.length text)%nat eqn:E.
  - apply Nat.ltb_lt in E. unfold JsString.slice_last.
    destruct (substring_suffix text (String.length text - 200)) as [Hlen Hf]; [lia|].
    replace (String.length text - (String.length text - 200)) with 200 in * by lia.
    split; [lia|]. split; [done|].
    intros l. unfold targetLangs. rewrite list_elem_of_filter. tauto.
  - apply Nat.ltb_ge in E. split; [lia|]. split; [by exists ""|].
    intros l. unfold targetLangs. rewrite list_elem_of_filter. tauto.
Qed.

(** *** The invariant *)

Lemma translate_due_PageInv text s : PageInv s -> PageInv (translate_due text s).
Proof.
  intros (Hm & Hu & Hs & Hd). unfold translate_due, JsString.eqb.
  case_bool_decide as H1; simpl; [done|].
  case_bool_decide as H2; simpl; [done|].
  destruct (translateAll_well_sent text (set_lastTranslatedText text s) H1)
    as (b & Hb & Hwb).
  split; [exact Hm|]. split; [exact Hu|]. split; [exact Hs|].
  unfold SentInv. rewrite Hb. apply Forall_app. split; [exact Hd|]. by constructor.
Qed.

Lemma stopListening_PageInv s : PageInv s -> PageInv (stopListening s).
Proof.
  intros (Hm & Hu & Hs & Hd). split; [exact Hm|]. split; [|split; [exact Hs | exact Hd]].
  by split.
Qed.

Lemma startListening_PageInv env s : PageInv s -> PageInv (startListening env s).
Proof.
  intros I. unfold startListening. case_match; [|by apply (PageInv_view s)].
  case_match eqn:E.
  - unfold recognition_start in E. case_match; simplify_eq.
    eapply PageInv_view; [apply updateTranslationCards_page|].
    destruct I as (Hm & Hu & Hs & Hd).
    split; [exact Hm|]. split; [by split|]. split; [exact Hs | exact Hd].
  - by apply (PageInv_view s).
Qed.

Lemma toggleMic_PageInv env s : PageInv s -> PageInv (toggleMic env s).
Proof.
  unfold toggleMic. case_match; [apply stopListening_PageInv | apply startListening_PageInv].
Qed.

Lemma handleError_PageInv e s : PageInv s -> PageInv (handleError e s).
Proof.
  intros I. unfold handleError. repeat case_match.
  - apply stopListening_PageInv. by apply (PageInv_view s).
  - done.
  - by apply (PageInv_view s).
Qed.

Lemma cleared_PageInv s :
  PageInv s ->
  PageInv (clearEmojis (displayOriginal "" ""
             (set_lastTranslatedText "" (set_finalTranscript "" s)))).
Proof.
  intros (Hm & Hu & Hs & Hd).
  split; [|split; [exact Hu | split; [reflexivity | exact Hd]]].
  unfold MoodInv. simpl.
  split; [apply cl_remove_other, cl_remove_absent|].
  split; [apply cl_remove_absent | done].
Qed.

Lemma handleLangChange_PageInv s : PageInv s -> PageInv (handleLangChange s).
Proof.
  intros I. unfold handleLangChange.
  assert (PageInv (updateTranslationCards (set_sourceLang (langSelect s) s))) as I1.
  { apply (PageInv_view s); [|done]. by rewrite updateTranslationCards_page. }
  revert I1. generalize (updateTranslationCards (set_sourceLang (langSelect s) s)).
  intros s1 I1. pose proof (cleared_PageInv s1 I1) as I2.
  revert I2. generalize (clearEmojis (displayOriginal "" ""
             (set_lastTranslatedText "" (set_finalTranscript "" s1)))).
  intros s2 I2. case_match; [|done]. by apply (PageInv_view s2).
Qed.

Lemma keydown_PageInv env e s : PageInv s -> PageInv (keydown env e s).
Proof.
  intros I. unfold keydown.
  set (s1 := if _ && _ then toggleMic env s else s).
  assert (PageInv s1) as I1 by (subst s1; case_match; [by apply toggleMic_PageInv | done]).
  clearbody s1.
  set (s2 := if _ && isListening s1 then _ else s1).
  assert (PageInv s2) as I2 by (subst s2; case_match; [by apply stopListening_PageInv | done]).
  clearbody s2. case_match; [|done].
  eapply PageInv_view; [apply clear_cards_page|]. by apply cleared_PageInv.
Qed.

Lemma addEmojiParticle_calm env v s : calm_view (addEmojiParticle env v s) = calm_view s.
Proof.
  unfold addEmojiParticle. fold (evict s).
  transitivity (calm_view (evict s)); [reflexivity|].
  unfold evict, removeOldestEmoji. by repeat case_match.
Qed.

Lemma processWordsForEmoji_calm env text s :
  calm_view (processWordsForEmoji env text s) = calm_view s.
Proof.
  unfold processWordsForEmoji.
  assert (forall x, calm_view (updateMood x) = calm_view x) as ->
      by (intros; unfold updateMood; by repeat case_match).
  rewrite fold_left_view.
  - rewrite fold_left_view; [done|]. intros x c. unfold scan_combo.
    case_match; [apply addEmojiParticle_calm | done].
  - intros x w. unfold scan_word.
    set (x1 := if bool_decide (w ∈ POSITIVE_WORDS env) then _ else x).
    set (x2 := if bool_decide (w ∈ NEGATIVE_WORDS env) then _ else x1).
    assert (calm_view x2 = calm_view x) as <-.
    { subst x2 x1. by repeat case_match. }
    clearbody x2. clear x1. repeat case_match.
    + apply addEmojiParticle_calm.
    + unfold addTextParticle. by case_match.
    + done.
Qed.

Lemma processWordsForEmoji_MoodInv env text s :
  MoodInv s -> MoodInv (processWordsForEmoji env text s).
Proof.
  intros (_ & _ & Hp & Hn).
  destruct (sentiment_counts_tokens_aux env text s) as [Ep En].
  unfold MoodInv. rewrite Ep, En. unfold processWordsForEmoji in *.
  set (s2 := fold_left (scan_word env) _ _) in *.
  destruct (updateMood_shows s2) as [-> ->].
  destruct (updateMood_scores s2) as (Hp2 & Hn2 & _). rewrite Hp2 in Ep. rewrite Hn2 in En.
  rewrite Ep, En. repeat split; lia.
Qed.

Lemma handleResult_PageInv env i rs s : PageInv s -> PageInv (handleResult env i rs s).
Proof.
  intros (Hm & Hu & Hs & Hd). unfold handleResult.
  set (new := concat_where true (drop i rs)).
  destruct (negb (JsString.eqb new "")).
  2:{ split; [exact Hm|]. split; [exact Hu|]. split; [reflexivity | exact Hd]. }
  set (s1 := set_finalTranscript _ s).
  assert (MoodInv s1 /\ UiInv s1 /\ SentInv s1) as (Hm1 & Hu1 & Hd1) by done.
  clearbody s1. clear Hm Hu Hs Hd.
  pose proof (processWordsForEmoji_MoodInv env new s1 Hm1) as Hm2.
  pose proof (processWordsForEmoji_calm env new s1) as Hc.
  revert Hm2 Hc. generalize (processWordsForEmoji env new s1). intros s2 Hm2 Hc.
  unfold calm_view in Hc. injection Hc as Hl Hch Hf Hdd.
  assert (UiInv s2 /\ SentInv s2) as [Hu2 Hd2].
  { unfold UiInv, SentInv. rewrite Hl, Hch, Hdd. done. }
  pose proof (scheduleTranslation_page (finalTranscript s2) s2) as Hv.
  revert Hv. generalize (scheduleTranslation (finalTranscript s2) s2). intros s3 Hv.
  unfold page_view in Hv. injection Hv as E1 E2 E3 E4 E5 E6 _ _ E9 E10.
  assert (MoodInv s3 /\ UiInv s3 /\ SentInv s3) as (Hm3 & Hu3 & Hd3).
  { unfold MoodInv, UiInv, SentInv. rewrite E1, E2, E3, E4, E5, E6, E9, E10. done. }
  split; [exact Hm3|]. split; [exact Hu3|]. split; [reflexivity | exact Hd3].
Qed.

(** The recogniser has ended: [handleEnd] starts it again if the page
    listens. *)
Lemma ended_PageInv s :
  PageInv s -> PageInv (handleEnd (on_chrome (set_recognition_started false) s)).
Proof.
  intros (Hm & (Hu1 & Hu2 & _) & Hs & Hd). unfold handleEnd.
  change (isListening (on_chrome (set_recognition_started false) s)) with (isListening s).
  destruct (isListening s) eqn:El.
  - split; [exact Hm|]. split; [|split; [exact Hs | exact Hd]].
    split; [by rewrite <- El in Hu1|]. split; [by rewrite <- El in Hu2 | done].
  - split; [exact Hm|]. split; [|split; [exact Hs | exact Hd]].
    split; [by rewrite <- El in Hu1|]. split; [by rewrite <- El in Hu2|].
    intros H. change (isListening s = true) in H. congruence.
Qed.

Lemma run_callback_PageInv env c s : PageInv s -> PageInv (run_callback env c s).
Proof.
  intros I. destruct c; simpl.
  - done.
  - by apply startListening_PageInv.
  - by apply translate_due_PageInv.
  - apply (PageInv_view s); [apply float_due_page | done].
  - apply (PageInv_view s); [apply fade_due_page | done].
  - apply (PageInv_view s); [apply text_fade_due_page | done].
  - apply (PageInv_view s); [apply remove_due_page | done].
Qed.

Lemma fire_PageInv env t s : PageInv s -> PageInv (fire env t s).
Proof. intros I. unfold fire. by apply run_callback_PageInv. Qed.

Lemma run_timers_PageInv env fuel limit s :
  PageInv s -> PageInv (run_timers env fuel limit s).
Proof.
  revert s. induction fuel as [|fuel IH]; intros s I; simpl; [done|].
  case_match; [|done]. by apply IH, fire_PageInv.
Qed.

Lemma step_PageInv env s ev : PageInv s -> PageInv (step env s ev).
Proof.
  intros I. destruct ev; simpl.
  - unfold advance.
    pose proof (run_timers_PageInv env (total_weight (timers s)) (now s + Z.of_N dt) s I) as I1.
    revert I1. generalize (run_timers env (total_weight (timers s)) (now s + Z.of_N dt) s).
    by intros s1 I1.
  - by apply toggleMic_PageInv.
  - by apply handleLangChange_PageInv.
  - by apply keydown_PageInv.
  - by apply handleResult_PageInv.
  - by apply handleError_PageInv.
  - by apply ended_PageInv.
  - apply (PageInv_view s); [apply settle_page | done].
Qed.

Lemma PageInv_init lang : PageInv (init lang).
Proof.
  unfold init.
  match goal with |- PageInv (setStatus _ _ (updateTranslationCards ?x)) => set (s0 := x) end.
  assert (PageInv s0) as I0.
  { repeat split; simpl; try done. constructor. }
  assert (isListening s0 = false) as H0 by done.
  clearbody s0.
  pose proof (PageInv_view s0 _ (updateTranslationCards_page s0) I0) as I1.
  pose proof (updateTranslationCards_page s0) as Hv.
  revert I1 Hv. generalize (updateTranslationCards s0). intros s1 (Hm & Hu & Hs & Hd) Hv.
  unfold page_view in Hv. injection Hv as _ _ _ Hl _ _ _ _ _ _.
  split; [exact Hm|]. split; [|split; [exact Hs | exact Hd]].
  destruct Hu as (Hu1 & Hu2 & Hu3). split; [exact Hu1|].
  split; [|exact Hu3]. change (false = isListening s1). by rewrite Hl.
Qed.

Lemma PageInv_run env lang evs : PageInv (run env evs (init lang)).
Proof.
  unfold run. generalize (PageInv_init lang). generalize (init lang).
  induction evs as [|ev evs IH]; intros s I; simpl; [done|].
  by apply IH, step_PageInv.
Qed.

(** X6.  At every moment the mood the zone shows is the one the two
    counters give: positive exactly when they differ by more than two in
    favour of the positive one, negative exactly when by more than two the
    other way; and no counter is ever below zero. *)
Theorem mood_follows_scores env lang evs :
  let s := run env evs (init lang) in
  cl_contains "mood-positive" (emojiZone_classList s)
  = (2 <? positiveScore s - negativeScore s)%Z
  /\ cl_contains "mood-negative" (emojiZone_classList s)
     = (positiveScore s - negativeScore s <? -2)%Z
  /\ (0 <= positiveScore s)%Z /\ (0 <= negativeScore s)%Z.
Proof. intros s. exact (proj1 (PageInv_run env lang evs)). Qed.

(** X7.  The microphone button is lit and the status is marked live exactly
    while the page is listening. *)
Theorem controls_show_listening env lang evs :
  let s := run env evs (init lang) in
  micBtn_active (chrome s) = isListening s /\ status_live (chrome s) = isListening s.
Proof.
  intros s. destruct (proj1 (proj2 (PageInv_run env lang evs))) as (H1 & H2 & _).
  by split.
Qed.

(** X10.  While the page listens the recogniser is started: when it ends
    on its own, it is started again at once. *)
Theorem listening_keeps_recogniser_started env lang evs :
  isListening (run env evs (init lang)) = true ->
  recognition_started (chrome (run env evs (init lang))) = true.
Proof.
  destruct (proj1 (proj2 (PageInv_run env lang evs))) as (_ & _ & H3). exact H3.
Qed.

Lemma listening_keeps_recogniser_started_witness :
  isListening (run demo_env [EvClickMic; EvEnd] (init "de")) = true
  /\ recognition_started (chrome (run demo_env [EvClickMic; EvEnd] (init "de"))) = true.
Proof.
  assert (H : isListening (run demo_env [EvClickMic; EvEnd] (init "de")) = true)
    by (vm_compute; reflexivity).
  split; [exact H|].
  exact (listening_keeps_recogniser_started demo_env "de" [EvClickMic; EvEnd] H).
Defined.

(** X8.  The final part of the transcript on the page is always the whole
    of what has been accumulated. *)
Theorem page_shows_whole_transcript env lang evs :
  let s := run env evs (init lang) in
  fst (originalText (chrome s)) = finalTranscript s.
Proof. intros s. exact (proj1 (proj2 (proj2 (PageInv_run env lang evs)))). Qed.

(** X9.  Every batch ever sent asks for a text that is not empty, carries
    the last 200 code units of it (all of it when it is shorter), and names
    each configured language other than its source language, and no other. *)
Theorem batches_are_well_formed env lang evs b :
  b ∈ dispatched (run env evs (init lang)) ->
  b_text b <> ""
  /\ String.length (b_trimmed b) = Nat.min (String.length (b_text b)) 200
  /\ (exists front, b_text b = (front ++ b_trimmed b)%string)
  /\ forall l, l ∈ b_targets b <-> l ∈ ALL_LANGS /\ l <> b_from b.
Proof.
  intros Hb.
  pose proof (proj2 (proj2 (proj2 (PageInv_run env lang evs)))) as Hd.
  unfold SentInv in Hd. rewrite Forall_forall in Hd. exact (Hd b Hb).
Qed.

Lemma batches_are_well_formed_witness :
  {| bid := 0; b_text := "hallo welt"; b_trimmed := "hallo welt"; b_from := "de";
     b_targets := ["en"; "fr"; "es"] |}
    ∈ dispatched (run demo_env [said "hallo welt"; EvAdvance 800] (init "de"))
  /\ String.length "hallo welt" = Nat.min (String.length "hallo welt") 200.
Proof.
  assert (H : {| bid := 0; b_text := "hallo welt"; b_trimmed := "hallo welt";
                 b_from := "de"; b_targets := ["en"; "fr"; "es"] |}
              ∈ dispatched (run demo_env [said "hallo welt"; EvAdvance 800] (init "de"))).
  { replace (dispatched (run demo_env [said "hallo welt"; EvAdvance 800] (init "de")))
      with [{| bid := 0; b_text := "hallo welt"; b_trimmed := "hallo welt";
               b_from := "de"; b_targets := ["en"; "fr"; "es"] |}]
      by (vm_compute; reflexivity).
    constructor. }
  split; [exact H|].
  exact (proj1 (proj2 (batches_are_well_formed demo_env "de"
                         [said "hallo welt"; EvAdvance 800] _ H))).
Defined.

(** ** The translation cards, rebuilt and cleared *)

Lemma add_cards_spec ls : forall s,
  NoDup ls ->
  translationZone (fold_left add_card ls s)
  = translationZone s ++ seq (next_card s) (length ls)
  /\ next_card (fold_left add_card ls s) = next_card s + length ls
  /\ (forall i l, ls !! i = Some l ->
        translationCards (fold_left add_card ls s) !! l = Some (next_card s + i))
  /\ (forall l, l ∉ ls ->
        translationCards (fold_left add_card ls s) !! l = translationCards s !! l)
  /\ (forall el, next_card s <= el < next_card s + length ls ->
        cards (fold_left add_card ls s) !! el = Some (VStr ""))
  /\ (forall el, el < next_card s ->
        cards (fold_left add_card ls s) !! el = cards s !! el).
Proof.
  induction ls as [|l ls IH]; intros s Hnd.
  - simpl. rewrite app_nil_r. repeat split; try done; try lia.
  - apply NoDup_cons in Hnd as [Hl Hnd]. simpl fold_left.
    assert (translationZone (add_card s l) = translationZone s ++ [next_card s]) as Ez
        by reflexivity.
    assert (next_card (add_card s l) = S (next_card s)) as En by reflexivity.
    assert (translationCards (add_card s l) = <[l := next_card s]> (translationCards s))
      as Et by reflexivity.
    assert (cards (add_card s l) = <[next_card s := VStr ""]> (cards s)) as Ec
        by reflexivity.
    destruct (IH (add_card s l) Hnd) as (Hz & Hn & Hi & Ho & Hb & Hk).
    revert Ez En Et Ec Hz Hn Hi Ho Hb Hk.
    generalize (fold_left add_card ls (add_card s l)). generalize (add_card s l).
    intros s1 s2 Ez En Et Ec Hz Hn Hi Ho Hb Hk.
    rewrite Ez, En in *. clear Ez En. simpl length.
    split; [rewrite Hz, <- app_assoc; done|].
    split; [lia|].
    split.
    { intros [|i] l' Hl'; simpl in Hl'.
      - simplify_eq. rewrite Ho by done. rewrite Et, lookup_insert_eq. f_equal. lia.
      - rewrite (Hi i l' Hl'). f_equal. lia. }
    split.
    { intros l' Hl'. apply not_elem_of_cons in Hl' as [Hne Hl'].
      rewrite Ho by done. rewrite Et. by rewrite lookup_insert_ne. }
    split.
    { intros el Hel. destruct (decide (el = next_card s)) as [->|Hne].
      - rewrite Hk by lia. rewrite Ec. by rewrite lookup_insert_eq.
      - apply Hb. lia. }
    intros el Hel. rewrite Hk by lia. rewrite Ec. rewrite lookup_insert_ne by lia. done.
Qed.

Lemma targetLangs_NoDup s : NoDup (targetLangs s).
Proof.
  unfold targetLangs. apply NoDup_filter. unfold ALL_LANGS.
  apply (bool_decide_unpack _). by vm_compute.
Qed.

Lemma updateTranslationCards_spec s :
  blank_cards (targetLangs s) (updateTranslationCards s)
  /\ translationZone (updateTranslationCards s)
     = seq (next_card s) (length (targetLangs s))
  /\ (forall l, l ∉ targetLangs s ->
        translationCards (updateTranslationCards s) !! l = translationCards s !! l)
  /\ (forall el, el < next_card s ->
        cards (updateTranslationCards s) !! el = cards s !! el).
Proof.
  unfold updateTranslationCards, blank_cards.
  change (targetLangs (set_translationZone [] s)) with (targetLangs s).
  destruct (add_cards_spec (targetLangs s) (set_translationZone [] s)
              (targetLangs_NoDup s)) as (Hz & _ & Hi & Ho & Hb & Hk).
  revert Hz Hi Ho Hb Hk.
  generalize (fold_left add_card (targetLangs s) (set_translationZone [] s)).
  intros s' Hz Hi Ho Hb Hk.
  change (translationZone (set_translationZone [] s)) with (@nil nat) in Hz.
  change (next_card (set_translationZone [] s)) with (next_card s) in *.
  change (translationCards (set_translationZone [] s)) with (translationCards s) in *.
  change (cards (set_translationZone [] s)) with (cards s) in *.
  simpl in Hz. split; [|done].
  rewrite Hz. apply Forall2_same_length_lookup_2; [by rewrite length_seq|].
  intros i l el Hl Hel. apply lookup_seq in Hel as [-> Hlt].
  split; [by apply Hi|]. apply Hb. lia.
Qed.

(** X11.  [updateTranslationCards] empties the zone and fills it with one
    new, blank card for each configured language other than the source
    language, in the configured order, recording each under its language.
    The records of other languages, the one of the source language among
    them, stay as they were, and so do the cards made before. *)
Theorem cards_rebuilt s :
  blank_cards (filter (fun l => l ≠ sourceLang s) ALL_LANGS) (updateTranslationCards s)
  /\ translationZone (updateTranslationCards s)
     = seq (next_card s) (length (filter (fun l => l ≠ sourceLang s) ALL_LANGS))
  /\ translationCards (updateTranslationCards s) !! sourceLang s
     = translationCards s !! sourceLang s
  /\ (forall l, l ∉ ALL_LANGS ->
        translationCards (updateTranslationCards s) !! l = translationCards s !! l)
  /\ (forall el, el < next_card s ->
        cards (updateTranslationCards s) !! el = cards s !! el).
Proof.
  destruct (updateTranslationCards_spec s) as (Hb & Hz & Ho & Hk).
  split; [exact Hb|]. split; [exact Hz|].
  split.
  { apply Ho. unfold targetLangs. rewrite list_elem_of_filter. tauto. }
  split; [|exact Hk].
  intros l Hl. apply Ho. unfold targetLangs. rewrite list_elem_of_filter. tauto.
Qed.

Lemma clearEmojis_spec s :
  emojiZone (clearEmojis s) = [] /\ emojiCount (clearEmojis s) = 0%Z
  /\ positiveScore (clearEmojis s) = 0%Z /\ negativeScore (clearEmojis s) = 0%Z
  /\ neutral (clearEmojis s).
Proof.
  repeat split; try reflexivity.
  - apply cl_remove_other, cl_remove_absent.
  - apply cl_remove_absent.
Qed.

(** X12.  Choosing a language makes it the source language, empties the
    transcript and the last translated text, removes every particle and
    resets the scores and the mood, and leaves in the zone one blank card
    for each other configured language. *)
Theorem language_change_resets env value s :
  let s' := step env s (EvSelectLang value) in
  sourceLang s' = value
  /\ finalTranscript s' = "" /\ lastTranslatedText s' = ""
  /\ originalText (chrome s') = ("", "")
  /\ emojiZone s' = [] /\ emojiCount s' = 0%Z
  /\ positiveScore s' = 0%Z /\ negativeScore s' = 0%Z /\ neutral s'
  /\ blank_cards (filter (fun l => l ≠ value) ALL_LANGS) s'.
Proof.
  simpl. unfold handleLangChange.
  change (langSelect (set_langSelect value s)) with value.
  change (isListening (set_langSelect value s)) with (isListening s).
  destruct (updateTranslationCards_spec (set_sourceLang value (set_langSelect value s)))
    as (Hb & _).
  assert (sourceLang (updateTranslationCards
            (set_sourceLang value (set_langSelect value s))) = value) as Hs.
  { unfold updateTranslationCards. by rewrite (fold_left_view sourceLang). }
  change (targetLangs (set_sourceLang value (set_langSelect value s)))
    with (filter (fun l => l ≠ value) ALL_LANGS) in Hb.
  revert Hb Hs.
  generalize (updateTranslationCards (set_sourceLang value (set_langSelect value s))).
  intros s1 Hb Hs.
  pose proof (clearEmojis_spec (displayOriginal "" ""
                (set_lastTranslatedText "" (set_finalTranscript "" s1))))
    as (Hz & Hc & Hp & Hn & Hm).
  revert Hz Hc Hp Hn Hm.
  set (s2 := clearEmojis _).
  assert (sourceLang s2 = sourceLang s1 /\ finalTranscript s2 = ""
          /\ lastTranslatedText s2 = "" /\ originalText (chrome s2) = ("", "")
          /\ translationCards s2 = translationCards s1 /\ cards s2 = cards s1
          /\ translationZone s2 = translationZone s1)
    as (E1 & E2 & E3 & E4 & E5 & E6 & E7) by done.
  clearbody s2. intros Hz Hc Hp Hn Hm.
  assert (blank_cards (filter (fun l => l ≠ value) ALL_LANGS) s2) as Hb2.
  { unfold blank_cards in *. by rewrite E5, E6, E7. }
  destruct (isListening s);
    (split; [change (sourceLang s2 = value); congruence|]);
    repeat split; try done; try apply Hm.
Qed.

Lemma clear_cards_spec s :
  (forall l el, translationCards s !! l = Some el ->
     cards (clear_cards s) !! el = Some (VStr ""))
  /\ translationCards (clear_cards s) = translationCards s.
Proof.
  unfold clear_cards.
  assert (forall m : gmap string nat,
    let s' := map_fold (fun (_ : string) (el : nat) (s : State) =>
                          set_cards (<[el := VStr ""]> (cards s)) s) s m in
    translationCards s' = translationCards s
    /\ (forall l el, m !! l = Some el -> cards s' !! el = Some (VStr ""))
    /\ (forall el, cards s !! el = Some (VStr "") -> cards s' !! el = Some (VStr "")))
    as H.
  { intros m. induction m as [|l el m Hl Hfold IH] using map_first_key_ind.
    - simpl. rewrite map_fold_empty. repeat split; try done.
    - simpl in *. rewrite map_fold_insert_first_key by done.
      destruct IH as (IH1 & IH2 & IH3).
      revert IH1 IH2 IH3. generalize (map_fold (fun (_ : string) (el : nat) (s : State) =>
                          set_cards (<[el := VStr ""]> (cards s)) s) s m).
      intros s' IH1 IH2 IH3. split; [exact IH1|].
      assert (forall e, cards s' !! e = Some (VStr "") ->
                        cards (set_cards (<[el := VStr ""]> (cards s')) s') !! e
                        = Some (VStr "")) as Hkeep.
      { intros e He. change (<[el := VStr ""]> (cards s') !! e = Some (VStr "")).
        destruct (decide (e = el)) as [->|Hne];
          [by rewrite lookup_insert_eq | by rewrite lookup_insert_ne]. }
      split.
      + intros l' el' Hl'. apply lookup_insert_Some in Hl' as [[<- <-]|[Hne Hl']].
        * change (<[el := VStr ""]> (cards s') !! el = Some (VStr "")).
          by rewrite lookup_insert_eq.
        * apply Hkeep. by eapply IH2.
      + intros e He. by apply Hkeep, IH3. }
  destruct (H (translationCards s)) as (H1 & H2 & _). split; [exact H2 | exact H1].
Qed.

Lemma clear_cards_keeps {V : Type} (view : State -> V) s :
  (forall c x, view (set_cards c x) = view x) ->
  view (clear_cards s) = view s.
Proof.
  intros Hv. unfold clear_cards. generalize (translationCards s). intros m.
  induction m as [|l el m Hl Hfold IH] using map_first_key_ind.
  - by rewrite map_fold_empty.
  - rewrite map_fold_insert_first_key by done. by rewrite Hv.
Qed.

(** X13.  The clear key, pressed on the page with neither Ctrl nor Meta
    held, empties the transcript and the last translated text, removes
    every particle, resets the scores and the mood, and blanks the card of
    every language on record. *)
Theorem clear_key_blanks_page env e s :
  code e = "KeyC" -> ctrlKey e = false -> metaKey e = false ->
  target_is_body e = true ->
  let s' := keydown env e s in
  finalTranscript s' = "" /\ lastTranslatedText s' = ""
  /\ originalText (chrome s') = ("", "")
  /\ emojiZone s' = [] /\ emojiCount s' = 0%Z
  /\ positiveScore s' = 0%Z /\ negativeScore s' = 0%Z /\ neutral s'
  /\ forall l, is_Some (translationCards s' !! l) -> slot l s' = Some (VStr "").
Proof.
  intros Hc Hk Hm Hb. unfold keydown. rewrite Hc, Hk, Hm, Hb.
  change (JsString.eqb "KeyC" "Space") with false.
  change (JsString.eqb "KeyC" "Escape") with false.
  change (JsString.eqb "KeyC" "KeyC") with true. simpl andb. cbv iota.
  set (s1 := clearEmojis _).
  assert (finalTranscript s1 = "" /\ lastTranslatedText s1 = ""
          /\ originalText (chrome s1) = ("", "")) as (Hf & Hl & Ho) by done.
  pose proof (clearEmojis_spec (displayOriginal "" ""
                (set_lastTranslatedText "" (set_finalTranscript "" s)))) as Hsp.
  fold s1 in Hsp. destruct Hsp as (Hz & Hn & Hp & Hg & Hmood).
  clearbody s1.
  pose proof (clear_cards_pool s1) as Hpool.
  pose proof (clear_cards_page s1) as Hpage.
  pose proof (clear_cards_keeps lastTranslatedText s1 (fun _ _ => eq_refl)) as Elt.
  destruct (clear_cards_spec s1) as (Hblank & Hrec).
  revert Hpool Hpage Elt Hblank Hrec. generalize (clear_cards s1).
  intros s2 Hpool Hpage Elt Hblank Hrec.
  unfold pool_view in Hpool. injection Hpool as Ez Ec _ _.
  unfold page_view in Hpage. injection Hpage as Eps Ens Ecl _ _ _ Eft Eot _ _.
  unfold neutral. rewrite Ez, Ec, Eps, Ens, Ecl, Eft, Eot, Elt.
  repeat split; try done; try apply Hmood.
  intros l [el Hel]. unfold slot. rewrite Hel. simpl. apply (Hblank l).
  by rewrite <- Hrec.
Qed.

Lemma clear_key_blanks_page_witness :
  code (key "KeyC") = "KeyC"
  /\ slot "en" (keydown demo_env (key "KeyC")
                  (run demo_env [said "hallo welt"] (init "de")))
     = Some (VStr "").
Proof.
  split; [reflexivity|].
  apply (clear_key_blanks_page demo_env (key "KeyC")
           (run demo_env [said "hallo welt"] (init "de"))
           eq_refl eq_refl eq_refl eq_refl).
  vm_compute. eauto.
Defined.

(** ** The order of the particles *)

Lemma ascending_filter (P : nat -> Prop) `{forall x, Decision (P x)} l :
  ascending l -> ascending (filter P l).
Proof.
  induction l as [|x l IH]; [done|]. intros [Hx Hl]. rewrite filter_cons.
  case_decide; [|by apply IH]. split; [|by apply IH].
  apply Forall_forall. intros y [_ Hy]%list_elem_of_filter.
  rewrite Forall_forall in Hx. by apply Hx.
Qed.

Lemma ascending_snoc l n :
  ascending l -> Forall (fun id => id < n) l -> ascending (l ++ [n]).
Proof.
  induction l as [|x l IH]; intros Hl Hn; simpl.
  - split; [by apply Forall_nil | done].
  - destruct Hl as [Hx Hl]. apply Forall_cons in Hn as [Hxn Hn].
    split; [|by apply IH].
    apply Forall_app. split; [done|]. apply Forall_cons. split; [done | by apply Forall_nil].
Qed.

Lemma order_step_refl s : order_step s s.
Proof. by intros ?. Qed.

Lemma order_step_trans s1 s2 s3 : order_step s1 s2 -> order_step s2 s3 -> order_step s1 s3.
Proof. unfold order_step. auto. Qed.

Lemma order_step_view s s' : pool_view s' = pool_view s -> order_step s s'.
Proof. unfold pool_view, order_step, Ordered. intros [= -> _ _ ->]. done. Qed.

Lemma order_step_fold {A} (f : State -> A -> State) l :
  (forall s a, order_step s (f s a)) -> forall s, order_step s (fold_left f l s).
Proof.
  intros Hf. induction l as [|a l IH]; intros s; simpl; [apply order_step_refl|].
  eapply order_step_trans; [apply Hf | apply IH].
Qed.

Lemma order_step_filter (P : nat -> Prop) `{forall x, Decision (P x)} s s' :
  emojiZone s' = filter P (emojiZone s) -> next_element s' = next_element s ->
  order_step s s'.
Proof.
  intros Hz Hn [Ha Hb]. unfold Ordered. rewrite Hz, Hn. split.
  - by apply ascending_filter.
  - apply Forall_forall. intros y [_ Hy]%list_elem_of_filter.
    rewrite Forall_forall in Hb. by apply Hb.
Qed.

Lemma order_step_spawn s s' :
  emojiZone s' = emojiZone s ++ [next_element s] ->
  next_element s' = S (next_element s) ->
  order_step s s'.
Proof.
  intros Hz Hn [Ha Hb]. unfold Ordered. rewrite Hz, Hn. split.
  - by apply ascending_snoc.
  - apply Forall_app. split.
    + eapply Forall_impl; [exact Hb|]. simpl. lia.
    + apply Forall_cons. split; [lia | by apply Forall_nil].
Qed.

Lemma evict_order_step s : order_step s (evict s).
Proof.
  unfold evict. case_match; [|apply order_step_refl].
  unfold removeOldestEmoji. case_match; [|apply order_step_refl].
  by eapply order_step_filter.
Qed.

Lemma addEmojiParticle_order_step env v s : order_step s (addEmojiParticle env v s).
Proof.
  eapply order_step_trans; [apply evict_order_step|].
  apply order_step_spawn.
  - rewrite evict_next. apply addEmojiParticle_zone.
  - rewrite evict_next. apply addEmojiParticle_next.
Qed.

Lemma addTextParticle_order_step w s : order_step s (addTextParticle w s).
Proof.
  unfold addTextParticle. case_match; [apply order_step_refl|].
  by apply order_step_spawn.
Qed.

Lemma remove_due_order_step span s : order_step s (remove_due span s).
Proof.
  unfold remove_due. case_match; [|apply order_step_refl].
  by eapply order_step_filter.
Qed.

Lemma clearEmojis_order_step s : order_step s (clearEmojis s).
Proof. intros _. split; [done | by apply Forall_nil]. Qed.

Lemma float_due_order_step span s : order_step s (float_due span s).
Proof. unfold float_due. case_match; intros I; exact I. Qed.

Lemma fade_due_order_step span s : order_step s (fade_due span s).
Proof. unfold fade_due. case_match; intros I; exact I. Qed.

Lemma text_fade_due_order_step span s : order_step s (text_fade_due span s).
Proof. unfold text_fade_due. case_match; intros I; exact I. Qed.

Lemma scan_word_order_step env s w : order_step s (scan_word env s w).
Proof.
  unfold scan_word.
  set (s1 := if bool_decide (w ∈ POSITIVE_WORDS env) then _ else s).
  set (s2 := if bool_decide (w ∈ NEGATIVE_WORDS env) then _ else s1).
  assert (pool_view s2 = pool_view s) as Hv.
  { subst s2 s1. by repeat case_match. }
  clearbody s2. clear s1.
  eapply order_step_trans; [apply order_step_view, Hv|].
  repeat case_match.
  - apply addEmojiParticle_order_step.
  - apply addTextParticle_order_step.
  - apply order_step_refl.
Qed.

Lemma scan_combo_order_step env lt s c : order_step s (scan_combo env lt s c).
Proof.
  unfold scan_combo. case_match; [apply addEmojiParticle_order_step | apply order_step_refl].
Qed.

Lemma processWordsForEmoji_order_step env text s :
  order_step s (processWordsForEmoji env text s).
Proof.
  unfold processWordsForEmoji.
  eapply order_step_trans; [|apply order_step_view, updateMood_pool].
  eapply order_step_trans;
    [|apply order_step_fold; intros; apply scan_word_order_step].
  apply order_step_fold; intros; apply scan_combo_order_step.
Qed.

Lemma handleResult_order_step env i rs s : order_step s (handleResult env i rs s).
Proof.
  unfold handleResult.
  eapply order_step_trans; [|apply order_step_view, displayOriginal_pool].
  case_match; [|apply order_step_refl].
  eapply order_step_trans; [|apply order_step_view, scheduleTranslation_pool].
  eapply order_step_trans; [|apply processWordsForEmoji_order_step].
  apply order_step_view; by peel pool_view.
Qed.

Lemma handleLangChange_order_step s : order_step s (handleLangChange s).
Proof.
  unfold handleLangChange.
  set (s1 := clearEmojis _).
  assert (order_step s s1) as H.
  { subst s1. intros _. split; [exact I | by apply Forall_nil]. }
  clearbody s1. case_match; [|exact H].
  eapply order_step_trans; [apply H|]. apply order_step_view, setTimeout_pool.
Qed.

Lemma keydown_order_step env e s : order_step s (keydown env e s).
Proof.
  unfold keydown.
  set (s1 := if _ && _ then toggleMic env s else s).
  set (s2 := if _ && isListening s1 then _ else s1).
  assert (pool_view s2 = pool_view s) as Hv.
  { subst s2 s1. repeat case_match; by peel pool_view. }
  clearbody s2. clear s1.
  eapply order_step_trans; [apply order_step_view, Hv|].
  case_match; [|apply order_step_refl].
  eapply order_step_trans; [|apply order_step_view, clear_cards_pool].
  intros _. split; [exact I | by apply Forall_nil].
Qed.

Lemma run_callback_order_step env c s : order_step s (run_callback env c s).
Proof.
  destruct c; simpl.
  - apply order_step_view; by peel pool_view.
  - apply order_step_view, startListening_pool.
  - apply order_step_view, translate_due_pool.
  - apply float_due_order_step.
  - apply fade_due_order_step.
  - apply text_fade_due_order_step.
  - apply remove_due_order_step.
Qed.

Lemma fire_order_step env t s : order_step s (fire env t s).
Proof.
  unfold fire. eapply order_step_trans; [|apply run_callback_order_step].
  apply order_step_view; by peel pool_view.
Qed.

Lemma run_timers_order_step env fuel limit s :
  order_step s (run_timers env fuel limit s).
Proof.
  revert s. induction fuel as [|fuel IH]; intros s; simpl; [apply order_step_refl|].
  case_match; [|apply order_step_refl].
  eapply order_step_trans; [apply fire_order_step | apply IH].
Qed.

Lemma advance_order_step env dt s : order_step s (advance env dt s).
Proof.
  unfold advance. eapply order_step_trans; [apply run_timers_order_step|].
  apply order_step_view; by peel pool_view.
Qed.

Lemma step_order_step env s ev : order_step s (step env s ev).
Proof.
  destruct ev; simpl.
  - apply advance_order_step.
  - apply order_step_view, toggleMic_pool.
  - eapply order_step_trans; [|apply handleLangChange_order_step].
    apply order_step_view; by peel pool_view.
  - apply keydown_order_step.
  - apply handleResult_order_step.
  - apply order_step_view, handleError_pool.
  - apply order_step_view. by rewrite handleEnd_pool.
  - apply order_step_view, settle_pool.
Qed.

Lemma Ordered_run env lang evs : Ordered (run env evs (init lang)).
Proof.
  apply (order_step_fold (step env) evs (step_order_step env) (init lang)).
  unfold init.
  match goal with |- Ordered (setStatus _ _ (updateTranslationCards ?x)) => set (s0 := x) end.
  assert (Ordered s0) as I0 by (split; [done | by apply Forall_nil]).
  clearbody s0. revert I0. apply order_step_view. by peel pool_view.
Qed.

(** X14.  The children of the emoji zone are always in the order in which
    they were created: each was created before every one after it.  So the
    first child, the one [removeOldestEmoji] takes out, is the particle
    that has been there longest. *)
Theorem zone_in_creation_order env lang evs :
  ascending (emojiZone (run env evs (init lang))).
Proof. exact (proj1 (Ordered_run env lang evs)). Qed.

(** ** The life of a particle *)

Lemma Covered_mono P T T' s : (T <= T')%Z -> Covered P T s -> Covered P T' s.
Proof.
  intros Hle Hc span Hin Hp. destruct (Hc span Hin Hp) as (t & Ht & Hout).
  exists t. split; [done|]. unfold takes_out in *. destruct Hout as [[? ?]|[? ?]]; [left|right];
    (split; [done | lia]).
Qed.

Lemma Covered_weaken (P Q : nat -> Prop) T s :
  (forall span, Q span -> P span) -> Covered P T s -> Covered Q T s.
Proof. intros Hpq Hc span Hin Hq. apply Hc; auto. Qed.

Lemma Timely_weaken s : Timely true s -> Timely false s.
Proof. intros H t Ht. specialize (H t Ht). simpl in *. lia. Qed.

Lemma keeps_refl P T s : keeps P T s s.
Proof. repeat split; auto. Qed.

Lemma keeps_trans P T s1 s2 s3 : keeps P T s1 s2 -> keeps P T s2 s3 -> keeps P T s1 s3.
Proof.
  intros (N1 & E1 & K1 & L1 & C1) (N2 & E2 & K2 & L2 & C2).
  split; [congruence|]. split; [lia|]. split; [auto|]. split.
  - intros t Ht. destruct (L2 t Ht) as [H|H]; [|right; lia].
    destruct (L1 t H) as [H'|H']; [by left | by right].
  - intros span Hin Hp. destruct (C2 span Hin Hp) as [H|H]; [|by right].
    destruct (C1 span H Hp) as [H'|(t & Ht & Hout)]; [by left|].
    right. exists t. split; [by apply K2 | done].
Qed.

Lemma keeps_fold {A} P T (f : State -> A -> State) l :
  (forall s a, Side P T s -> keeps P T s (f s a)) ->
  forall s, Side P T s -> keeps P T s (fold_left f l s).
Proof.
  intros Hf. induction l as [|a l IH]; intros s Hs; simpl; [apply keeps_refl|].
  pose proof (Hf s a Hs) as H1.
  eapply keeps_trans; [exact H1|]. apply IH.
  destruct H1 as (N1 & E1 & _). destruct Hs as [Hs|Hs]; [left; lia|].
  right. intros id Hid. apply Hs. lia.
Qed.

Lemma Side_keeps P T s s' : keeps P T s s' -> Side P T s -> Side P T s'.
Proof.
  intros (N1 & E1 & _) [Hs|Hs]; [left; lia|].
  right. intros id Hid. apply Hs. lia.
Qed.

(** What changes neither the timers, nor the zone, nor the time. *)
Lemma keeps_same P T s s' :
  timers s' = timers s -> emojiZone s' = emojiZone s -> now s' = now s ->
  next_element s <= next_element s' ->
  keeps P T s s'.
Proof.
  intros Ht Hz Hn He. split; [done|]. split; [done|]. rewrite Ht, Hz.
  repeat split; auto.
Qed.

Lemma keeps_view P T s s' :
  timers_view s' = timers_view s -> pool_view s' = pool_view s ->
  log_view s' = log_view s ->
  keeps P T s s'.
Proof.
  unfold timers_view, pool_view, log_view.
  intros [= Ht _ _] [= Hz _ _ He] [= _ _ _ Hn]. apply keeps_same; try done. lia.
Qed.

Lemma keeps_setTimeout P T c d s : (0 < d)%Z -> keeps P T s (snd (setTimeout c d s)).
Proof.
  intros Hd. split; [done|]. split; [done|]. simpl. split; [|split].
  - intros t Ht. apply elem_of_app. by left.
  - intros t [Ht|Ht%list_elem_of_singleton]%elem_of_app; [by left|].
    right. subst t. simpl. lia.
  - intros span Hin _. by left.
Qed.

(** What a [keeps] step keeps of the invariant. *)
Lemma keeps_Timely b P T s s' : keeps P T s s' -> Timely b s -> Timely b s'.
Proof.
  intros (N1 & _ & _ & L1 & _) Ht t Hin. rewrite N1.
  destruct (L1 t Hin) as [H|H]; [by apply Ht|]. destruct b; lia.
Qed.

Lemma keeps_Covered P T s s' : keeps P T s s' -> Covered P T s -> Covered P T s'.
Proof.
  intros (_ & _ & K1 & _ & C1) Hc span Hin Hp.
  destruct (C1 span Hin Hp) as [H|H]; [|done].
  destruct (Hc span H Hp) as (t & Ht & Hout). exists t. split; [by apply K1 | done].
Qed.

Lemma adds_Handle s s' : adds_timers s s' -> Handle s -> Handle s'.
Proof.
  intros (Ht & new & Htm & Hid & Hn & Hnew) Hh h Hs'. rewrite Ht in Hs'.
  destruct (Hh h Hs') as [Hlt Hold]. split; [lia|].
  intros t Hin Htid. rewrite Htm in Hin. apply elem_of_app in Hin as [Hin|Hin].
  - by apply Hold.
  - apply (list_elem_of_fmap_2 tid) in Hin. rewrite Hid in Hin.
    apply elem_of_seq in Hin. lia.
Qed.

Lemma Tidy_keeps b P T s s' :
  keeps P T s s' -> adds_timers s s' -> Tidy b P T s -> Tidy b P T s'.
Proof.
  intros Hk Ha (H1 & H2 & H3). split; [by eapply keeps_Timely|].
  split; [by eapply adds_Handle | by eapply keeps_Covered].
Qed.

(** *** The handlers *)

Lemma showToast_keeps P T m s : keeps P T s (showToast m s).
Proof.
  unfold showToast. eapply keeps_trans; [|by apply keeps_setTimeout].
  by apply keeps_same.
Qed.

Lemma stopListening_keeps P T s : keeps P T s (stopListening s).
Proof. by apply keeps_same. Qed.

Lemma startListening_keeps P T env s : keeps P T s (startListening env s).
Proof.
  unfold startListening. case_match; [|by apply keeps_same].
  case_match eqn:E.
  - unfold recognition_start in E. case_match; simplify_eq.
    apply keeps_view; [by peel timers_view | by peel pool_view | by peel log_view].
  - eapply keeps_trans; [|apply showToast_keeps]. by apply keeps_same.
Qed.

Lemma toggleMic_keeps P T env s : keeps P T s (toggleMic env s).
Proof.
  unfold toggleMic. case_match; [apply stopListening_keeps | apply startListening_keeps].
Qed.

Lemma handleError_keeps P T e s : keeps P T s (handleError e s).
Proof.
  unfold handleError. repeat case_match.
  - eapply keeps_trans; [apply showToast_keeps | apply stopListening_keeps].
  - apply keeps_refl.
  - apply showToast_keeps.
Qed.

Lemma handleEnd_keeps P T s : keeps P T s (handleEnd s).
Proof.
  unfold handleEnd, recognition_start. repeat case_match; simplify_eq;
    by apply keeps_same.
Qed.

Lemma settle_keeps P T b os s : keeps P T s (settle b os s).
Proof.
  apply keeps_view; [apply settle_timers | apply settle_pool |].
  unfold settle. repeat case_match; try done.
  unfold translateAll_resume. rewrite fold_left_view; [done|].
  intros x lr. unfold show_result. by repeat case_match.
Qed.

Lemma evict_keeps P T s : keeps P T s (evict s).
Proof.
  unfold evict. case_match; [|apply keeps_refl].
  unfold removeOldestEmoji. case_match; [|apply keeps_refl].
  split; [done|]. split; [done|]. split; [done|]. split; [by left|].
  intros span [_ Hin]%list_elem_of_filter _. by left.
Qed.

Lemma addEmojiParticle_keeps P T env v s :
  Side P T s -> keeps P T s (addEmojiParticle env v s).
Proof.
  intros Hs. unfold addEmojiParticle. fold (evict s).
  pose proof (evict_keeps P T s) as Hk. pose proof (Side_keeps _ _ _ _ Hk Hs) as Hs'.
  eapply keeps_trans; [exact Hk|]. revert Hs'. generalize (evict s). clear.
  intros x Hs. split; [done|]. split; [simpl; lia|]. simpl. split; [|split].
  - intros t Ht. rewrite !elem_of_app. by left; left.
  - intros t Ht. rewrite !elem_of_app, !list_elem_of_singleton in Ht.
    destruct Ht as [[Ht| ->]| ->]; [by left | right; simpl.. ];
      unfold EMOJI_FADE_AFTER; lia.
  - intros span [Hin| ->%list_elem_of_singleton]%elem_of_app Hp; [by left|].
    destruct Hs as [Hs|Hs]; [|by destruct (Hs (next_element x))].
    right. eexists. split; [apply elem_of_app; right; by apply list_elem_of_singleton|].
    left. simpl. split; [done | lia].
Qed.

Lemma addTextParticle_keeps P T w s :
  Side P T s -> keeps P T s (addTextParticle w s).
Proof.
  intros Hs. unfold addTextParticle. case_match; [apply keeps_refl|].
  split; [done|]. split; [simpl; lia|]. simpl. split; [|split].
  - intros t Ht. rewrite !elem_of_app. by left.
  - intros t Ht. rewrite !elem_of_app, !list_elem_of_singleton in Ht.
    destruct Ht as [Ht| ->]; [by left | right; simpl; lia].
  - intros span [Hin| ->%list_elem_of_singleton]%elem_of_app Hp; [by left|].
    destruct Hs as [Hs|Hs]; [|by destruct (Hs (next_element s))].
    right. eexists. split; [apply elem_of_app; right; by apply list_elem_of_singleton|].
    left. simpl. split; [done | unfold EMOJI_FADE_AFTER; lia].
Qed.

Lemma processWordsForEmoji_keeps P T env text s :
  Side P T s -> keeps P T s (processWordsForEmoji env text s).
Proof.
  intros Hs. unfold processWordsForEmoji.
  eapply keeps_trans;
    [|apply keeps_view; [apply updateMood_timers | apply updateMood_pool
                        | apply updateMood_log]].
  pose proof (keeps_fold P T (scan_combo env (JsString.toLowerCase text)) (combos env))
    as H1.
  assert (keeps P T s (fold_left (scan_combo env (JsString.toLowerCase text))
                         (combos env) s)) as Hk1.
  { apply H1; [|done]. intros x c Hx. unfold scan_combo.
    case_match; [by apply addEmojiParticle_keeps | apply keeps_refl]. }
  eapply keeps_trans; [exact Hk1|].
  apply keeps_fold; [|by eapply Side_keeps].
  intros x w Hx. unfold scan_word.
  set (x1 := if bool_decide (w ∈ POSITIVE_WORDS env) then _ else x).
  set (x2 := if bool_decide (w ∈ NEGATIVE_WORDS env) then _ else x1).
  assert (keeps P T x x2) as Hv.
  { subst x2 x1. repeat case_match; by apply keeps_same. }
  pose proof (Side_keeps _ _ _ _ Hv Hx) as Hx2.
  clearbody x2. clear x1.
  eapply keeps_trans; [exact Hv|].
  repeat case_match;
    [by apply addEmojiParticle_keeps | by apply addTextParticle_keeps | apply keeps_refl].
Qed.

Lemma cleared_keeps P T s :
  keeps P T s (clearEmojis (displayOriginal "" ""
                 (set_lastTranslatedText "" (set_finalTranscript "" s)))).
Proof.
  split; [done|]. split; [done|]. split; [done|]. split; [by left|].
  intros span Hin. by apply elem_of_nil in Hin.
Qed.

Lemma handleLangChange_keeps P T s : keeps P T s (handleLangChange s).
Proof.
  unfold handleLangChange.
  assert (keeps P T s (updateTranslationCards (set_sourceLang (langSelect s) s))) as H1.
  { apply keeps_view; [by peel timers_view | by peel pool_view | by peel log_view]. }
  revert H1. generalize (updateTranslationCards (set_sourceLang (langSelect s) s)).
  intros s1 H1. pose proof (cleared_keeps P T s1) as H2.
  revert H2. generalize (clearEmojis (displayOriginal "" ""
                 (set_lastTranslatedText "" (set_finalTranscript "" s1)))).
  intros s2 H2. eapply keeps_trans; [exact H1|]. eapply keeps_trans; [exact H2|].
  case_match; [by apply keeps_setTimeout | apply keeps_refl].
Qed.

Lemma keydown_keeps P T env e s : keeps P T s (keydown env e s).
Proof.
  unfold keydown.
  set (s1 := if _ && _ then toggleMic env s else s).
  assert (keeps P T s s1) as H1
      by (subst s1; case_match; [apply toggleMic_keeps | apply keeps_refl]).
  clearbody s1.
  set (s2 := if _ && isListening s1 then _ else s1).
  assert (keeps P T s1 s2) as H2
      by (subst s2; case_match; [apply stopListening_keeps | apply keeps_refl]).
  clearbody s2. eapply keeps_trans; [exact H1|]. eapply keeps_trans; [exact H2|].
  case_match; [|apply keeps_refl].
  eapply keeps_trans; [apply cleared_keeps|].
  generalize (clearEmojis (displayOriginal "" ""
                 (set_lastTranslatedText "" (set_finalTranscript "" s2)))).
  intros s3. apply keeps_view; [apply clear_cards_timers | apply clear_cards_pool|].
  apply (clear_cards_keeps log_view). done.
Qed.

Lemma takes_out_quiet T span t : takes_out T span t -> is_translate (cb t) = false.
Proof. intros [[H _]|[H _]]; by destruct (cb t). Qed.

(** [scheduleTranslation] clears the debounce timer and no other. *)
Lemma clearTimeout_handle s :
  Handle s ->
  let s1 := clearTimeout (translateTimer s) s in
  now s1 = now s /\ emojiZone s1 = emojiZone s /\ next_timer s1 = next_timer s
  /\ next_element s1 = next_element s
  /\ (forall t, t ∈ timers s1 -> t ∈ timers s)
  /\ (forall t, t ∈ timers s -> is_translate (cb t) = false -> t ∈ timers s1).
Proof.
  intros Hh. unfold clearTimeout. destruct (translateTimer s) as [h|] eqn:E; simpl.
  - repeat split; try done.
    + by intros t [_ ?]%list_elem_of_filter.
    + intros t Hin Hq. apply list_elem_of_filter. split; [|done].
      intros Heq. destruct (Hh h E) as [_ Ht]. rewrite (Ht t Hin Heq) in Hq. done.
  - repeat split; done.
Qed.

Lemma scheduleTranslation_Tidy b P T text s :
  TimerInv s -> Tidy b P T s ->
  Tidy b P T (scheduleTranslation text s)
  /\ now (scheduleTranslation text s) = now s
  /\ next_element (scheduleTranslation text s) = next_element s.
Proof.
  intros I (Ht & Hh & Hc). unfold scheduleTranslation.
  destruct (clearTimeout_handle s Hh) as (Hn & Hz & Hnt & Hne & Hsub & Hkeep).
  revert Hn Hz Hnt Hne Hsub Hkeep. generalize (clearTimeout (translateTimer s) s).
  intros s1 Hn Hz Hnt Hne Hsub Hkeep. simpl.
  split; [|by split]. split; [|split].
  - intros t. simpl. rewrite elem_of_app, list_elem_of_singleton. rewrite Hn.
    intros [Hin%Hsub| ->]; [by apply Ht|]. simpl. unfold TRANSLATE_DEBOUNCE_MS.
    destruct b; lia.
  - intros h. simpl. intros [= <-]. split; [lia|].
    intros t. rewrite elem_of_app, list_elem_of_singleton.
    intros [Hin%Hsub| ->] Htid; [|done].
    pose proof (timers_alloc s I t Hin). lia.
  - intros span. simpl. rewrite Hz. intros Hin Hp.
    destruct (Hc span Hin Hp) as (t & Htin & Hout). exists t. split; [|done].
    apply elem_of_app. left. apply Hkeep; [done|]. by eapply takes_out_quiet.
Qed.

Lemma handleResult_Tidy P T env i rs s :
  TimerInv s -> Side P T s -> Tidy true P T s ->
  Tidy true P T (handleResult env i rs s)
  /\ now (handleResult env i rs s) = now s.
Proof.
  intros I Hs Hty. unfold handleResult.
  set (new := concat_where true (drop i rs)).
  destruct (negb (JsString.eqb new "")); [|done].
  set (s1 := set_finalTranscript _ s).
  assert (TimerInv s1) as I1 by (by apply (timers_view_inv s)).
  assert (Tidy true P T s1) as Hty1 by exact Hty.
  assert (Side P T s1) as Hs1 by exact Hs.
  assert (now s1 = now s) as Hn1 by done.
  clearbody s1.
  pose proof (processWordsForEmoji_keeps P T env new s1 Hs1) as Hk.
  pose proof (processWordsForEmoji_adds env new s1) as Ha.
  pose proof (Tidy_keeps true P T _ _ Hk Ha Hty1) as Hty2.
  pose proof (adds_timers_inv _ _ Ha I1) as I2.
  destruct Hk as (Hn2 & _).
  revert Hty2 I2 Hn2. generalize (processWordsForEmoji env new s1). intros s2 Hty2 I2 Hn2.
  destruct (scheduleTranslation_Tidy true P T (finalTranscript s2) s2 I2 Hty2)
    as (Hty3 & Hn3 & _).
  revert Hty3 Hn3. generalize (scheduleTranslation (finalTranscript s2) s2).
  intros s3 Hty3 Hn3. split; [exact Hty3|]. simpl. congruence.
Qed.

(** *** Timers firing *)

Lemma first_timer_min (l : list Timer) (m : Timer) :
  first_timer l = Some m -> forall t, t ∈ l -> (due m <= due t)%Z.
Proof.
  revert m. induction l as [|x l IH]; intros m; simpl; [done|].
  destruct (first_timer l) as [m'|] eqn:E.
  - specialize (IH m' eq_refl). unfold earlier.
    destruct (_ || _) eqn:Ho; intros [= <-] t [->|Hin]%elem_of_cons.
    + apply orb_true_iff in Ho as [Ho|Ho]; [apply Z.ltb_lt in Ho; lia|].
      apply andb_true_iff in Ho as [Ho _]. apply Z.eqb_eq in Ho. lia.
    + by apply IH.
    + lia.
    + apply orb_false_iff in Ho as [Ho _]. apply Z.ltb_ge in Ho.
      specialize (IH t Hin). lia.
  - apply first_timer_None in E. subst l. intros [= <-] t [->|Hin]%elem_of_cons; [lia|].
    by apply elem_of_nil in Hin.
Qed.

Lemma next_due_min limit s t0 :
  next_due limit s = Some t0 -> forall t, t ∈ timers s -> (due t0 <= due t)%Z.
Proof.
  intros Hn t Hin. pose proof (next_due_Some _ _ _ Hn) as [_ Hle].
  destruct (decide (due t <= limit)%Z) as [Hd|Hd]; [|lia].
  unfold next_due in Hn. apply (first_timer_min _ _ Hn).
  by apply list_elem_of_filter.
Qed.

(** The timers that stay when [t0] fires. *)
Lemma stays s (t0 t : Timer) :
  TimerInv s -> t0 ∈ timers s -> t ∈ timers s -> cb t <> cb t0 ->
  t ∈ filter (fun x => tid x <> tid t0) (timers s).
Proof.
  intros I H0 Ht Hne. apply list_elem_of_filter. split; [|done].
  intros Heq. apply Hne. f_equal. by apply (tid_inj (timers s)); [apply I|..].
Qed.

(** The state in which the callback of [t0] runs. *)
Lemma fire_removes P T limit x t0 :
  TimerInv x -> Tidy false P T x -> next_due limit x = Some t0 ->
  let x1 := set_now (Z.max (now x) (due t0))
              (set_timers (filter (fun y => tid y <> tid t0) (timers x)) x) in
  TimerInv x1 /\ Timely false x1 /\ Handle x1 /\ now x1 = due t0
  /\ forall span, span ∈ emojiZone x1 -> P span ->
       (exists t, t ∈ timers x1 /\ takes_out T span t) \/ takes_out T span t0.
Proof.
  intros I (Ht & Hh & Hc) Hnd.
  pose proof (next_due_Some _ _ _ Hnd) as [Hin0 _].
  pose proof (next_due_min _ _ _ Hnd) as Hmin.
  pose proof (Ht t0 Hin0) as Hnow. simpl in Hnow.
  simpl. split; [|split; [|split; [|split]]].
  - refine (timers_view_inv _ _ _ (TimerInv_remove (tid t0) x I)). reflexivity.
  - intros t [_ Hin]%list_elem_of_filter. simpl. specialize (Hmin t Hin). lia.
  - intros h Hs. simpl in Hs. destruct (Hh h Hs) as [Hlt Hold]. split; [done|].
    intros t [_ Hin]%list_elem_of_filter. by apply Hold.
  - simpl. lia.
  - intros span Hin Hp. simpl in Hin. destruct (Hc span Hin Hp) as (t & Htin & Hout).
    destruct (decide (tid t = tid t0)) as [Heq|Hne].
    + right. by rewrite <- (tid_inj (timers x) t t0 (timers_nodup x I) Htin Hin0 Heq).
    + left. exists t. split; [|done]. simpl. by apply list_elem_of_filter.
Qed.

Lemma quiet_callback_Tidy P T (t0 : Timer) x1 x2 :
  fades (cb t0) = None -> removes (cb t0) = None ->
  Timely false x1 -> Handle x1 ->
  (forall span, span ∈ emojiZone x1 -> P span ->
     (exists t, t ∈ timers x1 /\ takes_out T span t) \/ takes_out T span t0) ->
  keeps P T x1 x2 -> adds_timers x1 x2 ->
  Tidy false P T x2.
Proof.
  intros Hf Hr Ht Hh Hc Hk Ha. apply (Tidy_keeps false P T x1); [done..|].
  split; [done|]. split; [done|]. intros span Hin Hp.
  destruct (Hc span Hin Hp) as [H|[[H _]|[H _]]]; [done|congruence..].
Qed.

Lemma fading_Tidy P T (t0 : Timer) span0 x1 x2 :
  fades (cb t0) = Some span0 ->
  Timely false x1 -> Handle x1 -> now x1 = due t0 ->
  (forall span, span ∈ emojiZone x1 -> P span ->
     (exists t, t ∈ timers x1 /\ takes_out T span t) \/ takes_out T span t0) ->
  keeps P T x1 x2 -> adds_timers x1 x2 ->
  emojiZone x2 = emojiZone x1 ->
  (span0 ∈ emojiZone x1 ->
   exists t, t ∈ timers x2 /\ cb t = CbRemove span0 /\ due t = (now x1 + 1000)%Z) ->
  Tidy false P T x2.
Proof.
  intros Hf Ht Hh Hn Hc Hk Ha Hz Hnew.
  split; [by eapply keeps_Timely|]. split; [by eapply adds_Handle|].
  intros span Hin Hp. rewrite Hz in Hin.
  destruct (Hc span Hin Hp) as [(t & Htin & Hout)|[[H Hd]|[H _]]].
  - exists t. split; [|done]. destruct Hk as (_ & _ & K & _). by apply K.
  - assert (span = span0) as -> by congruence.
    destruct (Hnew Hin) as (t & Htin & Hcb & Hdue). exists t. split; [done|].
    right. rewrite Hcb. split; [done | lia].
  - destruct (cb t0); simpl in *; congruence.
Qed.

Lemma fade_due_keeps P T span s : keeps P T s (fade_due span s).
Proof.
  unfold fade_due. case_match; [|apply keeps_refl].
  eapply keeps_trans; [|by apply keeps_setTimeout]. by apply keeps_same.
Qed.

Lemma text_fade_due_keeps P T span s : keeps P T s (text_fade_due span s).
Proof.
  unfold text_fade_due. case_match; [|apply keeps_refl].
  eapply keeps_trans; [|by apply keeps_setTimeout]. by apply keeps_same.
Qed.

Lemma fire_Tidy env P T limit x t0 :
  TimerInv x -> Tidy false P T x -> next_due limit x = Some t0 ->
  Tidy false P T (fire env t0 x).
Proof.
  intros I Hty Hnd. unfold fire.
  set (x1 := set_now _ _).
  assert (TimerInv x1 /\ Timely false x1 /\ Handle x1 /\ now x1 = due t0
          /\ forall span, span ∈ emojiZone x1 -> P span ->
               (exists t, t ∈ timers x1 /\ takes_out T span t) \/ takes_out T span t0)
    as (I1 & Ht & Hh & Hn & Hc) by exact (fire_removes P T limit x t0 I Hty Hnd).
  clearbody x1. destruct (cb t0) eqn:Ecb; simpl.
  - apply (quiet_callback_Tidy P T t0 x1); try done; try (by rewrite Ecb).
    + by apply keeps_same.
    + by apply adds_timers_view.
  - apply (quiet_callback_Tidy P T t0 x1); try done; try (by rewrite Ecb).
    + apply startListening_keeps.
    + apply startListening_adds.
  - apply (quiet_callback_Tidy P T t0 x1); try done; try (by rewrite Ecb).
    + pose proof (translate_due_timers text x1) as Hv.
      pose proof (translate_due_pool text x1) as Hp.
      unfold timers_view in Hv. unfold pool_view in Hp.
      injection Hv as Hv _ _. injection Hp as Hp _ _ He.
      apply keeps_same; try done; [|lia].
      unfold translate_due. by case_match.
    + apply adds_timers_view, translate_due_timers.
  - apply (quiet_callback_Tidy P T t0 x1); try done; try (by rewrite Ecb).
    + unfold float_due. case_match; by apply keeps_same.
    + apply adds_timers_view, float_due_timers.
  - apply (fading_Tidy P T t0 span x1); try done; try (by rewrite Ecb).
    + apply fade_due_keeps.
    + apply fade_due_adds.
    + unfold fade_due. by case_match.
    + intros Hin. unfold fade_due, parentNode. rewrite bool_decide_eq_true_2 by done.
      eexists. split; [simpl; apply elem_of_app; right; by apply list_elem_of_singleton|].
      by split.
  - apply (fading_Tidy P T t0 span x1); try done; try (by rewrite Ecb).
    + apply text_fade_due_keeps.
    + apply text_fade_due_adds.
    + unfold text_fade_due. by case_match.
    + intros Hin. unfold text_fade_due, parentNode. rewrite bool_decide_eq_true_2 by done.
      eexists. split; [simpl; apply elem_of_app; right; by apply list_elem_of_singleton|].
      by split.
  - assert (timers (remove_due span x1) = timers x1
            /\ now (remove_due span x1) = now x1
            /\ translateTimer (remove_due span x1) = translateTimer x1
            /\ next_timer (remove_due span x1) = next_timer x1
            /\ forall sp, sp ∈ emojiZone (remove_due span x1) ->
                 sp ∈ emojiZone x1 /\ sp <> span) as (Et & En & Eh & Ent & Ez).
    { unfold remove_due, parentNode. destruct (decide (span ∈ emojiZone x1)) as [Hin|Hin].
      - rewrite bool_decide_eq_true_2 by done. simpl.
        split; [done|]. split; [done|]. split; [done|]. split; [done|].
        intros sp [Hne Hsp]%list_elem_of_filter. done.
      - rewrite bool_decide_eq_false_2 by done.
        split; [done|]. split; [done|]. split; [done|]. split; [done|].
        intros sp Hsp. split; [done|]. intros ->. done. }
    revert Et En Eh Ent Ez. generalize (remove_due span x1).
    intros x2 Et En Eh Ent Ez. split; [|split].
    + intros t. rewrite Et, En. apply Ht.
    + intros h. rewrite Eh, Et, Ent. apply Hh.
    + intros sp Hin Hp. destruct (Ez sp Hin) as [Hin1 Hne]. rewrite Et.
      destruct (Hc sp Hin1 Hp) as [H|[[H _]|[H _]]]; [done|..];
        rewrite Ecb in H; simpl in H; congruence.
Qed.

Lemma run_timers_Tidy env P T fuel limit x :
  TimerInv x -> Tidy false P T x -> Tidy false P T (run_timers env fuel limit x).
Proof.
  revert x. induction fuel as [|fuel IH]; intros x I Hty; simpl; [done|].
  destruct (next_due limit x) as [t0|] eqn:E; [|done].
  apply IH; [by apply fire_TimerInv | by eapply fire_Tidy].
Qed.

Lemma advance_Tidy env P T dt s :
  TimerInv s -> Tidy true P T s -> Tidy true P T (advance env dt s).
Proof.
  intros I (Ht & Hh & Hc). unfold advance.
  pose proof (run_timers_Tidy env P T (total_weight (timers s)) (now s + Z.of_N dt) s I
                (conj (Timely_weaken s Ht) (conj Hh Hc))) as (_ & Hh' & Hc').
  pose proof (run_timers_done env (total_weight (timers s)) (now s + Z.of_N dt) s
                (le_n _)) as Hdone.
  revert Hh' Hc' Hdone.
  generalize (run_timers env (total_weight (timers s)) (now s + Z.of_N dt) s).
  intros x Hh' Hc' Hdone. split; [|split; [exact Hh' | exact Hc']].
  intros t Hin. simpl. apply (next_due_None _ x); [done | exact Hin].
Qed.

(** *** Events *)

Lemma step_Tidy env P T s ev :
  TimerInv s -> Side P T s -> Tidy true P T s -> Tidy true P T (step env s ev).
Proof.
  intros I Hs Hty. destruct ev; simpl.
  - by apply advance_Tidy.
  - apply (Tidy_keeps true P T s); [apply toggleMic_keeps | apply toggleMic_adds | done].
  - apply (Tidy_keeps true P T (set_langSelect value s));
      [apply handleLangChange_keeps | apply handleLangChange_adds | exact Hty].
  - apply (Tidy_keeps true P T s); [apply keydown_keeps | apply keydown_adds | done].
  - by apply handleResult_Tidy.
  - apply (Tidy_keeps true P T s); [apply handleError_keeps | apply handleError_adds | done].
  - apply (Tidy_keeps true P T (on_chrome (set_recognition_started false) s));
      [apply handleEnd_keeps | apply adds_timers_view, handleEnd_timers | exact Hty].
  - apply (Tidy_keeps true P T s);
      [apply settle_keeps | apply adds_timers_view, settle_timers | done].
Qed.

Lemma handleResult_now env i rs s : now (handleResult env i rs s) = now s.
Proof.
  unfold handleResult. set (new := concat_where true (drop i rs)).
  destruct (negb (JsString.eqb new "")); [|done].
  set (s1 := set_finalTranscript _ s).
  assert (now s1 = now s) as <- by done. clearbody s1.
  pose proof (processWordsForEmoji_log env new s1) as Hl.
  unfold log_view in Hl. injection Hl as _ _ _ Hn. rewrite <- Hn.
  generalize (processWordsForEmoji env new s1). intros s2.
  generalize (finalTranscript s2). intros text.
  unfold scheduleTranslation, clearTimeout, setTimeout.
  destruct (translateTimer s2); reflexivity.
Qed.

(** Time passes when the page is left alone, and only then. *)
Lemma step_now env s ev :
  now (step env s ev)
  = (now s + match ev with EvAdvance dt => Z.of_N dt | _ => 0 end)%Z.
Proof.
  destruct ev; simpl; rewrite ?Z.add_0_r.
  - reflexivity.
  - apply (toggleMic_keeps (fun _ => True) 0 env s).
  - apply (handleLangChange_keeps (fun _ => True) 0 (set_langSelect value s)).
  - apply (keydown_keeps (fun _ => True) 0 env e s).
  - apply handleResult_now.
  - apply (handleError_keeps (fun _ => True) 0 error s).
  - apply (handleEnd_keeps (fun _ => True) 0 (on_chrome (set_recognition_started false) s)).
  - apply (settle_keeps (fun _ => True) 0 batch outcomes s).
Qed.

Lemma run_now env evs s : now (run env evs s) = (now s + elapsed evs)%Z.
Proof.
  revert s. induction evs as [|ev evs IH]; intros s; simpl; [lia|].
  change (fold_left (step env) evs (step env s ev)) with (run env evs (step env s ev)).
  rewrite IH, step_now. destruct ev; fold (elapsed evs); lia.
Qed.

Lemma elapsed_nonneg evs : (0 <= elapsed evs)%Z.
Proof.
  induction evs as [|ev evs IH]; simpl; [lia|].
  fold (elapsed evs). destruct ev; lia.
Qed.

Lemma Tidy_mono b P T T' s : (T <= T')%Z -> Tidy b P T s -> Tidy b P T' s.
Proof.
  intros Hle (H1 & H2 & H3). split; [done|]. split; [done|]. by eapply Covered_mono.
Qed.

(** From a moment [T] on: the particles created before stay covered. *)
Lemma run_Tidy_from env P T evs : forall s,
  TimerInv s -> (forall id, next_element s <= id -> ~ P id) ->
  Tidy true P T s -> Tidy true P T (run env evs s).
Proof.
  induction evs as [|ev evs IH]; intros s I Hs Hty; simpl; [done|].
  apply IH.
  - by apply step_TimerInv.
  - intros id Hid. apply Hs. destruct (step_pool_step env s ev) as (_ & Hn & _). lia.
  - apply step_Tidy; [done | by right | done].
Qed.

(** At every moment: all particles are covered, from now. *)
Lemma run_Tidy_now env evs : forall s,
  TimerInv s -> Tidy true (fun _ => True) (now s) s ->
  Tidy true (fun _ => True) (now (run env evs s)) (run env evs s).
Proof.
  induction evs as [|ev evs IH]; intros s I Hty; simpl; [done|].
  apply IH; [by apply step_TimerInv|].
  apply (Tidy_mono _ _ (now s)).
  - rewrite step_now. destruct ev; lia.
  - apply step_Tidy; [done | left; lia | done].
Qed.

Lemma Tidy_init lang : Tidy true (fun _ => True) (now (init lang)) (init lang).
Proof.
  unfold init.
  match goal with
  | |- context [setStatus _ _ (updateTranslationCards ?x)] => set (s0 := x)
  end.
  assert (Tidy true (fun _ => True) 0 s0) as H0.
  { split; [|split].
    - intros t Ht. by apply elem_of_nil in Ht.
    - intros h Hh. done.
    - intros span Hin. by apply elem_of_nil in Hin. }
  assert (now s0 = 0%Z) as Hn by done.
  clearbody s0.
  assert (keeps (fun _ => True) 0 s0 (setStatus "Bereit" false (updateTranslationCards s0)))
    as Hk.
  { apply keeps_view; [by peel timers_view | by peel pool_view | by peel log_view]. }
  assert (adds_timers s0 (setStatus "Bereit" false (updateTranslationCards s0))) as Ha.
  { apply adds_timers_view. by peel timers_view. }
  pose proof (Tidy_keeps _ _ _ _ _ Hk Ha H0) as H1. destruct Hk as (Hn1 & _).
  revert H1 Hn1. generalize (setStatus "Bereit" false (updateTranslationCards s0)).
  intros s1 H1 Hn1. by rewrite Hn1, Hn.
Qed.

Lemma Tidy_run env lang evs :
  Tidy true (fun _ => True) (now (run env evs (init lang))) (run env evs (init lang)).
Proof. apply run_Tidy_now; [apply TimerInv_init | apply Tidy_init]. Qed.

(** X15.  No particle stays for good.  A particle that is in the zone at
    some moment is out of it once [EMOJI_FADE_AFTER + 1000] ms have
    passed, whatever happens on the page in between. *)
Theorem particle_gone_in_time env lang evs evs' span :
  span ∈ emojiZone (run env evs (init lang)) ->
  (EMOJI_FADE_AFTER + 1000 <= elapsed evs')%Z ->
  span ∉ emojiZone (run env evs' (run env evs (init lang))).
Proof.
  intros Hin Hel.
  pose proof (TimerInv_run env lang evs) as I.
  pose proof (Tidy_run env lang evs) as Hty.
  pose proof (inv_alloc _ (PoolInv_run env lang evs) span Hin) as Hold.
  revert Hin I Hty Hold. generalize (run env evs (init lang)). intros s Hin I Hty Hold.
  assert (Tidy true (fun id => id < next_element s) (now s) s) as Hty'.
  { destruct Hty as (H1 & H2 & H3). split; [done|]. split; [done|].
    by apply (Covered_weaken (fun _ => True)). }
  assert (forall id, next_element s <= id -> ~ id < next_element s) as Hnew
      by (intros id Hid; lia).
  pose proof (run_Tidy_from env (fun id => id < next_element s) (now s) evs' s I
                Hnew Hty') as (Ht & _ & Hc).
  pose proof (run_now env evs' s) as Hnow.
  revert Ht Hc Hnow. generalize (run env evs' s). intros s' Ht Hc Hnow Hin'.
  destruct (Hc span Hin' Hold) as (t & Htin & Hout).
  specialize (Ht t Htin). simpl in Ht. unfold takes_out, EMOJI_FADE_AFTER in *.
  destruct Hout as [[_ Hd]|[_ Hd]]; lia.
Qed.

Lemma particle_gone_in_time_witness :
  0 ∈ emojiZone (run demo_env [said "ja"] (init "de"))
  /\ 0 ∉ emojiZone (run demo_env [EvKeyDown (key "Space"); EvAdvance 31000]
                      (run demo_env [said "ja"] (init "de"))).
Proof.
  assert (H1 : 0 ∈ emojiZone (run demo_env [said "ja"] (init "de"))).
  { replace (emojiZone (run demo_env [said "ja"] (init "de"))) with [0]
      by (vm_compute; reflexivity).
    constructor. }
  assert (H2 : (EMOJI_FADE_AFTER + 1000
                <= elapsed [EvKeyDown (key "Space"); EvAdvance 31000])%Z)
    by (vm_compute; discriminate).
  split; [exact H1|].
  exact (particle_gone_in_time demo_env "de" [said "ja"]
           [EvKeyDown (key "Space"); EvAdvance 31000] 0 H1 H2).
Defined.

(** ** How many particles a scan makes *)

Lemma addTextParticle_next w s :
  next_element s <= next_element (addTextParticle w s) <= S (next_element s).
Proof. unfold addTextParticle. case_match; simpl; lia. Qed.

Lemma scan_combos_next env lt cs : forall s,
  next_element (fold_left (scan_combo env lt) cs s)
  = next_element s + length (filter (fun c => JsString.includes lt c = true) cs).
Proof.
  induction cs as [|c cs IH]; intros s; simpl; [lia|].
  rewrite IH, filter_cons. unfold scan_combo.
  destruct (JsString.includes lt c) eqn:E.
  - rewrite decide_True by done. rewrite addEmojiParticle_next. simpl. lia.
  - rewrite decide_False by done. done.
Qed.

Lemma scan_word_next env s w :
  let hit := if truthy (dict_get env w) then 1 else 0 in
  let plain := if truthy (dict_get env w) then 0
               else if (3 <? String.length w)%nat then 1 else 0 in
  next_element s + hit <= next_element (scan_word env s w)
  /\ next_element (scan_word env s w) <= next_element s + hit + plain.
Proof.
  unfold scan_word.
  set (s1 := if bool_decide (w ∈ POSITIVE_WORDS env) then _ else s).
  set (s2 := if bool_decide (w ∈ NEGATIVE_WORDS env) then _ else s1).
  assert (next_element s2 = next_element s) as <-.
  { subst s2 s1. by repeat case_match. }
  clearbody s2. clear s1. simpl.
  destruct (truthy (dict_get env w)).
  - rewrite addEmojiParticle_next. lia.
  - destruct (3 <? String.length w)%nat; [|lia].
    pose proof (addTextParticle_next w s2). lia.
Qed.

Lemma scan_words_next env ws : forall s,
  next_element s + length (filter (fun w => truthy (dict_get env w) = true) ws)
  <= next_element (fold_left (scan_word env) ws s)
  /\ next_element (fold_left (scan_word env) ws s)
     <= next_element s + length (filter (fun w => truthy (dict_get env w) = true) ws)
        + length (filter (fun w => truthy (dict_get env w) = false
                                   /\ 3 < String.length w) ws).
Proof.
  induction ws as [|w ws IH]; intros s; simpl; [lia|].
  destruct (IH (scan_word env s w)) as [IH1 IH2].
  destruct (scan_word_next env s w) as [H1 H2]. simpl in H1, H2.
  revert IH1 IH2 H1 H2. generalize (fold_left (scan_word env) ws (scan_word env s w)).
  generalize (scan_word env s w). intros s1 s2 IH1 IH2 H1 H2.
  rewrite !filter_cons. destruct (truthy (dict_get env w)) eqn:E.
  - rewrite decide_True by done. rewrite decide_False by (intros [? ?]; done).
    simpl. lia.
  - rewrite decide_False by done.
    destruct (3 <? String.length w)%nat eqn:E3.
    + apply Nat.ltb_lt in E3. rewrite decide_True by done. simpl. lia.
    + apply Nat.ltb_ge in E3. rewrite decide_False by (intros [? ?]; lia). lia.
Qed.

(** X16.  A scan makes one particle for each phrase of the dictionary the
    text holds and one for each token that has an entry in the dictionary,
    as often as the token comes; besides these it makes at most one for
    each other token of more than three code units. *)
Theorem scan_spawns_per_hit env text s :
  next_element s + length (phrase_hits env text) + length (word_hits env text)
  <= next_element (processWordsForEmoji env text s)
  /\ next_element (processWordsForEmoji env text s)
     <= next_element s + length (phrase_hits env text) + length (word_hits env text)
        + length (plain_words env text).
Proof.
  unfold processWordsForEmoji, phrase_hits, word_hits, plain_words.
  pose proof (scan_combos_next env (JsString.toLowerCase text) (combos env) s) as Hc.
  revert Hc. generalize (fold_left (scan_combo env (JsString.toLowerCase text))
                           (combos env) s).
  intros s1 Hc. destruct (scan_words_next env (words_of text) s1) as [H1 H2].
  revert H1 H2. generalize (fold_left (scan_word env) (words_of text) s1).
  intros s2 H1 H2.
  assert (next_element (updateMood s2) = next_element s2) as ->.
  { pose proof (updateMood_pool s2) as Hv. unfold pool_view in Hv. by injection Hv. }
  lia.
Qed.
